(** * Chinfield RAG demo: chat widget and answer pipeline

    A shallow embedding of the chat widget (the responsive v2 widget and the
    legacy [frontend/widget.js]) and of the answer pipeline that the widget
    talks to, with the properties stated about them.

    JavaScript strings are sequences of UTF-16 code units; a code unit is a
    number, so a string is a [list N].  String literals of the source are
    written with [lit]; the double quote character is [dq]. *)

From Stdlib Require Import List NArith ZArith QArith Qminmax Bool Lia Arith.
From Stdlib Require Import Strings.String Strings.Ascii Numbers.DecimalString.
From Stdlib Require Numbers.DecimalN.
Import ListNotations.
Local Close Scope Q_scope.
Local Open Scope nat_scope.
Local Open Scope list_scope.

(* ================================================================= *)
(** ** JavaScript strings *)

Module JsString.

Definition char := N.
Definition jsstring := list char.

Definition lit (s : string) : jsstring :=
  List.map N_of_ascii (list_ascii_of_string s).

Definition dq : char := 34%N.    (* the double quote *)
Definition lt : char := 60%N.    (* < *)
Definition gt : char := 62%N.    (* > *)
Definition amp : char := 38%N.   (* & *)
Definition nl : char := 10%N.    (* line feed *)
Definition nbsp : char := 160%N. (* U+00A0 *)

Definition jsstring_eqb (a b : jsstring) : bool :=
  if list_eq_dec N.eq_dec a b then true else false.

(** [strip_prefix p s] is [Some rest] when [s = p ++ rest]. *)
Fixpoint strip_prefix (p s : jsstring) : option jsstring :=
  match p, s with
  | [], _ => Some s
  | a :: p', b :: s' => if N.eqb a b then strip_prefix p' s' else None
  | _ :: _, [] => None
  end.

(** [span f s] splits off the longest prefix whose characters satisfy [f]. *)
Fixpoint span (f : char -> bool) (s : jsstring) : jsstring * jsstring :=
  match s with
  | [] => ([], [])
  | c :: s' =>
      if f c then let (a, b) := span f s' in (c :: a, b) else ([], s)
  end.

(** White space and line terminators of ECMAScript, as removed by
    [String.prototype.trim]. *)
Definition is_js_space (c : char) : bool :=
  (N.eqb c 9 || N.eqb c 10 || N.eqb c 11 || N.eqb c 12 || N.eqb c 13
   || N.eqb c 32 || N.eqb c 160 || N.eqb c 5760
   || (N.leb 8192 c && N.leb c 8202)
   || N.eqb c 8232 || N.eqb c 8233 || N.eqb c 8239 || N.eqb c 8287
   || N.eqb c 12288 || N.eqb c 65279)%bool.

Fixpoint trim_start (s : jsstring) : jsstring :=
  match s with
  | c :: s' => if is_js_space c then trim_start s' else s
  | [] => []
  end.

Definition trim (s : jsstring) : jsstring :=
  rev (trim_start (rev (trim_start s))).

(** ** Global replace

    [s.replace(/re/g, ...)] scans [s] from the left.  A matcher returns, for
    the text at the current position, the replacement text and the text left
    after the match.  Where the matcher fails the character is copied and
    the scan moves one character on; where it succeeds the scan resumes
    after the match.  The fuel is the length of the subject, which is enough
    because every match of the patterns used here consumes a character. *)
Definition matcher := jsstring -> option (jsstring * jsstring).

Fixpoint replace_from (fuel : nat) (m : matcher) (s : jsstring) : jsstring :=
  match fuel with
  | O => s
  | S n =>
      match s with
      | [] => []
      | c :: s' =>
          match m s with
          | Some (r, rest) => r ++ replace_from n m rest
          | None => c :: replace_from n m s'
          end
      end
  end.

Definition replace_all (m : matcher) (s : jsstring) : jsstring :=
  replace_from (List.length s) m s.

(** The matcher of a literal pattern [p] replaced by [r]. *)
Definition literal (p r : jsstring) : matcher :=
  fun s => match strip_prefix p s with
           | Some rest => Some (r, rest)
           | None => None
           end.

End JsString.
Import JsString.

(* ================================================================= *)
(** ** sanitizeHTML (v2 widget) *)

Module Sanitize.

(** Serialization of a text node ([temp.textContent = html] followed by
    [temp.innerHTML]): the HTML fragment serialization algorithm escapes
    [&], U+00A0, [<] and [>] in text. *)
Definition escape_char (c : char) : jsstring :=
  if N.eqb c amp then lit "&amp;"
  else if N.eqb c nbsp then lit "&nbsp;"
  else if N.eqb c lt then lit "&lt;"
  else if N.eqb c gt then lit "&gt;"
  else [c].

Definition escapeText (s : jsstring) : jsstring := flat_map escape_char s.

(** The attributes added to every anchor. *)
Definition anchor_attrs : jsstring :=
  lit " target=" ++ [dq] ++ lit "_blank" ++ [dq]
  ++ lit " rel=" ++ [dq] ++ lit "noopener noreferrer" ++ [dq] ++ lit ">".

Definition anchor_open (href : jsstring) : jsstring :=
  lit "<a href=" ++ [dq] ++ href ++ [dq] ++ anchor_attrs.

(** The regular expression of the anchor step: the literal [&lt;a href=]
    and a double quote, then the group: a non-empty run of characters other
    than the double quote (greedy; the run must be followed by a double
    quote, so no shorter run can match), then the closing double quote and
    [&gt;].  The replacement is the opening tag [anchor_open] of the
    captured text. *)
Definition anchor_re : matcher :=
  fun s =>
    match strip_prefix (lit "&lt;a href=" ++ [dq]) s with
    | None => None
    | Some s1 =>
        let (href, s2) := span (fun c => negb (N.eqb c dq)) s1 in
        match href with
        | [] => None
        | _ :: _ =>
            match strip_prefix (dq :: lit "&gt;") s2 with
            | Some rest => Some (anchor_open href, rest)
            | None => None
            end
        end
    end.

Definition sanitizeHTML (html : jsstring) : jsstring :=
  let s0 := escapeText html in
  let s1 := replace_all (literal [nl] (lit "<br>")) s0 in
  let s2 := replace_all (literal (lit "&lt;br&gt;") (lit "<br>")) s1 in
  let s3 := replace_all (literal (lit "&lt;strong&gt;") (lit "<strong>")) s2 in
  let s4 := replace_all (literal (lit "&lt;/strong&gt;") (lit "</strong>")) s3 in
  let s5 := replace_all (literal (lit "&lt;em&gt;") (lit "<em>")) s4 in
  let s6 := replace_all (literal (lit "&lt;/em&gt;") (lit "</em>")) s5 in
  let s7 := replace_all anchor_re s6 in
  let s8 := replace_all (literal (lit "&lt;/a&gt;") (lit "</a>")) s7 in
  let s9 := replace_all (literal (lit "&lt;ul&gt;") (lit "<ul>")) s8 in
  let s10 := replace_all (literal (lit "&lt;/ul&gt;") (lit "</ul>")) s9 in
  let s11 := replace_all (literal (lit "&lt;li&gt;") (lit "<li>")) s10 in
  replace_all (literal (lit "&lt;/li&gt;") (lit "</li>")) s11.

End Sanitize.
Import Sanitize.

(* ================================================================= *)
(** ** The shape of sanitized text *)

Module SanitizeShape.

(** The tags that [sanitizeHTML] turns back into markup, apart from the
    opening anchor, which carries attributes. *)
Definition plain_tags : list jsstring :=
  [ lit "<br>"; lit "<strong>"; lit "</strong>"; lit "<em>"; lit "</em>";
    lit "</a>"; lit "<ul>"; lit "</ul>"; lit "<li>"; lit "</li>" ].

(** The opening anchor of the output for an [href] value: the value between
    double quotes, then [target=_blank] and [rel=noopener noreferrer], each
    value between double quotes. *)
Definition anchor_tag (href : jsstring) : jsstring :=
  lit "<a href=" ++ [dq] ++ href ++ [dq]
  ++ lit " target=" ++ [dq] ++ lit "_blank" ++ [dq]
  ++ lit " rel=" ++ [dq] ++ lit "noopener noreferrer" ++ [dq] ++ lit ">".

(** [Tokens anch s]: the text [s] is a sequence of characters other than
    [<], of plain whitelisted tags and, when [anch] is set, of opening
    anchors [<a href=...>] that carry [target] and [rel] as in
    [anchor_tag].  The [href] value of such an anchor is not empty, holds
    no double quote, and is itself a sequence of characters other than [<]
    and of plain whitelisted tags. *)
Inductive Tokens : bool -> jsstring -> Prop :=
| Tok_nil anch : Tokens anch []
| Tok_text anch c s : c <> lt -> Tokens anch s -> Tokens anch (c :: s)
| Tok_tag anch t s : In t plain_tags -> Tokens anch s -> Tokens anch (t ++ s)
| Tok_anchor h s :
    h <> [] -> ~ In dq h -> Tokens false h -> Tokens true s ->
    Tokens true (anchor_tag h ++ s).

Definition Safe : jsstring -> Prop := Tokens true.

(** [starts_tag s]: the text [s] begins with a whitelisted tag. *)
Definition starts_tag (s : jsstring) : Prop :=
  (exists t rest, In t plain_tags /\ s = t ++ rest)
  \/ (exists h rest, h <> [] /\ ~ In dq h /\ s = anchor_tag h ++ rest).

Definition anchor_pre : jsstring := lit "<a href=" ++ [dq].

(** *** The output in terms of the input

    An opening anchor as the input has it: [href] is the only attribute,
    its value stands between double quotes. *)
Definition anchor_source (href : jsstring) : jsstring :=
  lit "<a href=" ++ [dq] ++ href ++ [dq] ++ lit ">".

(** [begins_tag s]: the input text [s] begins with a tag of the whitelist,
    written exactly so: lower case, no attribute, no space, and for the
    opening anchor an [href] value that is not empty. *)
Definition begins_tag (s : jsstring) : Prop :=
  (exists t rest, In t plain_tags /\ s = t ++ rest)
  \/ (exists h rest, h <> [] /\ ~ In dq h /\ s = anchor_source h ++ rest).

(** How a character of the input that belongs to no whitelisted tag
    appears in the output: a line feed as a line break, the characters
    that are special in HTML as character references. *)
Definition escaped (c : char) : jsstring :=
  if N.eqb c nl then lit "<br>"
  else if N.eqb c lt then lit "&lt;"
  else if N.eqb c gt then lit "&gt;"
  else if N.eqb c amp then lit "&amp;"
  else if N.eqb c nbsp then lit "&nbsp;"
  else [c].

(** [Sanitized input output]: read from the left, the input is a sequence
    of whitelisted tags and of other characters.  A whitelisted tag is
    copied; an opening anchor is copied with [target] and [rel] added, its
    [href] value treated like any input; every other character, so every
    [<] that begins no whitelisted tag, appears as [escaped] has it. *)
Inductive Sanitized : jsstring -> jsstring -> Prop :=
| San_nil : Sanitized [] []
| San_tag t s o :
    In t plain_tags -> Sanitized s o -> Sanitized (t ++ s) (t ++ o)
| San_anchor h s h' o :
    h <> [] -> ~ In dq h -> Sanitized h h' -> Sanitized s o ->
    Sanitized (anchor_source h ++ s) (anchor_tag h' ++ o)
| San_char c s o :
    ~ begins_tag (c :: s) -> Sanitized s o ->
    Sanitized (c :: s) (escaped c ++ o).

End SanitizeShape.
Import SanitizeShape.

(* ================================================================= *)
(** ** The page around the scripts

    The markup of the page is not among the sources.  The element
    [#chatInput] is taken to be a text field ([input type=text]) or a
    [textarea].  Assigning to its [value] does not keep the text as it is:
    a text field strips line feeds and carriage returns from it (the value
    sanitization algorithm of HTML), and the [value] of a textarea reads
    with its newlines normalized (a CR LF pair and a lone CR read as LF).
    The scripts set [style.display] of the button and of the badge. *)

Module Page.

Inductive InputKind := TextField | TextArea.

Definition cr : char := 13%N.

Definition strip_newlines (v : jsstring) : jsstring :=
  filter (fun c => negb (N.eqb c nl || N.eqb c cr)) v.

Fixpoint normalize_newlines (v : jsstring) : jsstring :=
  match v with
  | [] => []
  | c :: v' =>
      if N.eqb c cr then
        nl :: match v' with
              | c' :: v'' =>
                  if N.eqb c' nl then normalize_newlines v''
                  else normalize_newlines v'
              | [] => []
              end
      else c :: normalize_newlines v'
  end.

(** What [input.value] reads after [input.value = v]. *)
Definition assigned (k : InputKind) (v : jsstring) : jsstring :=
  match k with
  | TextField => strip_newlines v
  | TextArea => normalize_newlines v
  end.

(** [style.display] of an element, as far as the scripts set it. *)
Inductive display :=
| DisplayDefault   (* not set by the script *)
| DisplayNone      (* ['none'] *)
| DisplayFlex.     (* ['flex'] *)

End Page.
Import Page.

(* ================================================================= *)
(** ** The responsive widget (v2)

    The widget is modelled as a state machine.  A [World] holds the
    [STATE] object, the part of the document the widget reads and writes
    (the widget element, the input, the message container and the badge),
    the log of
    the [fetch] calls made so far and the suspended [sendMessage] calls.
    An asynchronous [sendMessage] runs up to its first [await] in
    [sendMessage_start]; it is resumed by [resume] when the promise it
    waits for settles.  The timer of [askAbout] is an event; the other
    timers are left out: they show or hide the button, move the focus and
    scroll the container, none of which the model holds.  So are the
    console messages. *)

Module Widget.

(** [Date.now()] and [Math.random()] as read by one call of [addMessage];
    the random number is kept as the integer that numbers it among the
    doubles of the unit interval. *)
Record entropy := { now : N; random : N }.

(** The id [msg-<now>-<random>] of a message element; the template is
    injective in the two numbers, so the pair stands for the string. *)
Definition msgid := (N * N)%type.

Definition msgid_eqb (a b : msgid) : bool :=
  (N.eqb (fst a) (fst b) && N.eqb (snd a) (snd b))%bool.

Inductive Sender := user | bot.

Inductive content :=
| TextContent (t : jsstring)   (* set through [textContent] *)
| InnerHTML (h : jsstring).    (* set through [innerHTML] *)

Record message := {
  m_id : option msgid;
  m_sender : Sender;
  m_loading : bool;   (* class [loading] *)
  m_welcome : bool;   (* class [welcome] *)
  m_content : content
}.

Record State := {
  chatOpen : bool;
  isWaitingResponse : bool;
  isMobileView : bool;
  sessionId : jsstring;
  messageCount : nat
}.

(** [None] stands for an element that is not in the document. *)
Record Dom := {
  chatWidget : option bool;             (* has class [open] *)
  chatInput : option jsstring;          (* its [value] *)
  chatMessages : option (list message); (* its children, in order *)
  chatButton : bool;                    (* present *)
  chatClose : bool;                     (* present *)
  chatInputKind : InputKind;            (* what [#chatInput] is, if present *)
  chatBadge : option display            (* the first [.chat-button-badge] *)
}.

Definition with_widget (d : Dom) (open : bool) : Dom :=
  {| chatWidget := Some open; chatInput := chatInput d;
     chatMessages := chatMessages d;
     chatButton := chatButton d; chatClose := chatClose d;
     chatInputKind := chatInputKind d; chatBadge := chatBadge d |}.

Definition with_input (d : Dom) (v : jsstring) : Dom :=
  {| chatWidget := chatWidget d; chatInput := Some v;
     chatMessages := chatMessages d;
     chatButton := chatButton d; chatClose := chatClose d;
     chatInputKind := chatInputKind d; chatBadge := chatBadge d |}.

Definition with_messages (d : Dom) (ms : list message) : Dom :=
  {| chatWidget := chatWidget d; chatInput := chatInput d;
     chatMessages := Some ms;
     chatButton := chatButton d; chatClose := chatClose d;
     chatInputKind := chatInputKind d; chatBadge := chatBadge d |}.

(** [if (badge) badge.style.display = 'none']. *)
Definition hide_badge (d : Dom) : Dom :=
  match chatBadge d with
  | Some _ =>
      {| chatWidget := chatWidget d; chatInput := chatInput d;
         chatMessages := chatMessages d;
         chatButton := chatButton d; chatClose := chatClose d;
         chatInputKind := chatInputKind d; chatBadge := Some DisplayNone |}
  | None => d
  end.

(** A [fetch] call: the object given to [JSON.stringify] is kept as the
    list of its fields.  The [timeout] entry of the options is not an
    option of [fetch] and has no effect. *)
Record request := {
  url : jsstring;
  method : jsstring;
  content_type : jsstring;
  body : list (jsstring * jsstring)
}.

(** The parsed JSON of a response, as far as the widgets read it.  [answer]
    and [needs_human] are read by this widget, [response] and
    [handoff_to_human] by the legacy one.  A text field, when present, is a
    string, as the API has it; an absent field reads as [undefined], which
    is [None] for a text and [false], its truth value, for a flag.  A JSON
    value other than an object and [null] reads as an object without
    fields. *)
Record api_fields := {
  answer : option jsstring;
  needs_human : bool;
  num_docs : option Z;
  response : option jsstring;
  handoff_to_human : bool
}.

Inductive json_data :=
| DataNull                         (* the JSON value [null] *)
| DataObject (d : api_fields).

(** What a suspended call waits for, with its [loadingId]. *)
Inductive continuation :=
| AwaitFetch (loadingId : option msgid)
| AwaitJson (loadingId : option msgid).

(** How the awaited promise settles. *)
Inductive outcome :=
| FetchRejected                              (* network error *)
| FetchResponse (ok : bool) (status : N)
| JsonRejected                               (* body is not JSON *)
| JsonData (d : json_data).

Record World := {
  st : State;
  dom : Dom;
  requests : list request;
  pending : list continuation
}.

Definition set_dom (w : World) (d : Dom) : World :=
  {| st := st w; dom := d; requests := requests w; pending := pending w |}.

Definition set_st (w : World) (s : State) : World :=
  {| st := s; dom := dom w; requests := requests w; pending := pending w |}.

Definition set_waiting (w : World) (b : bool) : World :=
  set_st w {| chatOpen := chatOpen (st w); isWaitingResponse := b;
              isMobileView := isMobileView (st w);
              sessionId := sessionId (st w);
              messageCount := messageCount (st w) |}.

(** The value of [CONFIG.API_URL] for a value of [process.env.NODE_ENV]. *)
Definition config_api_url (node_env : jsstring) : jsstring :=
  if jsstring_eqb node_env (lit "production")
  then lit "https://web-production-d0c48.up.railway.app"
  else lit "http://localhost:8000".

Section WithConfig.

(** [CONFIG.API_URL], fixed when the script is loaded; see
    [config_api_url]. *)
Variable API_URL : jsstring.

Definition MOBILE_BREAKPOINT : Z := 768.

(** *** Session id *)

Definition decimal (n : N) : jsstring :=
  lit (NilEmpty.string_of_uint (N.to_uint n)).

(** [s.substr(start, len)] for non-negative arguments. *)
Definition substr (s : jsstring) (start len : nat) : jsstring :=
  firstn len (skipn start s).

(** [generateSessionId]: [random36] is [Math.random().toString(36)]. *)
Definition generateSessionId (now : N) (random36 : jsstring) : jsstring :=
  lit "session_" ++ decimal now ++ lit "_" ++ substr random36 2 9.

Definition initial_state (now : N) (random36 : jsstring) (innerWidth : Z)
  : State :=
  {| chatOpen := false;
     isWaitingResponse := false;
     isMobileView := (innerWidth <? MOBILE_BREAKPOINT)%Z;
     sessionId := generateSessionId now random36;
     messageCount := 0 |}.

Definition initial_world (now : N) (random36 : jsstring) (innerWidth : Z)
  (d : Dom) : World :=
  {| st := initial_state now random36 innerWidth; dom := d;
     requests := []; pending := [] |}.

(** *** Messages *)

Definition addMessage (text : jsstring) (sender : Sender) (isLoading : bool)
  (e : entropy) (w : World) : World * option msgid :=
  match chatMessages (dom w) with
  | None => (w, None)
  | Some ms =>
      let messageId := (now e, random e) in
      let messageDiv :=
        {| m_id := Some messageId; m_sender := sender;
           m_loading := isLoading; m_welcome := false;
           m_content := if isLoading then TextContent text
                        else InnerHTML (sanitizeHTML text) |} in
      let d := with_messages (dom w) (ms ++ [messageDiv]) in
      let s := {| chatOpen := chatOpen (st w);
                  isWaitingResponse := isWaitingResponse (st w);
                  isMobileView := isMobileView (st w);
                  sessionId := sessionId (st w);
                  messageCount := S (messageCount (st w)) |} in
      ({| st := s; dom := d; requests := requests w; pending := pending w |},
       Some messageId)
  end.

Definition has_id (i : msgid) (m : message) : bool :=
  match m_id m with
  | Some j => msgid_eqb i j
  | None => false
  end.

(** Removes the first element carrying the id, as [getElementById] returns
    the first one in document order. *)
Fixpoint remove_first (i : msgid) (ms : list message) : list message :=
  match ms with
  | [] => []
  | m :: ms' => if has_id i m then ms' else m :: remove_first i ms'
  end.

(** [removeMessage]: a [null] id names no element. *)
Definition removeMessage (messageId : option msgid) (w : World) : World :=
  match messageId, chatMessages (dom w) with
  | Some i, Some ms =>
      set_dom w (with_messages (dom w) (remove_first i ms))
  | _, _ => w
  end.

(** The markup of the welcome message, line by line as in the template. *)
Definition welcome_html : jsstring :=
  let indent := nl :: lit "        " in
  let item := nl :: lit "            <li>" in
  indent ++ lit "<strong>" ++ [55357; 56395]%N ++ lit " " ++ [161%N]
    ++ lit "Bienvenido al Asistente Chinfield!</strong><br/><br/>"
  ++ indent ++ lit "Puedo ayudarte con informaci" ++ [243%N]
    ++ lit "n sobre nuestros productos:"
  ++ indent ++ lit "<ul>"
  ++ item ++ [55357; 56458]%N ++ lit " Dosificaciones y posolog" ++ [237%N]
    ++ lit "a</li>"
  ++ item ++ [55356; 57263]%N ++ lit " Indicaciones terap" ++ [233%N]
    ++ lit "uticas</li>"
  ++ item ++ [9888; 65039]%N ++ lit " Contraindicaciones</li>"
  ++ item ++ [55357; 56457]%N ++ lit " V" ++ [237%N]
    ++ lit "as de administraci" ++ [243%N] ++ lit "n</li>"
  ++ indent ++ lit "</ul><br/>"
  ++ indent ++ lit "<em>" ++ [191%N] ++ lit "En qu" ++ [233%N]
    ++ lit " puedo asistirte?</em>"
  ++ nl :: lit "    ".

(** [addWelcomeMessage]: only into an empty container. *)
Definition addWelcomeMessage (w : World) : World :=
  match chatMessages (dom w) with
  | Some [] =>
      set_dom w (with_messages (dom w)
                   [ {| m_id := None; m_sender := bot;
                        m_loading := false; m_welcome := true;
                        m_content := InnerHTML welcome_html |} ])
  | _ => w
  end.

Definition present {A} (o : option A) : bool :=
  match o with Some _ => true | None => false end.

Definition verifyDOMElements (w : World) : bool :=
  (present (chatWidget (dom w)) && chatButton (dom w)
   && present (chatMessages (dom w)) && present (chatInput (dom w))
   && chatClose (dom w))%bool.

(** The [DOMContentLoaded] listener, as far as the document goes.  The
    handlers that [setupEventListeners] and [setupResponsiveListeners]
    register are what the events of [step] run; their registration is not
    modelled. *)
Definition onDOMContentLoaded (w : World) : World :=
  if verifyDOMElements w then addWelcomeMessage w else w.

(** *** Opening and closing *)

Definition set_open (w : World) (b : bool) : World :=
  {| st := {| chatOpen := b;
              isWaitingResponse := isWaitingResponse (st w);
              isMobileView := isMobileView (st w);
              sessionId := sessionId (st w);
              messageCount := messageCount (st w) |};
     dom := with_widget (dom w) b;
     requests := requests w; pending := pending w |}.

(** [openChat] sets the flag and the class and hides the badge; what it
    leaves to timers (hiding the button, the focus) is not modelled. *)
Definition openChat (w : World) : World :=
  if chatOpen (st w) then w
  else match chatWidget (dom w) with
       | None => w
       | Some _ =>
           let w1 := set_open w true in
           set_dom w1 (hide_badge (dom w1))
       end.

Definition closeChat (w : World) : World :=
  if chatOpen (st w) then
    match chatWidget (dom w) with
    | None => w
    | Some _ => set_open w false
    end
  else w.

Definition toggleChat (w : World) : World :=
  if chatOpen (st w) then closeChat w else openChat w.

(** The resize listener, when [debounce] runs it; the restyling of the
    widget that follows a change of the breakpoint is not modelled. *)
Definition onResize (innerWidth : Z) (w : World) : World :=
  set_st w {| chatOpen := chatOpen (st w);
              isWaitingResponse := isWaitingResponse (st w);
              isMobileView := (innerWidth <? MOBILE_BREAKPOINT)%Z;
              sessionId := sessionId (st w);
              messageCount := messageCount (st w) |}.

(** *** sendMessage *)

(** [input?.value?.trim()]; [undefined] is [None]. *)
Definition read_message (w : World) : option jsstring :=
  match chatInput (dom w) with
  | Some v => Some (trim v)
  | None => None
  end.

(** [!message]: [undefined] and the empty string are falsy. *)
Definition falsy (m : option jsstring) : bool :=
  match m with
  | None => true
  | Some [] => true
  | Some (_ :: _) => false
  end.

Definition clear_input (w : World) : World :=
  match chatInput (dom w) with
  | Some _ => set_dom w (with_input (dom w) [])
  | None => w
  end.

Definition chat_request (message : jsstring) (w : World) : request :=
  {| url := API_URL ++ lit "/api/chat";
     method := lit "POST";
     content_type := lit "application/json";
     body := [ (lit "message", message);
               (lit "session_id", sessionId (st w)) ] |}.

Definition fallback_text : jsstring :=
  lit "Lo siento, hubo un problema al procesar tu consulta. "
  ++ lit "Por favor, intenta nuevamente o contacta a info@chinfield.com".

(** [sendMessage] up to [await fetch(...)]. *)
Definition sendMessage_start (e1 e2 : entropy) (w : World) : World :=
  match read_message w with
  | None => w
  | Some message =>
      if (falsy (Some message) || isWaitingResponse (st w))%bool then w
      else
        let w1 := clear_input w in
        let (w2, _) := addMessage message user false e1 w1 in
        let (w3, loadingId) := addMessage (lit "Pensando...") bot true e2 w2 in
        let w4 := set_waiting w3 true in
        {| st := st w4; dom := dom w4;
           requests := requests w4 ++ [chat_request message w4];
           pending := pending w4 ++ [AwaitFetch loadingId] |}
  end.

(** The [finally] block. *)
Definition finally (w : World) : World := set_waiting w false.

(** The [catch] block followed by [finally]. *)
Definition catch_finally (loadingId : option msgid) (e : entropy) (w : World)
  : World :=
  let w1 := removeMessage loadingId w in
  let (w2, _) := addMessage fallback_text bot false e w1 in
  finally w2.

(** Assigning [undefined] to [textContent] empties the element. *)
Definition text_of (v : option jsstring) : jsstring :=
  match v with
  | Some s => s
  | None => []
  end.

(** The rest of the [try] block once [response.json()] has given [data]:
    reading a property of [null] throws, after the loading message was
    removed.  The branch on [data.needs_human] is empty. *)
Definition on_data (loadingId : option msgid) (data : json_data)
  (e : entropy) (w : World) : World :=
  let w1 := removeMessage loadingId w in
  match data with
  | DataNull => catch_finally loadingId e w1
  | DataObject d =>
      let (w2, _) := addMessage (text_of (answer d)) bot false e w1 in
      let w3 := if needs_human d then w2 else w2 in
      finally w3
  end.

(** Resuming a suspended call; the result is the world and the
    continuation, if the call suspends again.  An outcome that does not
    fit the continuation cannot occur and is [None]. *)
Definition resume (c : continuation) (o : outcome) (e : entropy) (w : World)
  : option (World * option continuation) :=
  match c, o with
  | AwaitFetch loadingId, FetchRejected =>
      Some (catch_finally loadingId e w, None)
  | AwaitFetch loadingId, FetchResponse ok _ =>
      if ok then Some (w, Some (AwaitJson loadingId))
      else Some (catch_finally loadingId e w, None)
  | AwaitJson loadingId, JsonRejected =>
      Some (catch_finally loadingId e w, None)
  | AwaitJson loadingId, JsonData data =>
      Some (on_data loadingId data e w, None)
  | _, _ => None
  end.

(** *** Events *)

Inductive event :=
| DOMContentLoaded
| Send (e1 e2 : entropy)                    (* click, touch or Enter *)
| KeyPress (enter shift : bool) (e1 e2 : entropy)
| Settle (k : nat) (o : outcome) (e : entropy)
| Typing (v : jsstring)                     (* the user edits the input *)
| Toggle | Open | Close
| Resize (innerWidth : Z)
| ApiSendMessage (msg : jsstring) (e1 e2 : entropy)
| ApiAskAbout                               (* [askAbout]: opens the chat *)
| AskAboutTimer (productName : jsstring) (e1 e2 : entropy).

(** [input.value = v], by the script or by the user: the element keeps
    the text as [assigned] has it. *)
Definition set_input (v : jsstring) (w : World) : World :=
  match chatInput (dom w) with
  | Some _ =>
      set_dom w (with_input (dom w) (assigned (chatInputKind (dom w)) v))
  | None => w
  end.

(** [window.ChinfiledChat.sendMessage]. *)
Definition api_sendMessage (msg : jsstring) (e1 e2 : entropy) (w : World)
  : World :=
  match chatInput (dom w) with
  | Some _ => sendMessage_start e1 e2 (set_input msg w)
  | None => w
  end.

Definition remove_nth (k : nat) (l : list continuation) : list continuation :=
  firstn k l ++ skipn (S k) l.

Definition settle (k : nat) (o : outcome) (e : entropy) (w : World) : World :=
  match nth_error (pending w) k with
  | None => w
  | Some c =>
      let w0 := {| st := st w; dom := dom w; requests := requests w;
                   pending := remove_nth k (pending w) |} in
      match resume c o e w0 with
      | None => w
      | Some (w1, None) => w1
      | Some (w1, Some c') =>
          {| st := st w1; dom := dom w1; requests := requests w1;
             pending := pending w1 ++ [c'] |}
      end
  end.

Definition step (w : World) (ev : event) : World :=
  match ev with
  | DOMContentLoaded => onDOMContentLoaded w
  | Send e1 e2 => sendMessage_start e1 e2 w
  | KeyPress enter shift e1 e2 =>
      if (enter && negb shift)%bool then sendMessage_start e1 e2 w else w
  | Settle k o e => settle k o e w
  | Typing v => set_input v w
  | Toggle => toggleChat w
  | Open => openChat w
  | Close => closeChat w
  | Resize innerWidth => onResize innerWidth w
  | ApiSendMessage msg e1 e2 => api_sendMessage msg e1 e2 w
  | ApiAskAbout => openChat w
  | AskAboutTimer productName e1 e2 =>
      api_sendMessage ([191%N] ++ lit "Qu" ++ [233%N] ++ lit " es "
                       ++ productName ++ lit "?") e1 e2 w
  end.

Definition run (w : World) (evs : list event) : World :=
  fold_left step evs w.

(** [window.ChinfiledChat.getSessionId]. *)
Definition getSessionId (w : World) : jsstring := sessionId (st w).

(** *** Page loads

    In one browser session the page may be loaded more than once (a
    reload, a navigation back to it).  Every load runs the script again:
    [STATE] is built afresh, [generateSessionId] is called again, and the
    calls suspended on the page before are gone.  The script keeps nothing
    outside the page: it uses no cookie, no [localStorage] and no
    [sessionStorage].  [earlier] logs the requests of the pages before. *)
Record load := {
  load_now : N;               (* [Date.now()] when [STATE] is built *)
  load_random36 : jsstring;   (* [Math.random().toString(36)] *)
  load_innerWidth : Z;
  load_dom : Dom
}.

Definition page_of (l : load) : World :=
  initial_world (load_now l) (load_random36 l) (load_innerWidth l)
    (load_dom l).

Record Browser := {
  earlier : list request;
  page : World
}.

Inductive browser_event :=
| PageLoad (l : load)
| OnPage (ev : event).

Definition browse (b : Browser) (bev : browser_event) : Browser :=
  match bev with
  | PageLoad l =>
      {| earlier := earlier b ++ requests (page b); page := page_of l |}
  | OnPage ev => {| earlier := earlier b; page := step (page b) ev |}
  end.

Definition browser_session (l : load) (bevs : list browser_event) : Browser :=
  fold_left browse bevs {| earlier := []; page := page_of l |}.

(** The load that the page of a session comes from. *)
Fixpoint last_load (l : load) (bevs : list browser_event) : load :=
  match bevs with
  | [] => l
  | PageLoad l' :: rest => last_load l' rest
  | OnPage _ :: rest => last_load l rest
  end.

(** All the requests of a session, in order. *)
Definition sent (b : Browser) : list request :=
  earlier b ++ requests (page b).

(** The [session_id] field of a request body, if it has one. *)
Definition session_id_of (r : request) : option jsstring :=
  match find (fun f => jsstring_eqb (fst f) (lit "session_id")) (body r) with
  | Some f => Some (snd f)
  | None => None
  end.

End WithConfig.

End Widget.

(* ================================================================= *)
(** ** The legacy widget ([frontend/widget.js])

    The legacy widget keeps two global flags, reads the widget, the
    button, the input and the message container without checking that they
    exist (the model has them present), gives a message the id
    [msg-<Date.now()>] and sets its text through [textContent]. *)

Module Legacy.

Import Widget.

Record message := {
  m_id : option N;          (* [Date.now()] of the id, if the element has one *)
  m_sender : Sender;
  m_loading : bool;
  m_content : content
}.

Record World := {
  chatOpen : bool;
  isWaitingResponse : bool;
  widget_open : bool;               (* class [open] of the widget *)
  input : jsstring;                 (* value of the input *)
  messages : list message;          (* children of the container *)
  requests : list request;
  pending : list N;                 (* [loadingId] of each suspended call *)
  input_kind : InputKind;           (* what [#chatInput] is *)
  button_display : display;         (* [style.display] of the button *)
  badge : option display            (* the first [.chat-button-badge] *)
}.

Definition API_URL : jsstring := lit "http://localhost:8000".

(** [toggleChat]: on opening the button and the badge are hidden, on
    closing the button is shown again; the badge is not.  The focus, which
    opening moves to the input, is not modelled. *)
Definition toggleChat (w : World) : World :=
  if negb (chatOpen w) then
    {| chatOpen := true; isWaitingResponse := isWaitingResponse w;
       widget_open := true; input := input w; messages := messages w;
       requests := requests w; pending := pending w;
       input_kind := input_kind w; button_display := DisplayNone;
       badge := match badge w with
                | Some _ => Some DisplayNone
                | None => None
                end |}
  else
    {| chatOpen := false; isWaitingResponse := isWaitingResponse w;
       widget_open := false; input := input w; messages := messages w;
       requests := requests w; pending := pending w;
       input_kind := input_kind w; button_display := DisplayFlex;
       badge := badge w |}.

Definition openChat (w : World) : World :=
  if chatOpen w then w else toggleChat w.

Definition closeChat (w : World) : World :=
  if chatOpen w then toggleChat w else w.

Definition set_messages (w : World) (ms : list message) : World :=
  {| chatOpen := chatOpen w; isWaitingResponse := isWaitingResponse w;
     widget_open := widget_open w; input := input w; messages := ms;
     requests := requests w; pending := pending w;
     input_kind := input_kind w; button_display := button_display w;
     badge := badge w |}.

Definition set_input (w : World) (v : jsstring) : World :=
  {| chatOpen := chatOpen w; isWaitingResponse := isWaitingResponse w;
     widget_open := widget_open w; input := v; messages := messages w;
     requests := requests w; pending := pending w;
     input_kind := input_kind w; button_display := button_display w;
     badge := badge w |}.

(** [input.value = v], by the script or by the user: the element keeps
    the text as [assigned] has it. *)
Definition assign_input (w : World) (v : jsstring) : World :=
  set_input w (assigned (input_kind w) v).

Definition set_waiting (w : World) (b : bool) : World :=
  {| chatOpen := chatOpen w; isWaitingResponse := b;
     widget_open := widget_open w; input := input w; messages := messages w;
     requests := requests w; pending := pending w;
     input_kind := input_kind w; button_display := button_display w;
     badge := badge w |}.

Definition addMessage (text : jsstring) (sender : Sender) (isLoading : bool)
  (now : N) (w : World) : World * N :=
  (set_messages w
     (messages w ++ [ {| m_id := Some now; m_sender := sender;
                         m_loading := isLoading;
                         m_content := TextContent text |} ]),
   now).

Definition has_id (i : N) (m : message) : bool :=
  match m_id m with
  | Some j => N.eqb i j
  | None => false
  end.

Fixpoint remove_first (i : N) (ms : list message) : list message :=
  match ms with
  | [] => []
  | m :: ms' => if has_id i m then ms' else m :: remove_first i ms'
  end.

Definition removeMessage (messageId : N) (w : World) : World :=
  set_messages w (remove_first messageId (messages w)).

(** The markup of the contact message, line by line as in the template. *)
Definition handoff_html : jsstring :=
  let indent := nl :: lit "        " in
  indent ++ lit "<strong>" ++ [55357; 56492]%N ++ lit " " ++ [191%N]
    ++ lit "Necesit" ++ [225%N] ++ lit "s m" ++ [225%N]
    ++ lit "s ayuda?</strong><br/><br/>"
  ++ indent ++ lit "Para consultas espec" ++ [237%N] ++ lit "ficas contact"
    ++ [225%N] ++ lit ":<br/>"
  ++ indent ++ [55357; 56551]%N ++ lit " info@chinfield.com<br/>"
  ++ indent ++ [55357; 56542]%N ++ lit " +54 11 4762-5163<br/>"
  ++ indent ++ [55356; 57104]%N ++ lit " <a href=" ++ [dq]
    ++ lit "https://chinfield.com/contacto" ++ [dq] ++ lit " target=" ++ [dq]
    ++ lit "_blank" ++ [dq] ++ lit " style=" ++ [dq] ++ lit "color: #e89a3c;"
    ++ [dq] ++ lit ">chinfield.com/contacto</a>"
  ++ nl :: lit "    ".

Definition handoff_message : message :=
  {| m_id := None; m_sender := bot; m_loading := false;
     m_content := InnerHTML handoff_html |}.

Definition addHandoffMessage (w : World) : World :=
  set_messages w (messages w ++ [handoff_message]).

Definition chat_request (message : jsstring) : request :=
  {| url := API_URL ++ lit "/api/chat";
     method := lit "POST";
     content_type := lit "application/json";
     body := [ (lit "message", message) ] |}.

Definition fallback_text : jsstring :=
  lit "Lo siento, hubo un problema al procesar tu consulta. Por favor, intenta nuevamente o contacta directamente a info@chinfield.com".

(** [sendMessage] up to [await fetch(...)]. *)
Definition sendMessage_start (t1 t2 : N) (w : World) : World :=
  let message := trim (input w) in
  if (falsy (Some message) || isWaitingResponse w)%bool then w
  else
    let w1 := set_input w [] in
    let (w2, _) := addMessage message user false t1 w1 in
    let (w3, loadingId) := addMessage (lit "Pensando...") bot true t2 w2 in
    let w4 := set_waiting w3 true in
    {| chatOpen := chatOpen w4; isWaitingResponse := isWaitingResponse w4;
       widget_open := widget_open w4; input := input w4;
       messages := messages w4;
       requests := requests w4 ++ [chat_request message];
       pending := pending w4 ++ [loadingId];
       input_kind := input_kind w4; button_display := button_display w4;
       badge := badge w4 |}.

Definition finally (w : World) : World := set_waiting w false.

Definition catch_finally (loadingId : N) (t : N) (w : World) : World :=
  let w1 := removeMessage loadingId w in
  let (w2, _) := addMessage fallback_text bot false t w1 in
  finally w2.

(** The [try] block after [response.json()]: the text shown is
    [data.response]; the contact message is added when
    [data.handoff_to_human] is truthy. *)
Definition on_data (loadingId : N) (data : json_data) (t : N) (w : World)
  : World :=
  let w1 := removeMessage loadingId w in
  match data with
  | DataNull => catch_finally loadingId t w1
  | DataObject d =>
      let (w2, _) := addMessage (text_of (response d)) bot false t w1 in
      let w3 := if handoff_to_human d then addHandoffMessage w2 else w2 in
      finally w3
  end.

(** The two awaits of the legacy [sendMessage] are taken in one step: the
    only state between them is the one before the first. *)
Inductive result :=
| Rejected                    (* network error *)
| NotOk (status : N)          (* [response.ok] is false *)
| BadJson                     (* [response.json()] rejects *)
| Parsed (data : json_data).

Definition resume (loadingId : N) (r : result) (t : N) (w : World) : World :=
  match r with
  | Rejected | NotOk _ | BadJson => catch_finally loadingId t w
  | Parsed data => on_data loadingId data t w
  end.

Inductive event :=
| Send (t1 t2 : N)
| KeyPress (enter shift : bool) (t1 t2 : N)
| Settle (k : nat) (r : result) (t : N)
| Typing (v : jsstring)
| Toggle | Open | Close
| AskAbout
| AskAboutTimer (productName : jsstring) (t1 t2 : N).

Definition settle (k : nat) (r : result) (t : N) (w : World) : World :=
  match nth_error (pending w) k with
  | None => w
  | Some loadingId =>
      resume loadingId r t
        {| chatOpen := chatOpen w; isWaitingResponse := isWaitingResponse w;
           widget_open := widget_open w; input := input w;
           messages := messages w; requests := requests w;
           pending := firstn k (pending w) ++ skipn (S k) (pending w);
           input_kind := input_kind w; button_display := button_display w;
           badge := badge w |}
  end.

Definition step (w : World) (ev : event) : World :=
  match ev with
  | Send t1 t2 => sendMessage_start t1 t2 w
  | KeyPress enter shift t1 t2 =>
      if (enter && negb shift)%bool then sendMessage_start t1 t2 w else w
  | Settle k r t => settle k r t w
  | Typing v => assign_input w v
  | Toggle => toggleChat w
  | Open => openChat w
  | Close => closeChat w
  | AskAbout => openChat w
  | AskAboutTimer productName t1 t2 =>
      sendMessage_start t1 t2
        (assign_input w ([191%N] ++ lit "Qu" ++ [233%N] ++ lit " es "
                           ++ productName ++ lit "?"))
  end.

Definition run (w : World) (evs : list event) : World :=
  fold_left step evs w.

(** The page as the script finds it: the kind of the input, the badge if
    the page has one, the text in the input and the messages in the
    container. *)
Definition initial_world (k : InputKind) (b : option display) (v : jsstring)
  (ms : list message) : World :=
  {| chatOpen := false; isWaitingResponse := false; widget_open := false;
     input := v; messages := ms; requests := []; pending := [];
     input_kind := k; button_display := DisplayDefault; badge := b |}.

End Legacy.

(* ================================================================= *)
(** ** debounce (v2 widget)

    [debounce(func, wait)] returns a function that shares the variable
    [timeout] with the timers it sets.  The timers of the browser are kept
    in a table: [setTimeout] adds a timer with a new id, which is due
    [wait] milliseconds later; [clearTimeout] removes the timer of an id;
    the event loop runs a timer that is due, once, and drops it. *)

Module Debounce.

Section WithArgs.

Variable A : Type.     (* the arguments of a call *)
Variable wait : Z.

Record timer := { t_id : nat; t_due : Z; t_args : A }.

Record state := {
  timers : list timer;        (* the pending timers *)
  next_id : nat;              (* the id the next [setTimeout] returns *)
  timeout : option nat;       (* the variable [timeout]; [None] is undefined *)
  invoked : list (Z * A)      (* the calls of [func]: time and arguments *)
}.

Definition initial : state :=
  {| timers := []; next_id := 0; timeout := None; invoked := [] |}.

(** [clearTimeout(id)]: no effect for [undefined] or an id that names no
    pending timer. *)
Definition clearTimeout (i : option nat) (ts : list timer) : list timer :=
  match i with
  | None => ts
  | Some j => filter (fun t => negb (Nat.eqb (t_id t) j)) ts
  end.

(** [executedFunction(...args)] called at time [now]. *)
Definition executedFunction (now : Z) (args : A) (s : state) : state :=
  let ts := clearTimeout (timeout s) (timers s) in
  {| timers := ts ++ [ {| t_id := next_id s; t_due := (now + wait)%Z;
                          t_args := args |} ];
     next_id := S (next_id s);
     timeout := Some (next_id s);
     invoked := invoked s |}.

(** The event loop at time [now] runs timer [i], if it is pending and due:
    the timer leaves the table and [later] runs, which clears the timer
    named by [timeout] and calls [func] with the arguments of its call. *)
Definition fire (now : Z) (i : nat) (s : state) : state :=
  match find (fun t => Nat.eqb (t_id t) i) (timers s) with
  | None => s
  | Some t =>
      if (t_due t <=? now)%Z then
        let ts := filter (fun u => negb (Nat.eqb (t_id u) i)) (timers s) in
        {| timers := clearTimeout (timeout s) ts;
           next_id := next_id s;
           timeout := timeout s;
           invoked := invoked s ++ [(now, t_args t)] |}
      else s
  end.

Inductive event :=
| Call (now : Z) (args : A)
| Fire (now : Z) (i : nat).

Definition step (s : state) (ev : event) : state :=
  match ev with
  | Call now args => executedFunction now args s
  | Fire now i => fire now i s
  end.

Definition run (evs : list event) : state := fold_left step evs initial.

(** The time and the arguments of the latest call among the events. *)
Fixpoint last_call (evs : list event) : option (Z * A) :=
  match evs with
  | [] => None
  | ev :: evs' =>
      match last_call evs' with
      | Some c => Some c
      | None => match ev with
                | Call now args => Some (now, args)
                | Fire _ _ => None
                end
      end
  end.

Definition is_call (ev : event) : bool :=
  match ev with Call _ _ => true | Fire _ _ => false end.

End WithArgs.

End Debounce.

(* ================================================================= *)
(** ** The answer pipeline

    The server side ([app.py], [rag_system_api.py], [config/settings.py])
    is not among the sources; the pipeline is modelled from the
    specification.  Scores are rationals.  The Retriever and the Answer
    Generator are parameters; a stage either returns or raises.  Calls to
    the two stages are logged, so that a property can count them. *)

Module Pipeline.

Local Open Scope Q_scope.

(** Modelled from the spec: server-side text (a Python [str], no code of
    the server is among the sources), as a list of code points. *)
Definition text := list N.

(** Modelled from the spec: RetrievedPassage of section 3 (the chunk's id,
    text and product, and the score); the embedding vector is left out. *)
Record RetrievedPassage := {
  chunk_id : text;
  chunk_text : text;
  source_product : text;
  score : Q
}.

(** Modelled from the spec: ConfidenceAssessment of section 3. *)
Record ConfidenceAssessment := {
  mean_score : Q;
  max_score : Q;
  passage_count : nat;
  sufficient : bool
}.

(** Modelled from the spec: the failure reasons of section 4.3. *)
Inductive failure_reason := NETWORK | TIMEOUT | EMPTY_COMPLETION | PROVIDER_ERROR.

(** Modelled from the spec: GenerationResult of section 3. *)
Record GenerationResult := {
  answer_text : text;
  succeeded : bool;
  gen_failure : option failure_reason
}.

(** Modelled from the spec: ChatResponse of section 3. *)
Record ChatResponse := {
  answer : text;
  needs_human : bool;
  num_docs : nat;
  session_id : text
}.

(** Modelled from the spec: the error taxonomy of section 7. *)
Inductive pipeline_error :=
| InvalidInputError
| EncodingError
| IndexUnavailableError
| GenerationFailure (r : failure_reason).

(** Modelled from the spec: the result of a stage (Retriever, Answer
    Generator), which returns or raises (sections 4.1, 4.5). *)
Inductive stage (A : Type) :=
| Raised (e : pipeline_error)
| Returned (a : A).
Arguments Raised {A} e.
Arguments Returned {A} a.

(** Modelled from the spec: the reasons of a handoff (section 4.4), and
    [STAGE_FAULT] for the forced handoff of section 4.5. *)
Inductive handoff_reason :=
| LOW_CONFIDENCE | NO_DOCUMENTS | GENERATION_FAILURE | STAGE_FAULT.

(** Modelled from the spec: the states of the Handoff Decider (section
    4.4). *)
Inductive decider_state :=
| EVALUATING_RETRIEVAL
| GENERATING
| ANSWERED
| HANDOFF (reason : handoff_reason).

(** Modelled from the spec: the calls of the two external stages, logged so
    that the call count of section 8 can be stated. *)
Inductive call :=
| CallRetrieve (query : text) (k : nat)
| CallGenerate (query : text) (passages : list RetrievedPassage).

(** Modelled from the spec: the call count of the Answer Generator. *)
Definition is_generate (c : call) : bool :=
  match c with CallGenerate _ _ => true | CallRetrieve _ _ => false end.

Definition generator_calls (log : list call) : nat :=
  List.length (filter is_generate log).

(** Modelled from the spec: what one run of the Orchestrator leaves: the
    final state of the Decider, the response and the calls made. *)
Record run_result := {
  final : decider_state;
  reply : ChatResponse;
  calls : list call
}.

(** Modelled from the spec: the sum and the number of the scores, whose
    quotient is the arithmetic mean of section 4.2. *)
Definition sum_scores (ps : list RetrievedPassage) : Q :=
  fold_right (fun p acc => score p + acc) 0 ps.

Definition count_Q (ps : list RetrievedPassage) : Q :=
  inject_Z (Z.of_nat (List.length ps)).

Section WithComponents.

Variable confidence_threshold : Q.
Variable default_k : nat.
Variable contact_block : text.
Variable delimiter : text.
Variable apology : text.
Variable strip : text -> text.
Variable retrieve : text -> nat -> stage (list RetrievedPassage).
Variable generate : text -> list RetrievedPassage -> stage GenerationResult.

(** Modelled from the spec: the Confidence Gate's [assess] of section 4.2,
    whose code is not among the sources.  [mean_score] is the arithmetic
    mean of the scores and 0 for no passage; [sufficient] holds when there
    is a passage and the mean is at least the threshold. *)
Definition assess (passages : list RetrievedPassage) : ConfidenceAssessment :=
  let mean := match passages with
              | [] => 0
              | _ :: _ => sum_scores passages / count_Q passages
              end in
  {| mean_score := mean;
     max_score := fold_right (fun p acc => Qminmax.Qmax (score p) acc) 0 passages;
     passage_count := List.length passages;
     sufficient := (negb (Nat.eqb (List.length passages) 0)
                    && Qle_bool confidence_threshold mean)%bool |}.

(** Modelled from the spec: transition 1 and 2 of the Handoff Decider of
    section 4.4, whose code is not among the sources. *)
Definition after_retrieval (a : ConfidenceAssessment) : decider_state :=
  if sufficient a then GENERATING
  else HANDOFF (if Nat.eqb (passage_count a) 0 then NO_DOCUMENTS
                else LOW_CONFIDENCE).

(** Modelled from the spec: transitions 3 and 4 of the Handoff Decider. *)
Definition after_generation (g : GenerationResult) : decider_state :=
  if succeeded g then ANSWERED else HANDOFF GENERATION_FAILURE.

(** Modelled from the spec: on entering HANDOFF the contact block is
    appended to the partial answer, after a delimiter. *)
Definition handoff_answer (partial : text) : text :=
  (partial ++ delimiter ++ contact_block)%list.

(** Modelled from the spec: the response of section 4.5, with
    [needs_human] set when the final state is HANDOFF and [num_docs] the
    number of passages. *)
Definition respond (st : decider_state) (ans : text) (n : nat) (sid : text)
  (log : list call) : run_result :=
  {| final := st;
     reply := {| answer := ans;
                 needs_human := match st with HANDOFF _ => true | _ => false end;
                 num_docs := n;
                 session_id := sid |};
     calls := log |}.

(** Modelled from the spec: the Handoff Decider run from
    EVALUATING_RETRIEVAL on the retrieved passages (section 4.4); the
    Answer Generator is called in state GENERATING only.  A stage that
    raises forces a handoff with the apology (section 4.5). *)
Definition decide (query sid : text) (passages : list RetrievedPassage)
  (log : list call) : run_result :=
  let a := assess passages in
  match after_retrieval a with
  | GENERATING =>
      let log' := (log ++ [CallGenerate query passages])%list in
      match generate query passages with
      | Raised _ =>
          respond (HANDOFF STAGE_FAULT) (handoff_answer apology)
                  (passage_count a) sid log'
      | Returned g =>
          match after_generation g with
          | ANSWERED =>
              respond ANSWERED (answer_text g) (passage_count a) sid log'
          | st =>
              respond st (handoff_answer apology) (passage_count a) sid log'
          end
      end
  | st => respond st (handoff_answer []) (passage_count a) sid log
  end.

(** Modelled from the spec: the Orchestrator's [answer_query] of section
    4.5, whose code is not among the sources: the query is validated, then
    Retriever, Confidence Gate and Handoff Decider run; only the
    validation error leaves the function as an error. *)
Definition run_query (query sid : text) (k : nat)
  : pipeline_error + run_result :=
  match strip query with
  | [] => inl InvalidInputError
  | _ :: _ =>
      let log := [CallRetrieve query k] in
      match retrieve query k with
      | Raised _ =>
          inr (respond (HANDOFF STAGE_FAULT) (handoff_answer apology) 0 sid log)
      | Returned passages => inr (decide query sid passages log)
      end
  end.

(** Modelled from the spec: [answer_query] as its caller sees it. *)
Definition answer_query (query sid : text) (k : nat)
  : pipeline_error + ChatResponse :=
  match run_query query sid k with
  | inl e => inl e
  | inr r => inr (reply r)
  end.

(** Modelled from the spec: two outcomes of the Orchestrator, for the
    session ids [sid1] and [sid2], that differ in nothing but the session
    id they hand back (section 3: pass-through metadata, never interpreted
    or validated by the core). *)
Definition differ_in_session_id_only (sid1 sid2 : text)
  (x y : pipeline_error + run_result) : Prop :=
  match x, y with
  | inl e1, inl e2 => e1 = e2
  | inr r1, inr r2 =>
      final r1 = final r2 /\ calls r1 = calls r2
      /\ answer (reply r1) = answer (reply r2)
      /\ needs_human (reply r1) = needs_human (reply r2)
      /\ num_docs (reply r1) = num_docs (reply r2)
      /\ session_id (reply r1) = sid1 /\ session_id (reply r2) = sid2
  | _, _ => False
  end.

(** Modelled from the spec: [answer_query] with [k] left out, which is the
    configured default. *)
Definition answer_query_default (query sid : text)
  : pipeline_error + ChatResponse :=
  answer_query query sid default_k.

End WithComponents.

End Pipeline.

(* ================================================================= *)
(** ** Facts about strings and global replace *)

Module ReplaceFacts.

Definition mem (c : char) (s : jsstring) : bool := existsb (N.eqb c) s.

Lemma mem_false_In c s : mem c s = false -> ~ In c s.
Proof.
  unfold mem. intros E H.
  assert (existsb (N.eqb c) s = true) as T.
  { apply existsb_exists. exists c. split; [exact H | apply N.eqb_refl]. }
  congruence.
Qed.

Lemma In_mem_false c s : ~ In c s -> mem c s = false.
Proof.
  intros H. destruct (mem c s) eqn:E; [|reflexivity].
  apply existsb_exists in E. destruct E as [x [Hx Ex]].
  apply N.eqb_eq in Ex. subst x. contradiction.
Qed.

Lemma strip_prefix_spec p : forall s rest,
  strip_prefix p s = Some rest -> s = p ++ rest.
Proof.
  induction p as [|a p IH]; intros s rest H; simpl in *.
  - congruence.
  - destruct s as [|b s]; [discriminate|].
    destruct (N.eqb a b) eqn:E; [|discriminate].
    apply N.eqb_eq in E. subst b. f_equal. auto.
Qed.

Lemma strip_prefix_app p : forall rest, strip_prefix p (p ++ rest) = Some rest.
Proof.
  induction p as [|a p IH]; intros rest; simpl; [reflexivity|].
  rewrite N.eqb_refl. apply IH.
Qed.

Lemma strip_prefix_head k p c s :
  c <> k -> strip_prefix (k :: p) (c :: s) = None.
Proof.
  intros N. simpl. destruct (N.eqb k c) eqn:E; [|reflexivity].
  apply N.eqb_eq in E. congruence.
Qed.

Lemma span_spec f : forall s a b,
  span f s = (a, b) ->
  s = a ++ b /\ Forall (fun c => f c = true) a
  /\ match b with [] => True | c :: _ => f c = false end.
Proof.
  induction s as [|c s IH]; intros a b H; simpl in H.
  - inversion H; subst. repeat split; constructor.
  - destruct (f c) eqn:E.
    + destruct (span f s) as [a0 b0] eqn:Es. inversion H; subst.
      destruct (IH _ _ eq_refl) as [H1 [H2 H3]].
      repeat split; [simpl; congruence | constructor; assumption | assumption].
    + inversion H; subst. repeat split; [constructor | exact E].
Qed.

(** If [t ++ s0] and [x ++ c :: s] are the same text and [c] does not occur
    in [t], then [t] lies inside [x]. *)
Lemma app_before_char (c : char) : forall t s0 x s,
  t ++ s0 = x ++ c :: s -> ~ In c t ->
  exists x', x = t ++ x' /\ s0 = x' ++ c :: s.
Proof.
  induction t as [|a t IH]; intros s0 x s E N; simpl in *.
  - exists x. split; [reflexivity | exact E].
  - destruct x as [|b x]; simpl in E.
    + inversion E; subst. exfalso. apply N. left. reflexivity.
    + inversion E; subst.
      destruct (IH s0 x s H1) as [x' [Hx Hs]]; [tauto|].
      exists x'. subst x. split; [reflexivity | exact Hs].
Qed.

Section Replace.

Variable m : matcher.
Hypothesis m_shrinks :
  forall s r rest, m s = Some (r, rest) -> List.length rest < List.length s.

Lemma replace_from_enough : forall n k s,
  List.length s <= n -> List.length s <= k ->
  replace_from n m s = replace_from k m s.
Proof.
  induction n as [|n IH]; intros k s Hn Hk.
  - destruct s; simpl in *; [|lia]. destruct k; reflexivity.
  - destruct k as [|k].
    + destruct s; simpl in *; [reflexivity | lia].
    + simpl. destruct s as [|c s]; [reflexivity|].
      destruct (m (c :: s)) as [[r rest]|] eqn:E.
      * apply m_shrinks in E. simpl in *. f_equal. apply IH; lia.
      * f_equal. simpl in *. apply IH; lia.
Qed.

Lemma replace_all_nil : replace_all m [] = [].
Proof. reflexivity. Qed.

Lemma replace_all_match c s r rest :
  m (c :: s) = Some (r, rest) ->
  replace_all m (c :: s) = r ++ replace_all m rest.
Proof.
  intros E. unfold replace_all. simpl. rewrite E. f_equal.
  apply m_shrinks in E. simpl in E.
  apply replace_from_enough; lia.
Qed.

Lemma replace_all_skip c s :
  m (c :: s) = None -> replace_all m (c :: s) = c :: replace_all m s.
Proof.
  intros E. unfold replace_all. simpl. rewrite E. reflexivity.
Qed.

(** A matcher that can only succeed on text starting with [k] copies any
    text in which [k] does not occur. *)
Variable k : char.
Hypothesis m_trigger : forall c s, c <> k -> m (c :: s) = None.

Lemma replace_all_copy : forall t s,
  ~ In k t -> replace_all m (t ++ s) = t ++ replace_all m s.
Proof.
  induction t as [|a t IH]; intros s N; simpl; [reflexivity|].
  rewrite replace_all_skip.
  - f_equal. apply IH. intros H. apply N. right. exact H.
  - apply m_trigger. intros ->. apply N. left. reflexivity.
Qed.

End Replace.

Section Literal.

Variables (k : char) (p' r : jsstring).
Let p := k :: p'.

Lemma literal_shrinks s r0 rest :
  literal p r s = Some (r0, rest) -> List.length rest < List.length s.
Proof.
  unfold literal. destruct (strip_prefix p s) eqn:E; [|discriminate].
  intros H. inversion H; subst. apply strip_prefix_spec in E. subst s.
  rewrite length_app. unfold p. simpl. lia.
Qed.

Lemma literal_trigger c s : c <> k -> literal p r (c :: s) = None.
Proof.
  intros N. unfold literal, p. simpl.
  destruct (N.eqb k c) eqn:E; [|reflexivity].
  apply N.eqb_eq in E. congruence.
Qed.

Lemma literal_some s r0 rest :
  literal p r s = Some (r0, rest) -> r0 = r /\ s = p ++ rest.
Proof.
  unfold literal. destruct (strip_prefix p s) eqn:E; [|discriminate].
  intros H. inversion H; subst. split; [reflexivity|].
  apply strip_prefix_spec. exact E.
Qed.

(** A character that does not occur in the pattern separates the subject:
    no match extends across it. *)
Lemma literal_separator (c : char) : ~ In c p ->
  forall n a b, List.length a <= n ->
  replace_all (literal p r) (a ++ c :: b)
  = replace_all (literal p r) a ++ c :: replace_all (literal p r) b.
Proof.
  intros Nc. induction n as [|n IH]; intros a b Hn.
  - destruct a; simpl in Hn; [|lia]. simpl.
    rewrite replace_all_skip; [reflexivity|].
    apply literal_trigger. intros ->. apply Nc. left. reflexivity.
  - destruct a as [|x a].
    + simpl. rewrite replace_all_skip; [reflexivity|].
      apply literal_trigger. intros ->. apply Nc. left. reflexivity.
    + simpl in Hn. change ((x :: a) ++ c :: b) with (x :: (a ++ c :: b)).
      destruct (literal p r (x :: a ++ c :: b)) as [[r0 rest]|] eqn:E.
      * rewrite (replace_all_match _ literal_shrinks _ _ _ _ E).
        apply literal_some in E. destruct E as [-> E].
        change (x :: a ++ c :: b) with ((x :: a) ++ c :: b) in E.
        symmetry in E.
        destruct (app_before_char _ _ _ _ _ E Nc) as [a' [Ha Hrest]].
        subst rest.
        assert (literal p r (x :: a) = Some (r, a')) as E'.
        { unfold literal. rewrite Ha. rewrite strip_prefix_app. reflexivity. }
        rewrite (replace_all_match _ literal_shrinks _ _ _ _ E').
        rewrite IH.
        -- rewrite app_assoc. reflexivity.
        -- assert (List.length (x :: a) = List.length (p ++ a')) by congruence.
           rewrite length_app in H. unfold p in H. simpl in H. lia.
      * rewrite (replace_all_skip _ _ _ E).
        assert (literal p r (x :: a) = None) as E'.
        { unfold literal in *.
          destruct (strip_prefix p (x :: a)) eqn:F; [|reflexivity].
          apply strip_prefix_spec in F.
          change (x :: a ++ c :: b) with ((x :: a) ++ c :: b) in E.
          rewrite F in E.
          rewrite <- app_assoc in E. rewrite strip_prefix_app in E.
          discriminate. }
        rewrite (replace_all_skip _ _ _ E'). simpl. f_equal. apply IH. lia.
Qed.

(** Replacing keeps a character out of the text when it is neither in the
    text nor in the replacement. *)
Lemma literal_keeps_out (c : char) : ~ In c r ->
  forall n s, List.length s <= n -> ~ In c s ->
  ~ In c (replace_all (literal p r) s).
Proof.
  intros Nr. induction n as [|n IH]; intros s Hn Ns.
  - destruct s; simpl in Hn; [|lia]. simpl. tauto.
  - destruct s as [|x s]; [simpl; tauto|]. simpl in Hn.
    destruct (literal p r (x :: s)) as [[r0 rest]|] eqn:E.
    + rewrite (replace_all_match _ literal_shrinks _ _ _ _ E).
      pose proof (literal_shrinks _ _ _ E) as L. simpl in L.
      apply literal_some in E. destruct E as [-> E].
      intros H. apply in_app_or in H. destruct H as [H|H]; [tauto|].
      revert H. apply IH; [lia|].
      intros H. apply Ns. rewrite E. apply in_or_app. right. exact H.
    + rewrite (replace_all_skip _ _ _ E). intros [H|H].
      * apply Ns. left. exact H.
      * revert H. apply IH; [lia|]. intros H. apply Ns. right. exact H.
Qed.

Lemma literal_nonempty : r <> [] ->
  forall s, s <> [] -> replace_all (literal p r) s <> [].
Proof.
  intros Nr s Ns. destruct s as [|x s]; [congruence|].
  destruct (literal p r (x :: s)) as [[r0 rest]|] eqn:E.
  - rewrite (replace_all_match _ literal_shrinks _ _ _ _ E).
    apply literal_some in E. destruct E as [-> _].
    destruct r; [congruence | discriminate].
  - rewrite (replace_all_skip _ _ _ E). discriminate.
Qed.

End Literal.

End ReplaceFacts.
Import ReplaceFacts.

(* ================================================================= *)
(** ** Facts about sanitized text *)

Module SanitizeSafe.

(** The opening anchor that [anchor_re] writes is the one of the
    whitelist. *)
Lemma anchor_tag_open h : anchor_tag h = anchor_open h.
Proof. reflexivity. Qed.

Lemma anchor_open_app h s :
  anchor_open h ++ s = anchor_pre ++ h ++ dq :: anchor_attrs ++ s.
Proof.
  unfold anchor_open, anchor_pre. repeat rewrite <- app_assoc. reflexivity.
Qed.

Lemma anchor_open_longer h s :
  List.length s < List.length (anchor_open h ++ s).
Proof.
  rewrite anchor_open_app. unfold anchor_pre.
  rewrite !length_app. simpl. lia.
Qed.

Lemma plain_tag_head t : In t plain_tags -> exists t', t = lt :: t'.
Proof.
  intros H. simpl in H.
  repeat (destruct H as [H|H]; [subst t; eexists; reflexivity|]).
  contradiction.
Qed.

Lemma plain_tag_without c :
  forallb (fun t => negb (mem c t)) plain_tags = true ->
  forall t, In t plain_tags -> ~ In c t.
Proof.
  intros H t Ht. rewrite forallb_forall in H. specialize (H t Ht).
  apply mem_false_In. destruct (mem c t); [discriminate | reflexivity].
Qed.

Lemma Tokens_weaken s : Tokens false s -> Tokens true s.
Proof.
  intros H. remember false as anch eqn:Ea.
  induction H as [ anch | anch c s Hc Hs IH | anch t s Ht Hs IH
                 | h s Hh Hq Hhs IHh Hs IH ].
  - constructor.
  - constructor; auto.
  - apply Tok_tag; auto.
  - discriminate.
Qed.

Lemma Tokens_text_app anch a : Forall (fun c => c <> lt) a ->
  forall s, Tokens anch s -> Tokens anch (a ++ s).
Proof.
  induction 1; intros s Hs; simpl; [exact Hs|].
  constructor; auto.
Qed.

(** Text without [<] in front of a token sequence can be dropped. *)
Lemma Tokens_drop anch : forall p s,
  ~ In lt p -> Tokens anch (p ++ s) -> Tokens anch s.
Proof.
  induction p as [|c p IH]; intros s N H; simpl in *; [exact H|].
  inversion H as [ | a0 c0 s0 Hc Hs | a0 t s0 Ht Hs | h s0 Hh Hq Hhs Hs ]; subst.
  - apply IH; [tauto | exact Hs].
  - destruct (plain_tag_head _ Ht) as [t' ->].
    match goal with E : (lt :: t') ++ s0 = c :: p ++ s |- _ =>
      simpl in E; inversion E; subst; tauto end.
  - exfalso. apply N. left. reflexivity.
Qed.

(** In a text without anchors, the part before a double quote is a token
    sequence, and so is the part from the double quote on. *)
Lemma Tokens_split_at_quote : forall n x s,
  List.length x <= n -> ~ In dq x ->
  Tokens false (x ++ dq :: s) ->
  Tokens false x /\ Tokens false (dq :: s).
Proof.
  induction n as [|n IH]; intros x s Hn N H.
  - destruct x; simpl in Hn; [|lia]. split; [constructor | exact H].
  - destruct x as [|c x]; [split; [constructor | exact H]|].
    simpl in Hn, H.
    inversion H as [ | a0 c0 s0 Hc Hs | a0 t s0 Ht Hs | ]; subst.
    + destruct (IH x s) as [A B]; [lia | simpl in N; tauto | exact Hs |].
      split; [constructor; assumption | exact B].
    + assert (t ++ s0 = (c :: x) ++ dq :: s) as E by assumption.
      assert (~ In dq t) as Nt.
      { apply plain_tag_without; [reflexivity | exact Ht]. }
      destruct (app_before_char _ _ _ _ _ E Nt) as [x' [Hx Hs0]].
      subst s0. destruct (IH x' s) as [A B]; [| | exact Hs |].
      * destruct (plain_tag_head _ Ht) as [t' ->].
        assert (List.length (c :: x) = List.length ((lt :: t') ++ x')) as L
          by congruence.
        simpl in L. rewrite length_app in L. lia.
      * intros I. apply N. rewrite Hx. apply in_or_app. right. exact I.
      * split; [|exact B]. rewrite Hx. apply Tok_tag; assumption.
Qed.

Section LiteralStep.

Variables (k : char) (p' r : jsstring).
Local Abbreviation p := (k :: p').
Hypothesis p_lt : mem lt p = false.
Hypothesis p_dq : mem dq p = false.
Hypothesis k_out :
  forallb (fun t => negb (mem k t)) (anchor_pre :: anchor_attrs :: plain_tags)
  = true.
Hypothesis r_tag : In r plain_tags.

Local Abbreviation step := (replace_all (literal p r)).

Lemma k_not_in t :
  In t (anchor_pre :: anchor_attrs :: plain_tags) -> ~ In k t.
Proof.
  intros Ht. rewrite forallb_forall in k_out. specialize (k_out t Ht).
  apply mem_false_In. destruct (mem k t); [discriminate | reflexivity].
Qed.

Lemma step_copy t s :
  In t (anchor_pre :: anchor_attrs :: plain_tags) ->
  step (t ++ s) = t ++ step s.
Proof.
  intros Ht.
  apply (replace_all_copy _ k (literal_trigger k p' r)).
  apply k_not_in. exact Ht.
Qed.

Lemma step_quote h b : step (h ++ dq :: b) = step h ++ dq :: step b.
Proof.
  apply (literal_separator k p' r dq (mem_false_In _ _ p_dq) (List.length h)).
  apply le_n.
Qed.

Lemma step_anchor h s :
  step (anchor_open h ++ s) = anchor_open (step h) ++ step s.
Proof.
  rewrite !anchor_open_app.
  rewrite step_copy by (left; reflexivity).
  rewrite step_quote.
  rewrite step_copy by (right; left; reflexivity).
  reflexivity.
Qed.

(** A literal step keeps the token structure. *)
Lemma Tokens_literal : forall n anch s,
  List.length s <= n -> Tokens anch s -> Tokens anch (step s).
Proof.
  assert (~ In dq r) as Rq.
  { apply plain_tag_without; [reflexivity | exact r_tag]. }
  assert (r <> []) as Rn.
  { destruct (plain_tag_head _ r_tag) as [r' ->]. discriminate. }
  induction n as [|n IH]; intros anch s Hn H.
  - destruct s; simpl in Hn; [constructor | lia].
  - inversion H as [ | a0 c s0 Hc Hs | a0 t s0 Ht Hs | h s0 Hh Hq Hhs Hs ]; subst.
    + constructor.
    + simpl in Hn.
      destruct (literal p r (c :: s0)) as [[r0 rest]|] eqn:E.
      * rewrite (replace_all_match _ (literal_shrinks k p' r) _ _ _ _ E).
        pose proof (literal_shrinks _ _ _ _ _ _ E) as L. simpl in L.
        apply literal_some in E. destruct E as [-> E].
        apply Tok_tag; [exact r_tag|]. apply IH; [lia|].
        apply (Tokens_drop anch p); [apply mem_false_In; exact p_lt|].
        rewrite <- E. exact H.
      * rewrite (replace_all_skip _ _ _ E). constructor; [exact Hc|].
        apply IH; [lia | exact Hs].
    + rewrite step_copy by (right; right; exact Ht).
      apply Tok_tag; [exact Ht|]. apply IH; [|exact Hs].
      destruct (plain_tag_head _ Ht) as [t' ->].
      rewrite length_app in Hn. simpl in Hn. lia.
    + rewrite anchor_tag_open in *.
      pose proof (anchor_open_longer h s0) as L1.
      assert (List.length h < List.length (anchor_open h ++ s0)) as L2.
      { rewrite anchor_open_app, !length_app. simpl. lia. }
      rewrite step_anchor. rewrite <- anchor_tag_open. apply Tok_anchor.
      * apply literal_nonempty; assumption.
      * apply (literal_keeps_out k p' r dq Rq (List.length h) h (le_n _) Hq).
      * apply IH; [lia | exact Hhs].
      * apply IH; [lia | exact Hs].
Qed.

End LiteralStep.

(** *** The anchor step *)

Lemma anchor_re_some s r rest :
  anchor_re s = Some (r, rest) ->
  exists h, h <> [] /\ ~ In dq h /\ r = anchor_open h
            /\ s = (lit "&lt;a href=" ++ [dq]) ++ h ++ (dq :: lit "&gt;") ++ rest.
Proof.
  unfold anchor_re.
  destruct (strip_prefix (lit "&lt;a href=" ++ [dq]) s) as [s1|] eqn:E1;
    [|discriminate].
  destruct (span (fun c => negb (N.eqb c dq)) s1) as [h s2] eqn:E2.
  destruct h as [|c h]; [discriminate|].
  destruct (strip_prefix (dq :: lit "&gt;") s2) as [rest'|] eqn:E3;
    [|discriminate].
  intros H. inversion H; subst. exists (c :: h).
  apply strip_prefix_spec in E1, E3.
  apply span_spec in E2. destruct E2 as [E2 [F _]].
  split; [discriminate|]. split; [|split; [reflexivity|]].
  - intros I. rewrite Forall_forall in F. specialize (F dq I).
    rewrite N.eqb_refl in F. discriminate.
  - rewrite E1, E2, E3. reflexivity.
Qed.

Lemma anchor_re_shrinks s r rest :
  anchor_re s = Some (r, rest) -> List.length rest < List.length s.
Proof.
  intros H. apply anchor_re_some in H.
  destruct H as [h [_ [_ [_ ->]]]].
  rewrite !length_app. simpl. lia.
Qed.

Lemma anchor_re_trigger c s : c <> amp -> anchor_re (c :: s) = None.
Proof.
  intros N. unfold anchor_re.
  change (lit "&lt;a href=" ++ [dq]) with (amp :: (lit "lt;a href=" ++ [dq])).
  rewrite (strip_prefix_head _ _ _ _ N). reflexivity.
Qed.

(** The anchor step turns a text without anchors into a safe text. *)
Lemma Tokens_anchor : forall n s,
  List.length s <= n -> Tokens false s -> Tokens true (replace_all anchor_re s).
Proof.
  induction n as [|n IH]; intros s Hn H.
  - destruct s; simpl in Hn; [constructor | lia].
  - inversion H as [ | a0 c s0 Hc Hs | a0 t s0 Ht Hs | ]; subst.
    + constructor.
    + simpl in Hn.
      destruct (anchor_re (c :: s0)) as [[r rest]|] eqn:E.
      * rewrite (replace_all_match _ anchor_re_shrinks _ _ _ _ E).
        pose proof (anchor_re_shrinks _ _ _ E) as L. simpl in L.
        apply anchor_re_some in E.
        destruct E as [h [Hh [Hq [-> E]]]].
        rewrite E in H.
        apply Tokens_drop in H; [|apply mem_false_In; reflexivity].
        apply (Tokens_split_at_quote (List.length h)) in H;
          [| apply le_n | exact Hq].
        destruct H as [Hhs H].
        apply Tok_anchor; [exact Hh | exact Hq | exact Hhs |].
        apply IH; [lia|].
        apply (Tokens_drop false (dq :: lit "&gt;"));
          [apply mem_false_In; reflexivity | exact H].
      * rewrite (replace_all_skip _ _ _ E). constructor; [exact Hc|].
        apply IH; [lia | exact Hs].
    + rewrite (replace_all_copy _ amp anchor_re_trigger).
      * apply Tok_tag; [exact Ht|]. apply IH; [|exact Hs].
        destruct (plain_tag_head _ Ht) as [t' ->].
        rewrite length_app in Hn. simpl in Hn. lia.
      * apply plain_tag_without; [reflexivity | exact Ht].
Qed.

(** *** Escaped text *)

Lemma escape_char_no_lt c : Forall (fun x => x <> lt) (escape_char c).
Proof.
  unfold escape_char.
  destruct (N.eqb c amp); [repeat constructor; discriminate|].
  destruct (N.eqb c nbsp); [repeat constructor; discriminate|].
  destruct (N.eqb c lt) eqn:E; [repeat constructor; discriminate|].
  destruct (N.eqb c gt); [repeat constructor; discriminate|].
  constructor; [|constructor]. apply N.eqb_neq. exact E.
Qed.

Lemma Tokens_escapeText s : Tokens false (escapeText s).
Proof.
  induction s as [|c s IH]; simpl; [constructor|].
  apply Tokens_text_app; [apply escape_char_no_lt | exact IH].
Qed.

(** *** Every [<] of a safe text starts a whitelisted tag *)

Lemma split_at_lt (x y a b : jsstring) :
  x ++ y = a ++ lt :: b ->
  (exists l, x = a ++ lt :: l /\ b = l ++ y)
  \/ (exists l, a = x ++ l /\ y = l ++ lt :: b).
Proof.
  intros E. apply app_eq_app in E.
  destruct E as [l [[H1 H2]|[H1 H2]]].
  - destruct l as [|c l]; simpl in H2.
    + right. exists []. rewrite app_nil_r in H1. subst x.
      split; [rewrite app_nil_r; reflexivity | simpl; congruence].
    + inversion H2; subst. left. exists l. split; reflexivity.
  - right. exists l. split; assumption.
Qed.

Lemma lt_first (t' a l : jsstring) :
  ~ In lt t' -> lt :: t' = a ++ lt :: l -> a = [].
Proof.
  intros N E. destruct a as [|c a]; [reflexivity|].
  simpl in E. inversion E; subst. exfalso. apply N.
  apply in_or_app. right. left. reflexivity.
Qed.

Lemma plain_tag_one_lt t :
  In t plain_tags -> exists t', t = lt :: t' /\ ~ In lt t'.
Proof.
  intros H. simpl in H.
  repeat (destruct H as [H|H];
          [subst t; eexists; split;
           [reflexivity | apply mem_false_In; reflexivity]|]).
  contradiction.
Qed.

Lemma starts_tag_app x y : starts_tag x -> starts_tag (x ++ y).
Proof.
  intros [[t [rest [Ht E]]]|[h [rest [Hh [Hq E]]]]]; subst x.
  - left. exists t, (rest ++ y). split; [exact Ht|].
    rewrite app_assoc. reflexivity.
  - right. exists h, (rest ++ y). split; [exact Hh|]. split; [exact Hq|].
    rewrite app_assoc. reflexivity.
Qed.

Lemma Tokens_every_lt anch s :
  Tokens anch s -> forall a b, s = a ++ lt :: b -> starts_tag (lt :: b).
Proof.
  induction 1 as [ anch | anch c s Hc Hs IH | anch t s Ht Hs IH
                 | h s Hh Hq Hhs IHh Hs IH ]; intros a b E.
  - destruct a; discriminate.
  - destruct a as [|x a]; simpl in E; inversion E; subst.
    + congruence.
    + apply (IH a b). reflexivity.
  - destruct (split_at_lt _ _ _ _ E) as [[l [E1 E2]]|[l [E1 E2]]].
    + destruct (plain_tag_one_lt _ Ht) as [t' [Et Nt]].
      rewrite Et in E1. apply (lt_first _ _ _ Nt) in E1 as Ea.
      subst a. simpl in E1. inversion E1; subst l.
      left. exists t, s. split; [exact Ht|]. rewrite Et, E2. reflexivity.
    + apply (IH l b). exact E2.
  - rewrite anchor_open_app in E.
    destruct (split_at_lt _ _ _ _ E) as [[l [E1 E2]]|[l1 [E1 E2]]].
    + assert (a = []) as Ea.
      { apply (lt_first (lit "a href=" ++ [dq]) a l);
          [apply mem_false_In; reflexivity | exact E1]. }
      subst a. simpl in E1. inversion E1; subst l.
      right. exists h, s. split; [exact Hh|]. split; [exact Hq|].
      rewrite anchor_open_app. rewrite E2. reflexivity.
    + destruct (split_at_lt _ _ _ _ E2) as [[l [E3 E4]]|[l2 [E3 E4]]].
      * rewrite E4. apply (starts_tag_app (lt :: l)).
        apply (IHh l1 l). exact E3.
      * change (dq :: anchor_attrs ++ s) with ((dq :: anchor_attrs) ++ s) in E4.
        destruct (split_at_lt _ _ _ _ E4) as [[l [E5 E6]]|[l3 [E5 E6]]].
        -- exfalso.
           assert (~ In lt (dq :: anchor_attrs)) as N
             by (apply mem_false_In; reflexivity).
           apply N. rewrite E5. apply in_or_app. right. left. reflexivity.
        -- apply (IH l3 b). exact E6.
Qed.

(** The predicate is not void: a script tag is not safe text. *)
Lemma script_is_not_safe : ~ Safe (lit "<script>").
Proof.
  intros H.
  destruct (Tokens_every_lt _ _ H [] (lit "script>") eq_refl)
    as [[t [rest [Ht E]]]|[h [rest [_ [_ E]]]]].
  - simpl in Ht.
    repeat (destruct Ht as [Ht|Ht]; [subst t; discriminate E|]).
    contradiction.
  - discriminate E.
Qed.

Example sanitize_script :
  sanitizeHTML (lit "<script>alert(1)</script>")
  = lit "&lt;script&gt;alert(1)&lt;/script&gt;".
Proof. vm_compute. reflexivity. Qed.

Example sanitize_markup :
  sanitizeHTML (lit "<strong>a</strong><br><em>b</em><ul><li>c</li></ul><img>")
  = lit "<strong>a</strong><br><em>b</em><ul><li>c</li></ul>&lt;img&gt;".
Proof. vm_compute. reflexivity. Qed.

Example sanitize_anchor :
  sanitizeHTML (lit "<a href=" ++ [dq] ++ lit "https://chinfield.com" ++ [dq]
                ++ lit ">x</a>")
  = anchor_open (lit "https://chinfield.com") ++ lit "x</a>".
Proof. vm_compute. reflexivity. Qed.

Example sanitize_newline_and_amp :
  sanitizeHTML (lit "a" ++ [nl] ++ lit "b & c" ++ [nbsp])
  = lit "a<br>b &amp; c&nbsp;".
Proof. vm_compute. reflexivity. Qed.

Ltac literal_step :=
  lazymatch goal with
  | |- Tokens ?a (replace_all (literal ?p ?r) ?s) =>
      let q := eval cbv in p in
      lazymatch q with
      | ?k :: ?p' =>
          change p with (k :: p');
          apply (Tokens_literal k p' r eq_refl eq_refl eq_refl)
            with (n := List.length s);
          [ simpl; repeat (first [left; reflexivity | right])
          | apply le_n | ]
      end
  end.

End SanitizeSafe.

(* ================================================================= *)
(** ** sanitizeHTML, replace by replace

    After each of its twelve replaces, the text that [sanitizeHTML] holds
    is the input with the tags enabled so far copied and everything else
    escaped.  A [whitelist] says what is enabled. *)

Module SanitizeStages.

Record whitelist := {
  w_nl : bool;               (* line feeds have become line breaks *)
  w_tags : list jsstring;    (* the plain tags enabled *)
  w_anchor : bool            (* opening anchors are enabled *)
}.

Definition esc (W : whitelist) (c : char) : jsstring :=
  if (w_nl W && N.eqb c nl)%bool then lit "<br>" else escape_char c.

Definition begins (W : whitelist) (s : jsstring) : Prop :=
  (exists t rest, In t (w_tags W) /\ s = t ++ rest)
  \/ (w_anchor W = true
      /\ exists h rest, h <> [] /\ ~ In dq h /\ s = anchor_source h ++ rest).

Inductive Stage (W : whitelist) : jsstring -> jsstring -> Prop :=
| St_nil : Stage W [] []
| St_tag t s o :
    In t (w_tags W) -> Stage W s o -> Stage W (t ++ s) (t ++ o)
| St_anchor h s h' o :
    w_anchor W = true -> h <> [] -> ~ In dq h ->
    Stage W h h' -> Stage W s o ->
    Stage W (anchor_source h ++ s) (anchor_tag h' ++ o)
| St_char c s o :
    ~ begins W (c :: s) -> Stage W s o -> Stage W (c :: s) (esc W c ++ o).

(** A character that the serialization of a text node leaves alone and
    that is no line feed. *)
Definition ordinary (c : char) : bool :=
  negb (N.eqb c amp || N.eqb c nbsp || N.eqb c lt || N.eqb c gt
        || N.eqb c nl)%bool.

Lemma esc_cases W c :
  (c = amp /\ esc W c = lit "&amp;")
  \/ (c = nbsp /\ esc W c = lit "&nbsp;")
  \/ (c = lt /\ esc W c = lit "&lt;")
  \/ (c = gt /\ esc W c = lit "&gt;")
  \/ (c = nl /\ esc W c = if w_nl W then lit "<br>" else [nl])
  \/ (ordinary c = true /\ esc W c = [c]).
Proof.
  unfold esc, escape_char, ordinary.
  destruct (N.eqb_spec c amp) as [->|Na];
    [left; split; [reflexivity | destruct (w_nl W); reflexivity]|].
  destruct (N.eqb_spec c nbsp) as [->|Nb];
    [right; left; split; [reflexivity | destruct (w_nl W); reflexivity]|].
  destruct (N.eqb_spec c lt) as [->|Nl];
    [do 2 right; left; split; [reflexivity | destruct (w_nl W); reflexivity]|].
  destruct (N.eqb_spec c gt) as [->|Ng];
    [do 3 right; left; split; [reflexivity | destruct (w_nl W); reflexivity]|].
  destruct (N.eqb_spec c nl) as [->|Nn].
  - do 4 right. left. split; [reflexivity | destruct (w_nl W); reflexivity].
  - do 5 right. split; [reflexivity|]. rewrite andb_false_r. reflexivity.
Qed.

Lemma esc_ordinary W c : ordinary c = true -> esc W c = [c].
Proof.
  intros H.
  destruct (esc_cases W c)
    as [[-> _]|[[-> _]|[[-> _]|[[-> _]|[[-> _]|[_ E]]]]]];
    try discriminate H.
  exact E.
Qed.

(** The first character of [esc W c]: [c] itself when [c] is ordinary,
    else [&] or [<], or a line feed not yet replaced. *)
Lemma esc_head W c :
  exists x r, esc W c = x :: r
    /\ ((ordinary c = true /\ x = c /\ r = []) \/ x = amp \/ x = lt
        \/ (x = nl /\ c = nl /\ r = [])).
Proof.
  destruct (esc_cases W c)
    as [[-> E]|[[-> E]|[[-> E]|[[-> E]|[[-> E]|[O E]]]]]]; rewrite E.
  - eexists _, _. split; [reflexivity|]. right. left. reflexivity.
  - eexists _, _. split; [reflexivity|]. right. left. reflexivity.
  - eexists _, _. split; [reflexivity|]. right. left. reflexivity.
  - eexists _, _. split; [reflexivity|]. right. left. reflexivity.
  - destruct (w_nl W); eexists _, _; (split; [reflexivity|]).
    + right. right. left. reflexivity.
    + right. right. right. repeat split; reflexivity.
  - eexists _, _. split; [reflexivity|]. left. repeat split. exact O.
Qed.

Lemma esc_without_dq W c : c <> dq -> ~ In dq (esc W c).
Proof.
  intros N.
  destruct (esc_cases W c)
    as [[-> E]|[[-> E]|[[-> E]|[[-> E]|[[-> E]|[O E]]]]]]; rewrite E;
    try (apply mem_false_In; reflexivity).
  - destruct (w_nl W); apply mem_false_In; reflexivity.
  - intros [H|[]]. congruence.
Qed.

Lemma esc_gt W : esc W gt = lit "&gt;".
Proof. unfold esc. destruct (w_nl W); reflexivity. Qed.

Lemma esc_lt W : esc W lt = lit "&lt;".
Proof. unfold esc. destruct (w_nl W); reflexivity. Qed.

Lemma esc_dq W : esc W dq = [dq].
Proof. apply esc_ordinary. reflexivity. Qed.

Lemma esc_nonempty W c : esc W c <> [].
Proof.
  destruct (esc_head W c) as [x [r [E _]]]. rewrite E. discriminate.
Qed.

Lemma anchor_source_app h s :
  anchor_source h ++ s = lt :: lit "a href=" ++ dq :: h ++ dq :: gt :: s.
Proof.
  unfold anchor_source. repeat rewrite <- app_assoc. reflexivity.
Qed.

Lemma anchor_tag_app h s :
  anchor_tag h ++ s = lt :: lit "a href=" ++ dq :: h ++ dq :: anchor_attrs ++ s.
Proof.
  unfold anchor_tag, anchor_attrs. repeat rewrite <- app_assoc. reflexivity.
Qed.

Section Inversions.

Variable W : whitelist.
Hypothesis W_tags : incl (w_tags W) plain_tags.

Lemma tag_head t : In t (w_tags W) -> exists t', t = lt :: t'.
Proof.
  intros H. apply SanitizeSafe.plain_tag_head. apply W_tags. exact H.
Qed.

Lemma tag_without c :
  forallb (fun t => negb (mem c t)) plain_tags = true ->
  forall t, In t (w_tags W) -> ~ In c t.
Proof.
  intros H t Ht. apply (SanitizeSafe.plain_tag_without c H). apply W_tags.
  exact Ht.
Qed.

Lemma begins_head c s : begins W (c :: s) -> c = lt.
Proof.
  intros [[t [rest [Ht E]]]|[_ [h [rest [_ [_ E]]]]]].
  - destruct (tag_head _ Ht) as [t' ->]. simpl in E. congruence.
  - rewrite anchor_source_app in E. congruence.
Qed.

Lemma begins_app x y : begins W x -> begins W (x ++ y).
Proof.
  intros [[t [rest [Ht E]]]|[A [h [rest [Hh [Hq E]]]]]]; subst x.
  - left. exists t, (rest ++ y). split; [exact Ht|].
    rewrite app_assoc. reflexivity.
  - right. split; [exact A|]. exists h, (rest ++ y).
    split; [exact Hh|]. split; [exact Hq|]. rewrite app_assoc. reflexivity.
Qed.

Ltac invert_stage H :=
  inversion H; subst;
  try (match goal with
       | E : anchor_source _ ++ _ = _ |- _ => rewrite anchor_source_app in E
       | E : _ = anchor_source _ ++ _ |- _ => rewrite anchor_source_app in E
       | E : anchor_tag _ ++ _ = _ |- _ => rewrite anchor_tag_app in E
       | E : _ = anchor_tag _ ++ _ |- _ => rewrite anchor_tag_app in E
       end).

Lemma Stage_nil_l o : Stage W [] o -> o = [].
Proof.
  intros H. invert_stage H; try reflexivity; try discriminate.
  match goal with
  | Ht : In ?t (w_tags W), E : ?t ++ _ = [] |- _ =>
      destruct (tag_head _ Ht) as [t' ->]; discriminate E
  end.
Qed.

Lemma Stage_nil_r s : Stage W s [] -> s = [].
Proof.
  intros H. invert_stage H; try reflexivity; try discriminate.
  - match goal with
    | Ht : In ?t (w_tags W), E : ?t ++ _ = [] |- _ =>
        destruct (tag_head _ Ht) as [t' ->]; discriminate E
    end.
  - exfalso. apply (esc_nonempty W c).
    match goal with
    | E : esc W c ++ _ = [] |- _ =>
        destruct (esc W c); [reflexivity | discriminate E]
    end.
Qed.

(** A character other than [<] at the head of the input is escaped. *)
Lemma Stage_head c s o :
  c <> lt -> Stage W (c :: s) o ->
  exists o', o = esc W c ++ o' /\ Stage W s o' /\ ~ begins W (c :: s).
Proof.
  intros N H. invert_stage H; try (exfalso; apply N; reflexivity).
  - match goal with
    | Ht : In ?t (w_tags W), E : ?t ++ _ = _ |- _ =>
        destruct (tag_head _ Ht) as [t' ->]; simpl in E; congruence
    end.
  - eexists. repeat split; eassumption.
Qed.

(** A character other than [<] at the head of the output comes from a
    character of the input. *)
Lemma Stage_head_out s x o :
  x <> lt -> Stage W s (x :: o) ->
  exists c s' o', s = c :: s' /\ esc W c ++ o' = x :: o /\ Stage W s' o'
                  /\ ~ begins W (c :: s').
Proof.
  intros N H. invert_stage H; try (exfalso; apply N; reflexivity).
  - match goal with
    | Ht : In ?t (w_tags W), E : ?t ++ _ = _ |- _ =>
        destruct (tag_head _ Ht) as [t' ->]; simpl in E; congruence
    end.
  - eexists _, _, _. repeat split; eassumption.
Qed.

Lemma Stage_ordinary_fwd : forall a,
  forallb ordinary a = true ->
  forall s o, Stage W (a ++ s) o -> exists o', o = a ++ o' /\ Stage W s o'.
Proof.
  induction a as [|c a IH]; intros Ha s o H.
  - exists o. split; [reflexivity | exact H].
  - simpl in Ha. apply andb_prop in Ha. destruct Ha as [Hc Ha].
    simpl in H. apply Stage_head in H.
    + destruct H as [o1 [-> [H _]]]. destruct (IH Ha _ _ H) as [o' [-> H']].
      exists o'. rewrite (esc_ordinary W c Hc). split; [reflexivity | exact H'].
    + intros ->. discriminate Hc.
Qed.

Lemma Stage_ordinary_bwd : forall a,
  forallb ordinary a = true ->
  forall s o, Stage W s (a ++ o) -> exists s', s = a ++ s' /\ Stage W s' o.
Proof.
  induction a as [|x a IH]; intros Ha s o H.
  - exists s. split; [reflexivity | exact H].
  - simpl in Ha. apply andb_prop in Ha. destruct Ha as [Hx Ha].
    simpl in H. apply Stage_head_out in H; [|intros ->; discriminate Hx].
    destruct H as [c [s1 [o1 [-> [E [H _]]]]]].
    destruct (esc_head W c) as [y [r [Ec K]]]. rewrite Ec in E.
    simpl in E. injection E as -> E.
    destruct K as [[Oc [-> ->]]|[->|[->|[-> _]]]]; try discriminate Hx.
    simpl in E. subst o1.
    destruct (IH Ha _ _ H) as [s' [-> H']].
    exists s'. split; [reflexivity | exact H'].
Qed.

Lemma Stage_gt_fwd s o :
  Stage W (gt :: s) o -> exists o', o = lit "&gt;" ++ o' /\ Stage W s o'.
Proof.
  intros H. apply Stage_head in H; [|discriminate].
  destruct H as [o' [-> [H _]]]. exists o'. rewrite esc_gt.
  split; [reflexivity | exact H].
Qed.

Lemma Stage_gt_bwd s o :
  Stage W s (lit "&gt;" ++ o) -> exists s', s = gt :: s' /\ Stage W s' o.
Proof.
  intros H. change (lit "&gt;" ++ o) with (amp :: lit "gt;" ++ o) in H.
  apply Stage_head_out in H; [|discriminate].
  destruct H as [c [s1 [o1 [-> [E [H _]]]]]].
  destruct (esc_cases W c)
    as [[-> Ec]|[[-> Ec]|[[-> Ec]|[[-> Ec]|[[-> Ec]|[O Ec]]]]]];
    rewrite Ec in E; try discriminate E.
  - injection E as ->. exists s1. split; [reflexivity | exact H].
  - destruct (w_nl W); discriminate E.
  - injection E as -> _. discriminate O.
Qed.

End Inversions.

(** *** What a replace does to escaped characters

    The patterns of [sanitizeHTML] other than the line feed begin with
    [&lt;]: such a pattern matches nowhere inside the reference of another
    character. *)
Section Scan.

Variable m : matcher.
Hypothesis m_trigger : forall c s, c <> amp -> m (c :: s) = None.
Hypothesis m_second : forall x s, x <> 108%N -> m (amp :: x :: s) = None.

Lemma scan_copy t o :
  mem amp t = false -> replace_all m (t ++ o) = t ++ replace_all m o.
Proof.
  intros H. apply (replace_all_copy m amp m_trigger).
  apply mem_false_In. exact H.
Qed.

Lemma scan_esc W c o :
  c <> lt -> replace_all m (esc W c ++ o) = esc W c ++ replace_all m o.
Proof.
  intros N.
  destruct (esc_cases W c)
    as [[-> E]|[[-> E]|[[-> E]|[[-> E]|[[-> E]|[O E]]]]]]; rewrite E.
  - change (lit "&amp;" ++ o) with (amp :: 97%N :: lit "mp;" ++ o).
    rewrite replace_all_skip by (apply m_second; discriminate).
    change (97%N :: lit "mp;" ++ o) with (lit "amp;" ++ o).
    rewrite scan_copy by reflexivity. reflexivity.
  - change (lit "&nbsp;" ++ o) with (amp :: 110%N :: lit "bsp;" ++ o).
    rewrite replace_all_skip by (apply m_second; discriminate).
    change (110%N :: lit "bsp;" ++ o) with (lit "nbsp;" ++ o).
    rewrite scan_copy by reflexivity. reflexivity.
  - exfalso. apply N. reflexivity.
  - change (lit "&gt;" ++ o) with (amp :: 103%N :: lit "t;" ++ o).
    rewrite replace_all_skip by (apply m_second; discriminate).
    change (103%N :: lit "t;" ++ o) with (lit "gt;" ++ o).
    rewrite scan_copy by reflexivity. reflexivity.
  - destruct (w_nl W); apply scan_copy; reflexivity.
  - apply scan_copy. apply In_mem_false. intros [X|[]]. subst c.
    discriminate O.
Qed.

Lemma scan_lt o :
  m (lit "&lt;" ++ o) = None ->
  replace_all m (lit "&lt;" ++ o) = lit "&lt;" ++ replace_all m o.
Proof.
  intros E. change (lit "&lt;" ++ o) with (amp :: lit "lt;" ++ o) in *.
  rewrite replace_all_skip by exact E.
  rewrite scan_copy by reflexivity. reflexivity.
Qed.

End Scan.

Lemma strip_prefix_second a k2 p x s :
  x <> k2 -> strip_prefix (a :: k2 :: p) (a :: x :: s) = None.
Proof.
  intros N.
  change (strip_prefix (a :: k2 :: p) (a :: x :: s))
    with (if N.eqb a a then strip_prefix (k2 :: p) (x :: s) else None).
  rewrite N.eqb_refl. apply strip_prefix_head. exact N.
Qed.

Lemma literal_second k2 p r x s :
  x <> k2 -> literal (amp :: k2 :: p) r (amp :: x :: s) = None.
Proof.
  intros N. unfold literal. rewrite strip_prefix_second by exact N.
  reflexivity.
Qed.

Lemma anchor_re_second x s : x <> 108%N -> anchor_re (amp :: x :: s) = None.
Proof.
  intros N. unfold anchor_re.
  change (lit "&lt;a href=" ++ [dq])
    with (amp :: 108%N :: (lit "t;a href=" ++ [dq])).
  rewrite strip_prefix_second by exact N. reflexivity.
Qed.

Lemma mem_app c a b : mem c (a ++ b) = (mem c a || mem c b)%bool.
Proof. unfold mem. apply existsb_app. Qed.

(** *** A replace that enables a plain tag *)
Section TagStep.

Variable W : whitelist.
Variable name : jsstring.
Hypothesis W_tags : incl (w_tags W) plain_tags.
Hypothesis name_ordinary : forallb ordinary name = true.
Hypothesis name_dq : mem dq name = false.
Hypothesis tag_ok : In (lt :: name ++ [gt]) plain_tags.

Local Abbreviation tag := (lt :: name ++ [gt]).
Local Abbreviation pat' := (lit "lt;" ++ name ++ lit "&gt;").
Local Abbreviation step := (replace_all (literal (amp :: pat') tag)).

Definition with_tag : whitelist :=
  {| w_nl := w_nl W; w_tags := tag :: w_tags W; w_anchor := w_anchor W |}.

Lemma with_tag_tags : incl (w_tags with_tag) plain_tags.
Proof.
  intros t [<-|H]; [exact tag_ok | apply W_tags; exact H].
Qed.

Lemma pat_dq : mem dq (amp :: pat') = false.
Proof.
  change (amp :: pat') with (lit "&lt;" ++ name ++ lit "&gt;").
  rewrite !mem_app, name_dq. reflexivity.
Qed.

Lemma amp_out :
  forallb (fun t => negb (mem amp t))
    (anchor_pre :: anchor_attrs :: plain_tags) = true.
Proof. reflexivity. Qed.

Lemma step_lt_match o :
  step (lit "&lt;" ++ name ++ lit "&gt;" ++ o) = tag ++ step o.
Proof.
  change (lit "&lt;" ++ name ++ lit "&gt;" ++ o)
    with (amp :: (lit "lt;" ++ name ++ lit "&gt;" ++ o)).
  apply (replace_all_match _ (literal_shrinks amp pat' tag)).
  unfold literal.
  replace (amp :: lit "lt;" ++ name ++ lit "&gt;" ++ o)
    with ((amp :: pat') ++ o).
  - rewrite strip_prefix_app. reflexivity.
  - simpl. rewrite <- !app_assoc. reflexivity.
Qed.

Lemma begins_new s : begins with_tag s -> begins W s \/ exists rest, s = tag ++ rest.
Proof.
  intros [[t [rest [[<-|Ht] E]]]|[A B]].
  - right. exists rest. exact E.
  - left. left. exists t, rest. split; assumption.
  - left. right. split; assumption.
Qed.

Lemma Stage_tag_step : forall n s o,
  List.length s <= n -> Stage W s o -> Stage with_tag s (step o).
Proof.
  induction n as [|n IH]; intros s o Hn H.
  - destruct s; simpl in Hn; [|lia].
    rewrite (Stage_nil_l W W_tags _ H). constructor.
  - inversion H as [ | t s0 o0 Ht Hs | h s0 h' o0 A Hh Hq Hhs Hs
                   | c s0 o0 Hb Hs ]; subst.
    + constructor.
    + rewrite (scan_copy _ (literal_trigger amp pat' tag)).
      * apply St_tag; [right; exact Ht|]. apply IH; [|exact Hs].
        destruct (tag_head W W_tags _ Ht) as [t' ->].
        rewrite length_app in Hn. simpl in Hn. lia.
      * apply In_mem_false. apply (tag_without W W_tags amp eq_refl _ Ht).
    + rewrite SanitizeSafe.anchor_tag_open.
      rewrite (SanitizeSafe.step_anchor amp pat' tag pat_dq amp_out).
      rewrite <- SanitizeSafe.anchor_tag_open.
      rewrite anchor_source_app in Hn. simpl in Hn.
      rewrite !length_app in Hn. simpl in Hn.
      apply St_anchor; [exact A | exact Hh | exact Hq | |].
      * apply IH; [lia | exact Hhs].
      * apply IH; [lia | exact Hs].
    + simpl in Hn. destruct (N.eqb_spec c lt) as [->|Nc].
      * rewrite esc_lt.
        destruct (strip_prefix (name ++ [gt]) s0) as [s2|] eqn:Es.
        -- apply strip_prefix_spec in Es. subst s0.
           rewrite <- app_assoc in Hs.
           destruct (Stage_ordinary_fwd W W_tags name name_ordinary _ _ Hs)
             as [o1 [-> H1]].
           destruct (Stage_gt_fwd W W_tags _ _ H1) as [o2 [-> H2]].
           rewrite step_lt_match.
           change (lt :: (name ++ [gt]) ++ s2) with (tag ++ s2).
           apply St_tag; [left; reflexivity|]. apply IH; [|exact H2].
           rewrite !length_app in Hn. simpl in Hn. lia.
        -- assert (literal (amp :: pat') tag (lit "&lt;" ++ o0) = None) as E.
           { destruct (literal (amp :: pat') tag (lit "&lt;" ++ o0))
               as [[r0 rest]|] eqn:E; [|reflexivity].
             exfalso. apply literal_some in E. destruct E as [_ E].
             assert (o0 = name ++ lit "&gt;" ++ rest) as Eo.
             { simpl in E. rewrite <- app_assoc in E.
               injection E as E. exact E. }
             subst o0.
             destruct (Stage_ordinary_bwd W W_tags name name_ordinary _ _ Hs)
               as [s1 [-> H1]].
             destruct (Stage_gt_bwd W W_tags _ _ H1) as [s2 [-> H2]].
             replace (name ++ gt :: s2) with ((name ++ [gt]) ++ s2) in Es
               by (rewrite <- app_assoc; reflexivity).
             rewrite strip_prefix_app in Es. discriminate Es. }
           rewrite (scan_lt _ (literal_trigger amp pat' tag) _ E).
           rewrite <- (esc_lt with_tag).
           apply St_char; [|apply IH; [lia | exact Hs]].
           intros B. apply begins_new in B. destruct B as [B|[rest B]].
           ++ exact (Hb B).
           ++ simpl in B. injection B as B. subst s0.
              rewrite strip_prefix_app in Es. discriminate Es.
      * rewrite (scan_esc _ (literal_trigger amp pat' tag)
                   (literal_second 108%N _ tag)) by exact Nc.
        change (esc W c) with (esc with_tag c).
        apply St_char; [|apply IH; [lia | exact Hs]].
        intros B. apply (begins_head with_tag with_tag_tags) in B.
        contradiction.
Qed.

End TagStep.

(** *** The replace that enables opening anchors *)

Lemma span_until_dq : forall h r,
  ~ In dq h ->
  span (fun c => negb (N.eqb c dq)) (h ++ dq :: r) = (h, dq :: r).
Proof.
  induction h as [|c h IH]; intros r N; simpl.
  - reflexivity.
  - destruct (N.eqb_spec c dq) as [->|Nc]; simpl.
    + exfalso. apply N. left. reflexivity.
    + rewrite IH; [reflexivity|]. intros I. apply N. right. exact I.
Qed.

Lemma anchor_re_match h rest :
  h <> [] -> ~ In dq h ->
  anchor_re ((lit "&lt;a href=" ++ [dq]) ++ h ++ (dq :: lit "&gt;") ++ rest)
  = Some (anchor_open h, rest).
Proof.
  intros Hh Hq. unfold anchor_re. rewrite strip_prefix_app.
  change (h ++ (dq :: lit "&gt;") ++ rest)
    with (h ++ dq :: (lit "&gt;" ++ rest)).
  rewrite (span_until_dq h _ Hq).
  destruct h as [|c h]; [congruence|].
  change (dq :: lit "&gt;" ++ rest) with ((dq :: lit "&gt;") ++ rest).
  rewrite strip_prefix_app. reflexivity.
Qed.

Lemma split_unique : forall a a' b b',
  ~ In dq a -> ~ In dq a' -> a ++ dq :: b = a' ++ dq :: b' ->
  a = a' /\ b = b'.
Proof.
  induction a as [|x a IH]; intros a' b b' N N' E; destruct a' as [|y a'];
    simpl in E.
  - injection E as E. split; [reflexivity | exact E].
  - injection E as E1 E2. exfalso. apply N'. left. symmetry. exact E1.
  - injection E as E1 E2. exfalso. apply N. left. exact E1.
  - injection E as E1 E2. subst y.
    destruct (IH a' b b') as [-> ->]; [| |exact E2|].
    + intros I. apply N. right. exact I.
    + intros I. apply N'. right. exact I.
    + split; reflexivity.
Qed.

Section AnchorStep.

Variable W : whitelist.
Hypothesis W_tags : incl (w_tags W) plain_tags.
Hypothesis W_anchor : w_anchor W = false.

Definition with_anchor : whitelist :=
  {| w_nl := w_nl W; w_tags := w_tags W; w_anchor := true |}.

Lemma with_anchor_tags : incl (w_tags with_anchor) plain_tags.
Proof. exact W_tags. Qed.

Lemma tag_without_dq t : In t (w_tags W) -> ~ In dq t.
Proof. apply (tag_without W W_tags dq eq_refl). Qed.

(** The text up to the first double quote is treated on its own. *)
Lemma Stage_split_fwd s o :
  Stage W s o ->
  forall h z, s = h ++ dq :: z -> ~ In dq h ->
  exists h' z', o = h' ++ dq :: z' /\ Stage W h h' /\ Stage W z z'.
Proof.
  induction 1 as [ | t s o Ht Hs IH | h0 s h0' o A | c s o Hb Hs IH ];
    intros h z E N.
  - destruct h; discriminate E.
  - destruct (app_before_char dq t s h z E (tag_without_dq t Ht))
      as [x [-> ->]].
    destruct (IH x z eq_refl) as [h' [z' [-> [H1 H2]]]].
    + intros I. apply N. apply in_or_app. right. exact I.
    + exists (t ++ h'), z'. rewrite <- app_assoc.
      split; [reflexivity|]. split; [apply St_tag; assumption | exact H2].
  - congruence.
  - destruct h as [|x h]; simpl in E; injection E as -> ->.
    + exists [], o. rewrite esc_dq. split; [reflexivity|].
      split; [constructor | exact Hs].
    + destruct (IH h z eq_refl) as [h' [z' [-> [H1 H2]]]].
      * intros I. apply N. right. exact I.
      * exists (esc W x ++ h'), z'. rewrite <- app_assoc.
        split; [reflexivity|]. split; [|exact H2].
        apply St_char; [|exact H1].
        intros B. apply Hb.
        apply (begins_app W (x :: h) (dq :: z) B).
Qed.

Lemma Stage_split_bwd s o :
  Stage W s o ->
  forall h' z', o = h' ++ dq :: z' -> ~ In dq h' ->
  exists h z, s = h ++ dq :: z /\ ~ In dq h /\ Stage W h h' /\ Stage W z z'.
Proof.
  induction 1 as [ | t s o Ht Hs IH | h0 s h0' o A | c s o Hb Hs IH ];
    intros h' z' E N.
  - destruct h'; discriminate E.
  - destruct (app_before_char dq t o h' z' E (tag_without_dq t Ht))
      as [x [-> ->]].
    destruct (IH x z' eq_refl) as [h [z [-> [Nh [H1 H2]]]]].
    + intros I. apply N. apply in_or_app. right. exact I.
    + exists (t ++ h), z. rewrite <- app_assoc.
      split; [reflexivity|]. split; [|split; [apply St_tag; assumption | exact H2]].
      intros I. apply in_app_or in I. destruct I as [I|I];
        [exact (tag_without_dq t Ht I) | exact (Nh I)].
  - congruence.
  - destruct (N.eqb_spec c dq) as [->|Nc].
    + rewrite esc_dq in E. destruct h' as [|x h']; simpl in E.
      * injection E as ->. exists [], s.
        split; [reflexivity|]. split; [intros []|].
        split; [constructor | exact Hs].
      * injection E as E1 E2. exfalso. apply N. left. symmetry. exact E1.
    + destruct (app_before_char dq (esc W c) o h' z' E (esc_without_dq W c Nc))
        as [x [-> ->]].
      destruct (IH x z' eq_refl) as [h [z [-> [Nh [H1 H2]]]]].
      * intros I. apply N. apply in_or_app. right. exact I.
      * exists (c :: h), z. split; [reflexivity|].
        split; [intros [I|I]; [congruence | exact (Nh I)]|].
        split; [|exact H2].
        apply St_char; [|exact H1].
        intros B. apply Hb. apply (begins_app W (c :: h) (dq :: z) B).
Qed.

Lemma Stage_without_dq s o : Stage W s o -> ~ In dq s -> ~ In dq o.
Proof.
  induction 1 as [ | t s o Ht Hs IH | h0 s h0' o A | c s o Hb Hs IH ];
    intros N I.
  - exact I.
  - apply in_app_or in I. destruct I as [I|I].
    + exact (tag_without_dq t Ht I).
    + apply IH; [|exact I]. intros J. apply N. apply in_or_app. right. exact J.
  - congruence.
  - apply in_app_or in I. destruct I as [I|I].
    + apply (esc_without_dq W c); [|exact I]. intros ->. apply N. left.
      reflexivity.
    + apply IH; [|exact I]. intros J. apply N. right. exact J.
Qed.

(** A text without double quote holds no opening anchor. *)
Lemma Stage_lift s o : Stage W s o -> ~ In dq s -> Stage with_anchor s o.
Proof.
  induction 1 as [ | t s o Ht Hs IH | h0 s h0' o A | c s o Hb Hs IH ];
    intros N.
  - constructor.
  - apply St_tag; [exact Ht|]. apply IH. intros I. apply N.
    apply in_or_app. right. exact I.
  - congruence.
  - change (esc W c) with (esc with_anchor c). apply St_char.
    + intros [[t [rest [Ht E]]]|[_ [h [rest [_ [_ E]]]]]].
      * apply Hb. left. exists t, rest. split; assumption.
      * apply N. rewrite E, anchor_source_app. right.
        apply in_or_app. right. left. reflexivity.
    + apply IH. intros I. apply N. right. exact I.
Qed.

Lemma Stage_anchor_step : forall n s o,
  List.length s <= n -> Stage W s o ->
  Stage with_anchor s (replace_all anchor_re o).
Proof.
  induction n as [|n IH]; intros s o Hn H.
  - destruct s; simpl in Hn; [|lia].
    rewrite (Stage_nil_l W W_tags _ H). constructor.
  - inversion H as [ | t s0 o0 Ht Hs | h s0 h' o0 A Hh Hq Hhs Hs
                   | c s0 o0 Hb Hs ]; subst.
    + constructor.
    + rewrite (scan_copy _ SanitizeSafe.anchor_re_trigger).
      * apply St_tag; [exact Ht|]. apply IH; [|exact Hs].
        destruct (tag_head W W_tags _ Ht) as [t' ->].
        rewrite length_app in Hn. simpl in Hn. lia.
      * apply In_mem_false. apply (tag_without W W_tags amp eq_refl _ Ht).
    + congruence.
    + simpl in Hn. destruct (N.eqb_spec c lt) as [->|Nc].
      * rewrite esc_lt.
        destruct (anchor_re (lit "&lt;" ++ o0)) as [[r rest]|] eqn:E.
        -- change (lit "&lt;" ++ o0) with (amp :: lit "lt;" ++ o0) in *.
           rewrite (replace_all_match _ SanitizeSafe.anchor_re_shrinks _ _ _ _ E).
           apply SanitizeSafe.anchor_re_some in E.
           destruct E as [h1 [Hh1 [Hq1 [-> E]]]].
           assert (o0 = (lit "a href=" ++ [dq])
                        ++ h1 ++ dq :: lit "&gt;" ++ rest) as Eo.
           { simpl in E. injection E as E. exact E. }
           subst o0.
           destruct (Stage_ordinary_bwd W W_tags (lit "a href=" ++ [dq])
                       eq_refl _ _ Hs) as [s1 [-> H1]].
           destruct (Stage_split_bwd _ _ H1 h1 (lit "&gt;" ++ rest) eq_refl Hq1)
             as [h [z [-> [Nh [H2 H3]]]]].
           destruct (Stage_gt_bwd W W_tags _ _ H3) as [s2 [-> H4]].
           replace (lt :: (lit "a href=" ++ [dq]) ++ h ++ dq :: gt :: s2)
             with (anchor_source h ++ s2)
             by (rewrite anchor_source_app; reflexivity).
           rewrite <- SanitizeSafe.anchor_tag_open.
           apply St_anchor; [reflexivity | | exact Nh | |].
           ++ intros ->. apply Hh1. apply (Stage_nil_l W W_tags _ H2).
           ++ apply Stage_lift; assumption.
           ++ apply IH; [|exact H4].
              repeat (rewrite ?length_app in Hn; simpl in Hn). lia.
        -- rewrite (scan_lt _ SanitizeSafe.anchor_re_trigger _ E).
           rewrite <- (esc_lt with_anchor).
           apply St_char; [|apply IH; [lia | exact Hs]].
           intros [[t [rest [Ht B]]]|[_ [h [rest [Hh [Hq B]]]]]].
           ++ apply Hb. left. exists t, rest. split; assumption.
           ++ rewrite anchor_source_app in B. injection B as B. subst s0.
              change (lit "a href=" ++ dq :: h ++ dq :: gt :: rest)
                with ((lit "a href=" ++ [dq]) ++ h ++ dq :: gt :: rest) in Hs.
              destruct (Stage_ordinary_fwd W W_tags (lit "a href=" ++ [dq])
                          eq_refl _ _ Hs) as [o1 [-> H1]].
              destruct (Stage_split_fwd _ _ H1 h (gt :: rest) eq_refl Hq)
                as [h1 [z1 [-> [H2 H3]]]].
              destruct (Stage_gt_fwd W W_tags _ _ H3) as [z2 [-> H4]].
              assert (h1 <> []) as Hh1.
              { intros ->. apply Hh. apply (Stage_nil_r W W_tags _ H2). }
              pose proof (Stage_without_dq _ _ H2 Hq) as Hq1.
              pose proof (anchor_re_match h1 z2 Hh1 Hq1) as M.
              change ((lit "&lt;a href=" ++ [dq])
                      ++ h1 ++ (dq :: lit "&gt;") ++ z2)
                with (lit "&lt;"
                      ++ (lit "a href=" ++ [dq]) ++ h1 ++ dq :: lit "&gt;" ++ z2)
                in M.
              congruence.
      * rewrite (scan_esc _ SanitizeSafe.anchor_re_trigger anchor_re_second)
          by exact Nc.
        change (esc W c) with (esc with_anchor c).
        apply St_char; [|apply IH; [lia | exact Hs]].
        intros B. apply (begins_head with_anchor with_anchor_tags) in B.
        contradiction.
Qed.

End AnchorStep.

(** *** The serialization and the replace of the line feeds *)

Definition W0 : whitelist :=
  {| w_nl := false; w_tags := []; w_anchor := false |}.

Definition W1 : whitelist :=
  {| w_nl := true; w_tags := []; w_anchor := false |}.

Lemma Stage_escapeText s : Stage W0 s (escapeText s).
Proof.
  induction s as [|c s IH]; [constructor|].
  change (escapeText (c :: s)) with (esc W0 c ++ escapeText s).
  apply St_char; [|exact IH].
  intros [[t [rest [[] _]]]|[A _]]. discriminate A.
Qed.

Lemma Stage_nl_step s o :
  Stage W0 s o -> Stage W1 s (replace_all (literal [nl] (lit "<br>")) o).
Proof.
  induction 1 as [ | t s o Ht Hs IH | h0 s h0' o A | c s o Hb Hs IH ].
  - constructor.
  - destruct Ht.
  - discriminate A.
  - assert (~ begins W1 (c :: s)) as Hb1.
    { intros [[t [rest [[] _]]]|[A _]]. discriminate A. }
    destruct (N.eqb_spec c nl) as [->|Nc].
    + change (esc W0 nl ++ o) with (nl :: o).
      rewrite (replace_all_match _ (literal_shrinks nl [] (lit "<br>"))
                 nl o (lit "<br>") o eq_refl).
      change (lit "<br>") with (esc W1 nl) at 1.
      apply St_char; assumption.
    + assert (esc W1 c = esc W0 c) as E.
      { unfold esc. simpl.
        destruct (N.eqb_spec c nl); [contradiction | reflexivity]. }
      rewrite (replace_all_copy _ nl (literal_trigger nl [] (lit "<br>"))).
      * rewrite <- E. apply St_char; assumption.
      * destruct (esc_cases W0 c)
          as [[-> X]|[[-> X]|[[-> X]|[[-> X]|[[-> X]|[O X]]]]]]; rewrite X;
          try (apply mem_false_In; reflexivity).
        -- exfalso. apply Nc. reflexivity.
        -- intros [I|[]]. congruence.
Qed.

(** *** The twelve replaces in turn *)

Definition W2 := with_tag W1 (lit "br").
Definition W3 := with_tag W2 (lit "strong").
Definition W4 := with_tag W3 (lit "/strong").
Definition W5 := with_tag W4 (lit "em").
Definition W6 := with_tag W5 (lit "/em").
Definition W7 := with_anchor W6.
Definition W8 := with_tag W7 (lit "/a").
Definition W9 := with_tag W8 (lit "ul").
Definition W10 := with_tag W9 (lit "/ul").
Definition W11 := with_tag W10 (lit "li").
Definition W12 := with_tag W11 (lit "/li").

Ltac in_list := simpl; repeat (first [left; reflexivity | right]).

Lemma W12_tags : incl (w_tags W12) plain_tags.
Proof.
  intros t H. simpl in H.
  repeat (destruct H as [H|H]; [subst t; in_list|]). contradiction.
Qed.

Lemma tags_W12 : incl plain_tags (w_tags W12).
Proof.
  intros t H. simpl in H.
  repeat (destruct H as [H|H]; [subst t; in_list|]). contradiction.
Qed.

Lemma earlier_tags W name :
  incl (w_tags (with_tag W name)) plain_tags -> incl (w_tags W) plain_tags.
Proof. intros H t Ht. apply H. right. exact Ht. Qed.

Ltac tag_step :=
  lazymatch goal with
  | |- incl (w_tags (with_tag ?W ?name)) plain_tags ->
       Stage (with_tag ?W ?name) ?s (replace_all _ ?o) =>
      let K := fresh "K" in
      intros K;
      refine (Stage_tag_step W name (earlier_tags W name K) eq_refl eq_refl _
                (List.length s) s _ (le_n _) _);
      [ in_list | generalize (earlier_tags W name K); clear K ]
  end.

Lemma sanitizeHTML_stage html : Stage W12 html (sanitizeHTML html).
Proof.
  unfold sanitizeHTML. cbv zeta. generalize W12_tags.
  unfold W12. tag_step. unfold W11. tag_step. unfold W10. tag_step.
  unfold W9. tag_step. unfold W8. tag_step.
  intros K.
  refine (Stage_anchor_step W6 K eq_refl (List.length html) html _ (le_n _) _).
  change (incl (w_tags W6) plain_tags) in K. revert K.
  unfold W6. tag_step. unfold W5. tag_step. unfold W4. tag_step.
  unfold W3. tag_step. unfold W2. tag_step.
  intros _. apply Stage_nl_step. apply Stage_escapeText.
Qed.

(** *** Stage twelve is the whitelist *)

Lemma esc_escaped c : esc W12 c = escaped c.
Proof.
  unfold escaped.
  destruct (esc_cases W12 c)
    as [[-> E]|[[-> E]|[[-> E]|[[-> E]|[[-> E]|[O E]]]]]]; rewrite E;
    try reflexivity.
  unfold ordinary in O.
  destruct (N.eqb c nl); [rewrite !orb_true_r in O; discriminate O|].
  destruct (N.eqb c lt); [rewrite ?orb_true_r in O; discriminate O|].
  destruct (N.eqb c gt); [rewrite ?orb_true_r in O; discriminate O|].
  destruct (N.eqb c amp); [discriminate O|].
  destruct (N.eqb c nbsp); [discriminate O|].
  reflexivity.
Qed.

Lemma begins_tag_W12 s : begins_tag s -> begins W12 s.
Proof.
  intros [[t [rest [Ht E]]]|B].
  - left. exists t, rest. split; [apply tags_W12; exact Ht | exact E].
  - right. split; [reflexivity | exact B].
Qed.

Lemma Stage_Sanitized s o : Stage W12 s o -> Sanitized s o.
Proof.
  induction 1 as [ | t s o Ht Hs IH | h s h' o A Hh Hq Hhs IHh Hs IH
                 | c s o Hb Hs IH ].
  - constructor.
  - apply San_tag; [apply W12_tags; exact Ht | exact IH].
  - apply San_anchor; assumption.
  - rewrite esc_escaped. apply San_char; [|exact IH].
    intros B. apply Hb. apply begins_tag_W12. exact B.
Qed.

(** *** The output is determined by the input *)

Definition tag_at (s : jsstring) : option (jsstring * jsstring) :=
  fold_right
    (fun t found => match strip_prefix t s with
                    | Some rest => Some (t, rest)
                    | None => found
                    end)
    None plain_tags.

Lemma tag_at_tag t s : In t plain_tags -> tag_at (t ++ s) = Some (t, s).
Proof.
  intros H. simpl in H.
  repeat (destruct H as [H|H]; [subst t; reflexivity|]). contradiction.
Qed.

Lemma tag_at_anchor h s : tag_at (anchor_source h ++ s) = None.
Proof. rewrite anchor_source_app. reflexivity. Qed.

Lemma tag_at_nil : tag_at [] = None.
Proof. reflexivity. Qed.

Lemma Sanitized_cases s o :
  Sanitized s o ->
  (s = [] /\ o = [])
  \/ (exists t s0 o0, In t plain_tags /\ Sanitized s0 o0
                      /\ s = t ++ s0 /\ o = t ++ o0)
  \/ (exists h s0 h' o0, h <> [] /\ ~ In dq h /\ Sanitized h h'
                         /\ Sanitized s0 o0
                         /\ s = anchor_source h ++ s0
                         /\ o = anchor_tag h' ++ o0)
  \/ (exists c s0 o0, ~ begins_tag (c :: s0) /\ Sanitized s0 o0
                      /\ s = c :: s0 /\ o = escaped c ++ o0).
Proof.
  intros H. destruct H as [ | t s o Ht Hs | h s h' o Hh Hq Hhs Hs
                          | c s o Hb Hs ].
  - left. split; reflexivity.
  - right. left. exists t, s, o. repeat split; assumption.
  - right. right. left. exists h, s, h', o. repeat split; assumption.
  - right. right. right. exists c, s, o. repeat split; assumption.
Qed.

Lemma Sanitized_unique : forall n s o1 o2,
  List.length s <= n -> Sanitized s o1 -> Sanitized s o2 -> o1 = o2.
Proof.
  induction n as [|n IH]; intros s o1 o2 Hn H1 H2.
  - destruct s; simpl in Hn; [|lia].
    apply Sanitized_cases in H1, H2.
    destruct H1 as [[_ ->]|[[t [s0 [o0 [Ht [_ [E _]]]]]]
                   |[[h [s0 [h' [o0 [_ [_ [_ [_ [E _]]]]]]]]]
                    |[c [s0 [o0 [_ [_ [E _]]]]]]]]].
    2: { destruct (SanitizeSafe.plain_tag_head _ Ht) as [t' ->].
         discriminate E. }
    2: { rewrite anchor_source_app in E. discriminate E. }
    2: discriminate E.
    destruct H2 as [[_ ->]|[[t [s0 [o0 [Ht [_ [E _]]]]]]
                   |[[h [s0 [h' [o0 [_ [_ [_ [_ [E _]]]]]]]]]
                    |[c [s0 [o0 [_ [_ [E _]]]]]]]]].
    + reflexivity.
    + destruct (SanitizeSafe.plain_tag_head _ Ht) as [t' ->]. discriminate E.
    + rewrite anchor_source_app in E. discriminate E.
    + discriminate E.
  - apply Sanitized_cases in H1, H2.
    destruct H1 as [[-> ->]|[[t [s0 [o0 [Ht [Hs [E ->]]]]]]
                   |[[h [s0 [h' [o0 [Hh [Hq [Hhs [Hs [E ->]]]]]]]]]
                    |[c [s0 [o0 [Hb [Hs [E ->]]]]]]]]].
    + destruct H2 as [[_ ->]|[[t [s0 [o0 [Ht [_ [E _]]]]]]
                     |[[h [s0 [h' [o0 [_ [_ [_ [_ [E _]]]]]]]]]
                      |[c [s0 [o0 [_ [_ [E _]]]]]]]]].
      * reflexivity.
      * destruct (SanitizeSafe.plain_tag_head _ Ht) as [t' ->]. discriminate E.
      * rewrite anchor_source_app in E. discriminate E.
      * discriminate E.
    + subst s.
      destruct H2 as [[E _]|[[t2 [s2 [o2' [Ht2 [Hs2 [E ->]]]]]]
                     |[[h [s2 [h' [o2' [_ [_ [_ [_ [E _]]]]]]]]]
                      |[c [s2 [o2' [Hb [_ [E _]]]]]]]]].
      * destruct (SanitizeSafe.plain_tag_head _ Ht) as [t' ->]. discriminate E.
      * pose proof (tag_at_tag t s0 Ht) as A1.
        rewrite E, (tag_at_tag t2 s2 Ht2) in A1. injection A1 as -> ->.
        f_equal. apply (IH s0); [|assumption|assumption].
        destruct (SanitizeSafe.plain_tag_head _ Ht) as [t' ->].
        rewrite length_app in Hn. simpl in Hn. lia.
      * pose proof (tag_at_tag t s0 Ht) as A1.
        rewrite E, tag_at_anchor in A1. discriminate A1.
      * exfalso. apply Hb. rewrite <- E. left. exists t, s0.
        split; [exact Ht | reflexivity].
    + subst s.
      destruct H2 as [[E _]|[[t2 [s2 [o2' [Ht2 [Hs2 [E ->]]]]]]
                     |[[h2 [s2 [h2' [o2' [Hh2 [Hq2 [Hhs2 [Hs2 [E ->]]]]]]]]]
                      |[c [s2 [o2' [Hb [_ [E _]]]]]]]]].
      * rewrite anchor_source_app in E. discriminate E.
      * pose proof (tag_at_tag t2 s2 Ht2) as A1.
        rewrite <- E, tag_at_anchor in A1. discriminate A1.
      * rewrite !anchor_source_app in E. injection E as E.
        destruct (split_unique h h2 (gt :: s0) (gt :: s2) Hq Hq2 E)
          as [-> E2].
        injection E2 as ->.
        rewrite anchor_source_app in Hn. simpl in Hn.
        repeat (rewrite ?length_app in Hn; simpl in Hn).
        rewrite (IH h2 h' h2'); [|lia|assumption|assumption].
        f_equal. apply (IH s2); [lia|assumption|assumption].
      * exfalso. apply Hb. rewrite <- E. right. exists h, s0.
        repeat split; assumption.
    + subst s.
      destruct H2 as [[E _]|[[t2 [s2 [o2' [Ht2 [Hs2 [E ->]]]]]]
                     |[[h2 [s2 [h2' [o2' [Hh2 [Hq2 [Hhs2 [Hs2 [E ->]]]]]]]]]
                      |[c2 [s2 [o2' [Hb2 [Hs2 [E ->]]]]]]]]].
      * discriminate E.
      * exfalso. apply Hb. rewrite E. left. exists t2, s2.
        split; [exact Ht2 | reflexivity].
      * exfalso. apply Hb. rewrite E. right. exists h2, s2.
        repeat split; assumption.
      * injection E as -> ->. f_equal. simpl in Hn.
        apply (IH s2); [lia|assumption|assumption].
Qed.

End SanitizeStages.

(* ================================================================= *)
(** ** Facts about the responsive widget *)

Module WidgetFacts.

Import Widget.

(** [same w w']: the session id, the request log, the suspended calls and
    the waiting flag are those of [w]. *)
Definition same (w w' : World) : Prop :=
  sessionId (st w') = sessionId (st w)
  /\ requests w' = requests w
  /\ pending w' = pending w
  /\ isWaitingResponse (st w') = isWaitingResponse (st w).

Ltac same_tac := unfold same; simpl; repeat split; reflexivity.

Lemma same_refl w : same w w.
Proof. repeat split. Qed.

Lemma same_trans {w1 w2 w3} : same w1 w2 -> same w2 w3 -> same w1 w3.
Proof.
  unfold same. intros [A [B [C D]]] [A' [B' [C' D']]].
  repeat split; congruence.
Qed.

Lemma addMessage_same text sender l e w : same w (fst (addMessage text sender l e w)).
Proof.
  unfold addMessage. destruct (chatMessages (dom w)); simpl; same_tac.
Qed.

Lemma removeMessage_same i w : same w (removeMessage i w).
Proof.
  unfold removeMessage.
  destruct i; [destruct (chatMessages (dom w))|]; same_tac.
Qed.

Lemma clear_input_same w : same w (clear_input w).
Proof. unfold clear_input. destruct (chatInput (dom w)); same_tac. Qed.

Lemma set_input_same v w : same w (set_input v w).
Proof. unfold set_input. destruct (chatInput (dom w)); same_tac. Qed.

Lemma openChat_same w : same w (openChat w).
Proof.
  unfold openChat. destruct (chatOpen (st w)); [same_tac|].
  destruct (chatWidget (dom w)); same_tac.
Qed.

Lemma closeChat_same w : same w (closeChat w).
Proof.
  unfold closeChat. destruct (chatOpen (st w)); [|same_tac].
  destruct (chatWidget (dom w)); same_tac.
Qed.

Lemma toggleChat_same w : same w (toggleChat w).
Proof.
  unfold toggleChat. destruct (chatOpen (st w));
    [apply closeChat_same | apply openChat_same].
Qed.

Lemma onResize_same z w : same w (onResize z w).
Proof. same_tac. Qed.

Lemma onDOMContentLoaded_same w : same w (onDOMContentLoaded w).
Proof.
  unfold onDOMContentLoaded, addWelcomeMessage.
  destruct (verifyDOMElements w); [|same_tac].
  destruct (chatMessages (dom w)) as [[|m ms]|]; same_tac.
Qed.

(** What ends a call: everything but the waiting flag is kept, and the
    flag is reset. *)
Definition ended (w w' : World) : Prop :=
  sessionId (st w') = sessionId (st w)
  /\ requests w' = requests w
  /\ pending w' = pending w
  /\ isWaitingResponse (st w') = false.

Lemma finally_ended w0 w : same w0 w -> ended w0 (finally w).
Proof.
  unfold same, ended. intros [A [B [C D]]]. simpl. repeat split; assumption.
Qed.

Lemma catch_finally_ended i e w : ended w (catch_finally i e w).
Proof.
  unfold catch_finally.
  pose proof (addMessage_same fallback_text bot false e (removeMessage i w)) as H.
  destruct (addMessage fallback_text bot false e (removeMessage i w)) as [w2 o].
  apply finally_ended.
  apply (same_trans (removeMessage_same i w)). exact H.
Qed.

Lemma on_data_ended i data e w : ended w (on_data i data e w).
Proof.
  unfold on_data. destruct data as [|d].
  - pose proof (catch_finally_ended i e (removeMessage i w)) as [A [B [C D]]].
    pose proof (removeMessage_same i w) as [A' [B' [C' D']]].
    unfold ended. repeat split; congruence.
  - pose proof (addMessage_same (text_of (answer d)) bot false e
                  (removeMessage i w)) as H.
    destruct (addMessage (text_of (answer d)) bot false e (removeMessage i w))
      as [w2 o].
    apply finally_ended.
    apply (same_trans (removeMessage_same i w)).
    destruct (needs_human d); exact H.
Qed.

(** A resumed call either suspends again, changing nothing, or ends. *)
Lemma resume_cases c o e w w' c' :
  resume c o e w = Some (w', c') ->
  (c' <> None /\ w' = w) \/ (c' = None /\ ended w w').
Proof.
  unfold resume. destruct c as [i|i]; destruct o as [ | ok status | | data];
    try discriminate; intros H.
  - inversion H; subst. right. split; [reflexivity|]. apply catch_finally_ended.
  - destruct ok; inversion H; subst.
    + left. split; [discriminate | reflexivity].
    + right. split; [reflexivity|]. apply catch_finally_ended.
  - inversion H; subst. right. split; [reflexivity|]. apply catch_finally_ended.
  - inversion H; subst. right. split; [reflexivity|]. apply on_data_ended.
Qed.

Section WithConfig.

Variable API_URL : jsstring.

(** The synchronous part of [sendMessage] either returns at the guard,
    leaving the world as it is, or issues exactly one request. *)
Lemma sendMessage_start_cases e1 e2 w :
  let w' := sendMessage_start API_URL e1 e2 w in
  ((falsy (read_message w) = true \/ isWaitingResponse (st w) = true)
   /\ w' = w)
  \/ (exists v i,
        chatInput (dom w) = Some v /\ trim v <> []
        /\ isWaitingResponse (st w) = false
        /\ sessionId (st w') = sessionId (st w)
        /\ isWaitingResponse (st w') = true
        /\ requests w'
           = requests w
             ++ [ {| url := API_URL ++ lit "/api/chat";
                     method := lit "POST";
                     content_type := lit "application/json";
                     body := [ (lit "message", trim v);
                               (lit "session_id", sessionId (st w)) ] |} ]
        /\ pending w' = pending w ++ [AwaitFetch i]).
Proof.
  unfold sendMessage_start, read_message.
  destruct (chatInput (dom w)) as [v|] eqn:Ev; simpl.
  2:{ left. split; [left; reflexivity | reflexivity]. }
  destruct (trim v) as [|c m] eqn:Et; simpl.
  { left. split; [left; reflexivity | reflexivity]. }
  destruct (isWaitingResponse (st w)) eqn:Ew; simpl.
  { left. split; [right; reflexivity | reflexivity]. }
  right.
  pose proof (clear_input_same w) as S1.
  pose proof (addMessage_same (c :: m) user false e1 (clear_input w)) as S2.
  destruct (addMessage (c :: m) user false e1 (clear_input w)) as [w2 o2].
  pose proof (addMessage_same (lit "Pensando...") bot true e2 w2) as S3.
  destruct (addMessage (lit "Pensando...") bot true e2 w2) as [w3 i].
  simpl in S2, S3.
  destruct (same_trans S1 (same_trans S2 S3)) as [A [B [C D]]].
  exists v, i. simpl. unfold chat_request. simpl.
  rewrite Et, A, B, C.
  repeat split; try reflexivity; discriminate.
Qed.

(** The invariant of the widget: the session id is [sid], every request
    sent carries it, and a call is suspended only while the waiting flag
    is set, one at most. *)
Definition carries (sid : jsstring) (r : request) : Prop :=
  exists m, m <> [] /\ body r = [ (lit "message", m); (lit "session_id", sid) ].

Definition Inv (sid : jsstring) (w : World) : Prop :=
  sessionId (st w) = sid
  /\ Forall (carries sid) (requests w)
  /\ (pending w = []
      \/ (exists c, pending w = [c]) /\ isWaitingResponse (st w) = true).

Lemma Inv_same {sid w w'} : same w w' -> Inv sid w -> Inv sid w'.
Proof.
  unfold same, Inv. intros [A [B [C D]]] [I1 [I2 I3]].
  rewrite A, B, C, D. auto.
Qed.

Lemma Inv_sendMessage_start sid e1 e2 w :
  Inv sid w -> Inv sid (sendMessage_start API_URL e1 e2 w).
Proof.
  intros I. destruct (sendMessage_start_cases e1 e2 w) as [[_ E]|H].
  - rewrite E. exact I.
  - destruct H as [v [i [Ev [Et [Ew [A [B [C D]]]]]]]].
    destruct I as [I1 [I2 I3]]. unfold Inv.
    rewrite A, B, C, D. split; [exact I1|]. split.
    + apply Forall_app. split; [exact I2|]. constructor; [|constructor].
      exists (trim v). simpl. rewrite I1. split; [exact Et | reflexivity].
    + destruct I3 as [P|[_ W]]; [|congruence].
      rewrite P. right. split; [eexists; reflexivity | reflexivity].
Qed.

Lemma Inv_settle sid k o e w : Inv sid w -> Inv sid (settle k o e w).
Proof.
  intros I. unfold settle.
  destruct (nth_error (pending w) k) as [c|] eqn:En; [|exact I].
  destruct I as [I1 [I2 I3]].
  destruct I3 as [P|[[c0 P] W]].
  { rewrite P in En. destruct k; discriminate. }
  rewrite P in *. destruct k as [|k]; [|destruct k; discriminate].
  simpl in En. inversion En; subst c0.
  match goal with |- context [resume c o e ?w0] => set (w0' := w0) end.
  destruct (resume c o e w0') as [[w1 c']|] eqn:Er.
  2:{ unfold Inv. rewrite P. split; [exact I1|]. split; [exact I2|].
      right. split; [eexists; reflexivity | exact W]. }
  destruct (resume_cases _ _ _ _ _ _ Er) as [[Hc ->]|[-> [A [B [C D]]]]].
  - destruct c' as [c'|]; [|congruence]. unfold Inv. simpl.
    split; [exact I1|]. split; [exact I2|].
    right. split; [eexists; reflexivity | exact W].
  - unfold Inv. rewrite A, B, C. simpl. rewrite I1. auto.
Qed.

Lemma Inv_step sid w ev : Inv sid w -> Inv sid (step API_URL w ev).
Proof.
  intros I. destruct ev; simpl.
  - apply (Inv_same (onDOMContentLoaded_same w) I).
  - apply Inv_sendMessage_start. exact I.
  - destruct (enter && negb shift)%bool; [|exact I].
    apply Inv_sendMessage_start. exact I.
  - apply Inv_settle. exact I.
  - apply (Inv_same (set_input_same v w) I).
  - apply (Inv_same (toggleChat_same w) I).
  - apply (Inv_same (openChat_same w) I).
  - apply (Inv_same (closeChat_same w) I).
  - apply (Inv_same (onResize_same innerWidth w) I).
  - unfold api_sendMessage. destruct (chatInput (dom w)) eqn:E; [|exact I].
    apply Inv_sendMessage_start. apply (Inv_same (set_input_same msg w) I).
  - apply (Inv_same (openChat_same w) I).
  - unfold api_sendMessage. destruct (chatInput (dom w)) eqn:E; [|exact I].
    apply Inv_sendMessage_start.
    apply (Inv_same (set_input_same _ w) I).
Qed.

Lemma Inv_run sid evs : forall w, Inv sid w -> Inv sid (run API_URL w evs).
Proof.
  induction evs as [|ev evs IH]; intros w I; simpl; [exact I|].
  apply IH. apply Inv_step. exact I.
Qed.

Lemma Inv_initial now random36 innerWidth d :
  Inv (generateSessionId now random36)
      (initial_world now random36 innerWidth d).
Proof.
  unfold Inv. simpl. split; [reflexivity|]. split; [constructor|].
  left. reflexivity.
Qed.

End WithConfig.

End WidgetFacts.

Module WidgetPaths.

Import Widget WidgetFacts.

(** [contains needle hay]: [needle] occurs in [hay]. *)
Fixpoint contains (needle hay : jsstring) : bool :=
  match strip_prefix needle hay with
  | Some _ => true
  | None => match hay with
            | [] => false
            | _ :: hay' => contains needle hay'
            end
  end.

Definition id_of (e : entropy) : msgid := (now e, random e).

(** The element [addMessage] builds for a message that is not a loading
    indicator. *)
Definition shown (e : entropy) (sender : Sender) (text : jsstring) : message :=
  {| m_id := Some (id_of e); m_sender := sender; m_loading := false;
     m_welcome := false; m_content := InnerHTML (sanitizeHTML text) |}.

Definition loading (e : entropy) : message :=
  {| m_id := Some (id_of e); m_sender := bot; m_loading := true;
     m_welcome := false; m_content := TextContent (lit "Pensando...") |}.

Definition removed (i : option msgid) (ms : list message) : list message :=
  match i with
  | Some j => remove_first j ms
  | None => ms
  end.

Definition fresh (i : msgid) (ms : list message) : Prop :=
  Forall (fun m => has_id i m = false) ms.

Lemma msgid_eqb_refl i : msgid_eqb i i = true.
Proof. unfold msgid_eqb. rewrite !N.eqb_refl. reflexivity. Qed.

Lemma remove_first_fresh i ms m post :
  fresh i ms -> has_id i m = true ->
  remove_first i (ms ++ m :: post) = ms ++ post.
Proof.
  induction 1 as [|x ms Hx Hms IH]; intros Hm; simpl.
  - rewrite Hm. reflexivity.
  - rewrite Hx. f_equal. apply IH. exact Hm.
Qed.

Lemma addMessage_messages text sender e w ms :
  chatMessages (dom w) = Some ms ->
  chatMessages (dom (fst (addMessage text sender false e w)))
  = Some (ms ++ [shown e sender text])
  /\ snd (addMessage text sender false e w) = Some (id_of e)
  /\ chatInput (dom (fst (addMessage text sender false e w)))
     = chatInput (dom w).
Proof.
  intros E. unfold addMessage. rewrite E. simpl. repeat split.
Qed.

Lemma addMessage_loading text e w ms :
  chatMessages (dom w) = Some ms ->
  chatMessages (dom (fst (addMessage text bot true e w)))
  = Some (ms ++ [ {| m_id := Some (id_of e); m_sender := bot;
                     m_loading := true; m_welcome := false;
                     m_content := TextContent text |} ])
  /\ snd (addMessage text bot true e w) = Some (id_of e).
Proof.
  intros E. unfold addMessage. rewrite E. simpl. repeat split.
Qed.

Lemma removeMessage_messages i w ms :
  chatMessages (dom w) = Some ms ->
  chatMessages (dom (removeMessage i w)) = Some (removed i ms).
Proof.
  intros E. unfold removeMessage. destruct i as [j|]; rewrite E; reflexivity.
Qed.

(** The [catch] path: the first element carrying [loadingId] is removed
    and the fallback message is appended; the waiting flag is reset. *)
Lemma catch_finally_messages i e w ms :
  chatMessages (dom w) = Some ms ->
  chatMessages (dom (catch_finally i e w))
  = Some (removed i ms ++ [shown e bot fallback_text])
  /\ isWaitingResponse (st (catch_finally i e w)) = false.
Proof.
  intros E. unfold catch_finally.
  pose proof (removeMessage_messages i w _ E) as R.
  destruct (addMessage_messages fallback_text bot e (removeMessage i w) _ R)
    as [A _].
  destruct (addMessage fallback_text bot false e (removeMessage i w))
    as [w2 o]. simpl in A. simpl. split; [exact A | reflexivity].
Qed.

(** The path of a parsed object: the loading message goes, the answer is
    appended, and the flag [needs_human] adds nothing. *)
Lemma on_data_messages i d e w ms :
  chatMessages (dom w) = Some ms ->
  chatMessages (dom (on_data i (DataObject d) e w))
  = Some (removed i ms ++ [shown e bot (text_of (answer d))])
  /\ isWaitingResponse (st (on_data i (DataObject d) e w)) = false.
Proof.
  intros E. unfold on_data.
  pose proof (removeMessage_messages i w _ E) as R.
  destruct (addMessage_messages (text_of (answer d)) bot e (removeMessage i w)
              _ R)
    as [A _].
  destruct (addMessage (text_of (answer d)) bot false e (removeMessage i w))
    as [w2 o]. simpl in A.
  destruct (needs_human d); simpl; split; (exact A || reflexivity).
Qed.

Lemma fallback_shown e :
  m_content (shown e bot fallback_text) = InnerHTML fallback_text
  /\ contains (lit "info@chinfield.com") fallback_text = true
  /\ fallback_text <> [].
Proof.
  split; [|split].
  - vm_compute. reflexivity.
  - vm_compute. reflexivity.
  - discriminate.
Qed.

(** Every operation of the widget keeps [STATE.sessionId]. *)
Lemma step_sessionId API_URL w ev :
  sessionId (st (step API_URL w ev)) = sessionId (st w).
Proof.
  assert (forall e1 e2 w0,
            sessionId (st (sendMessage_start API_URL e1 e2 w0))
            = sessionId (st w0)) as Hs.
  { intros e1 e2 w0.
    destruct (sendMessage_start_cases API_URL e1 e2 w0) as [[_ E]|H].
    - rewrite E. reflexivity.
    - destruct H as [v [i [_ [_ [_ [A _]]]]]]. exact A. }
  destruct ev; simpl.
  - apply (onDOMContentLoaded_same w).
  - apply Hs.
  - destruct (enter && negb shift)%bool; [apply Hs | reflexivity].
  - unfold settle. destruct (nth_error (pending w) k) as [c|]; [|reflexivity].
    match goal with |- context [resume c o e ?w0] => set (w0' := w0) end.
    destruct (resume c o e w0') as [[w1 c']|] eqn:Er; [|reflexivity].
    destruct (resume_cases _ _ _ _ _ _ Er) as [[Hc ->]|[-> [A _]]].
    + destruct c'; reflexivity.
    + exact A.
  - apply (set_input_same v w).
  - apply (toggleChat_same w).
  - apply (openChat_same w).
  - apply (closeChat_same w).
  - reflexivity.
  - unfold api_sendMessage. destruct (chatInput (dom w)); [|reflexivity].
    rewrite Hs. apply (set_input_same msg w).
  - apply (openChat_same w).
  - unfold api_sendMessage. destruct (chatInput (dom w)); [|reflexivity].
    rewrite Hs. apply (set_input_same _ w).
Qed.

End WidgetPaths.

(* ================================================================= *)
(** ** Facts about the legacy widget *)

Module LegacyFacts.

Import Widget Legacy.

Definition text_message (t : N) (sender : Sender) (text : jsstring)
  : Legacy.message :=
  {| Legacy.m_id := Some t; Legacy.m_sender := sender;
     Legacy.m_loading := false; Legacy.m_content := TextContent text |}.

Definition loading (t : N) : Legacy.message :=
  {| Legacy.m_id := Some t; Legacy.m_sender := bot;
     Legacy.m_loading := true;
     Legacy.m_content := TextContent (lit "Pensando...") |}.

(** At most one call is suspended, and only while the flag is set. *)
Definition Inv (w : Legacy.World) : Prop :=
  Legacy.pending w = []
  \/ (exists i, Legacy.pending w = [i]) /\ Legacy.isWaitingResponse w = true.

Lemma legacy_sendMessage_start_guard t1 t2 w :
  trim (Legacy.input w) = [] \/ Legacy.isWaitingResponse w = true ->
  Legacy.sendMessage_start t1 t2 w = w.
Proof.
  unfold Legacy.sendMessage_start. intros [E|E].
  - rewrite E. reflexivity.
  - rewrite E. rewrite orb_true_r. reflexivity.
Qed.

Lemma legacy_sendMessage_start_request t1 t2 w :
  trim (Legacy.input w) <> [] -> Legacy.isWaitingResponse w = false ->
  let w' := Legacy.sendMessage_start t1 t2 w in
  Legacy.requests w'
  = Legacy.requests w
    ++ [ {| url := lit "http://localhost:8000/api/chat";
            method := lit "POST";
            content_type := lit "application/json";
            body := [ (lit "message", trim (Legacy.input w)) ] |} ]
  /\ Legacy.pending w' = Legacy.pending w ++ [t2]
  /\ Legacy.isWaitingResponse w' = true
  /\ Legacy.messages w'
     = Legacy.messages w
       ++ [text_message t1 user (trim (Legacy.input w)); loading t2].
Proof.
  intros Ne Ew. unfold Legacy.sendMessage_start.
  destruct (trim (Legacy.input w)) as [|c m] eqn:Et; [congruence|].
  rewrite Ew. simpl. rewrite <- app_assoc. repeat split.
Qed.

Lemma legacy_Inv_sendMessage_start t1 t2 w :
  Inv w -> Inv (Legacy.sendMessage_start t1 t2 w).
Proof.
  intros I.
  destruct (trim (Legacy.input w)) as [|c m] eqn:Et.
  { rewrite legacy_sendMessage_start_guard; [exact I | left; exact Et]. }
  destruct (Legacy.isWaitingResponse w) eqn:Ew.
  { rewrite legacy_sendMessage_start_guard; [exact I | right; exact Ew]. }
  assert (trim (Legacy.input w) <> []) as Ne by (rewrite Et; discriminate).
  destruct (legacy_sendMessage_start_request t1 t2 w Ne Ew) as [_ [P [W _]]].
  unfold Inv. rewrite P, W.
  destruct I as [E|[_ E]]; [|congruence].
  rewrite E. right. split; [eexists; reflexivity | reflexivity].
Qed.

Lemma legacy_resume_pending i r t w :
  Legacy.pending (Legacy.resume i r t w) = Legacy.pending w
  /\ Legacy.isWaitingResponse (Legacy.resume i r t w) = false.
Proof.
  unfold Legacy.resume, Legacy.on_data, Legacy.catch_finally.
  destruct r as [ | status | | [|d]]; simpl; try (split; reflexivity).
  destruct (handoff_to_human d); split; reflexivity.
Qed.

Lemma legacy_Inv_step w ev : Inv w -> Inv (Legacy.step w ev).
Proof.
  intros I. destruct ev; simpl.
  - apply legacy_Inv_sendMessage_start. exact I.
  - destruct (enter && negb shift)%bool; [|exact I].
    apply legacy_Inv_sendMessage_start. exact I.
  - unfold Legacy.settle.
    destruct (nth_error (Legacy.pending w) k) as [i|] eqn:En; [|exact I].
    match goal with |- Inv (Legacy.resume i r t ?w0) =>
      destruct (legacy_resume_pending i r t w0) as [P W] end.
    unfold Inv. rewrite P. simpl.
    destruct I as [E|[[j E] _]].
    + rewrite E in En. destruct k; discriminate.
    + rewrite E in *. destruct k as [|k]; [|destruct k; discriminate].
      left. reflexivity.
  - exact I.
  - unfold Legacy.toggleChat. destruct (Legacy.chatOpen w); exact I.
  - unfold Legacy.openChat, Legacy.toggleChat.
    destruct (Legacy.chatOpen w); exact I.
  - unfold Legacy.closeChat, Legacy.toggleChat.
    destruct (Legacy.chatOpen w); exact I.
  - unfold Legacy.openChat, Legacy.toggleChat.
    destruct (Legacy.chatOpen w); exact I.
  - apply legacy_Inv_sendMessage_start. exact I.
Qed.

Lemma legacy_Inv_run evs : forall w, Inv w -> Inv (Legacy.run w evs).
Proof.
  induction evs as [|ev evs IH]; intros w I; simpl; [exact I|].
  apply IH. apply legacy_Inv_step. exact I.
Qed.

Lemma legacy_on_data_messages i d t w :
  Legacy.messages (Legacy.on_data i (DataObject d) t w)
  = Legacy.remove_first i (Legacy.messages w)
    ++ [text_message t bot (text_of (response d))]
    ++ (if handoff_to_human d then [Legacy.handoff_message] else []).
Proof.
  unfold Legacy.on_data. simpl.
  destruct (handoff_to_human d); simpl.
  - rewrite <- app_assoc. reflexivity.
  - reflexivity.
Qed.

End LegacyFacts.

Module WidgetCalls.

Import Widget WidgetFacts WidgetPaths.

(** A call that passes the guard, in a document that has the container:
    the input is cleared, the user's message and the loading indicator are
    appended, and the call is suspended on its request. *)
Lemma sendMessage_start_messages API_URL e1 e2 w v ms :
  chatInput (dom w) = Some v -> trim v <> [] ->
  isWaitingResponse (st w) = false ->
  chatMessages (dom w) = Some ms ->
  let w' := sendMessage_start API_URL e1 e2 w in
  chatMessages (dom w') = Some (ms ++ [shown e1 user (trim v); loading e2])
  /\ pending w' = pending w ++ [AwaitFetch (Some (id_of e2))]
  /\ isWaitingResponse (st w') = true
  /\ chatInput (dom w') = Some [].
Proof.
  intros Ev Et Ew Em.
  unfold sendMessage_start, read_message, clear_input. rewrite Ev.
  destruct (trim v) as [|c m] eqn:E; [congruence|]. rewrite Ew. simpl.
  unfold addMessage. simpl. rewrite Em. simpl.
  rewrite <- app_assoc. repeat split.
Qed.

Definition no_pending (w : World) : World :=
  {| st := st w; dom := dom w; requests := requests w; pending := [] |}.

Lemma settle_failure o e w i :
  pending w = [AwaitFetch i] ->
  o = FetchRejected \/ (exists status, o = FetchResponse false status) ->
  settle 0 o e w = catch_finally i e (no_pending w).
Proof.
  intros P Ho. unfold settle. rewrite P.
  destruct Ho as [->|[status ->]]; reflexivity.
Qed.

(** A failed call, from its start to its end: when the id of the loading
    indicator is carried by no other message, the indicator is removed,
    the fallback message is appended and the flag is reset. *)
Lemma failed_call API_URL w e1 e2 e3 v ms o :
  chatInput (dom w) = Some v -> trim v <> [] ->
  isWaitingResponse (st w) = false -> pending w = [] ->
  chatMessages (dom w) = Some ms ->
  fresh (id_of e2) (ms ++ [shown e1 user (trim v)]) ->
  o = FetchRejected \/ (exists status, o = FetchResponse false status) ->
  let w' := run API_URL w [Send e1 e2; Settle 0 o e3] in
  chatMessages (dom w')
  = Some (ms ++ [shown e1 user (trim v); shown e3 bot fallback_text])
  /\ isWaitingResponse (st w') = false
  /\ pending w' = [].
Proof.
  intros Ev Et Ew Ep Em F Ho.
  change (run API_URL w [Send e1 e2; Settle 0 o e3])
    with (settle 0 o e3 (sendMessage_start API_URL e1 e2 w)).
  destruct (sendMessage_start_messages API_URL e1 e2 w v ms Ev Et Ew Em)
    as [M [P [W I]]].
  set (w1 := sendMessage_start API_URL e1 e2 w) in *.
  rewrite Ep in P. simpl in P.
  cbv zeta. rewrite (settle_failure o e3 w1 _ P Ho).
  assert (chatMessages (dom (no_pending w1))
          = Some (ms ++ [shown e1 user (trim v); loading e2])) as M0 by exact M.
  destruct (catch_finally_messages (Some (id_of e2)) e3 (no_pending w1) _ M0)
    as [A B].
  destruct (catch_finally_ended (Some (id_of e2)) e3 (no_pending w1))
    as [_ [_ [C _]]].
  rewrite A, B, C. repeat split. f_equal. simpl.
  change (ms ++ [shown e1 user (trim v); loading e2])
    with (ms ++ [shown e1 user (trim v)] ++ loading e2 :: []).
  rewrite app_assoc.
  rewrite remove_first_fresh.
  - rewrite app_nil_r, <- app_assoc. reflexivity.
  - exact F.
  - unfold has_id, loading. simpl. apply msgid_eqb_refl.
Qed.

(** The invariant of the widget holds of the page of a browser session,
    for the id generated at the last load. *)
Lemma browse_Inv API_URL bevs : forall l b,
  Inv (generateSessionId (load_now l) (load_random36 l)) (page b) ->
  Inv (generateSessionId (load_now (last_load l bevs))
                         (load_random36 (last_load l bevs)))
      (page (fold_left (browse API_URL) bevs b)).
Proof.
  induction bevs as [|bev bevs IH]; intros l b I; simpl; [exact I|].
  destruct bev as [l'|ev].
  - apply IH. apply Inv_initial.
  - apply IH. simpl. apply Inv_step. exact I.
Qed.

Lemma browser_session_Inv API_URL l bevs :
  Inv (generateSessionId (load_now (last_load l bevs))
                         (load_random36 (last_load l bevs)))
      (page (browser_session API_URL l bevs)).
Proof.
  unfold browser_session. apply browse_Inv. apply Inv_initial.
Qed.

End WidgetCalls.

(* ================================================================= *)
(** ** Facts about the pipeline *)

Module PipelineFacts.

Import Pipeline.
Local Open Scope Q_scope.

Section WithComponents.

Variable thr : Q.
Variables contact delim apology : text.
Variable strip : text -> text.
Variable retrieve : text -> nat -> stage (list RetrievedPassage).
Variable generate : text -> list RetrievedPassage -> stage GenerationResult.

Local Abbreviation run q sid k :=
  (run_query thr contact delim apology strip retrieve generate q sid k).
Local Abbreviation decide' q sid ps log :=
  (decide thr contact delim apology generate q sid ps log).

Lemma sufficient_iff ps :
  sufficient (assess thr ps) = true
  <-> ps <> [] /\ thr <= mean_score (assess thr ps).
Proof.
  unfold assess. destruct ps as [|p ps]; simpl.
  - split; [discriminate | intros [H _]; congruence].
  - rewrite Qle_bool_iff. split.
    + intros H. split; [discriminate | exact H].
    + intros [_ H]. exact H.
Qed.

Lemma count_Q_pos p ps : 0 < count_Q (p :: ps).
Proof.
  unfold count_Q, Qlt. simpl. lia.
Qed.

(** The gate without the division: the threshold times the number of
    passages is at most the sum of the scores. *)
Lemma sufficient_iff_sum ps :
  sufficient (assess thr ps) = true
  <-> ps <> [] /\ thr * count_Q ps <= sum_scores ps.
Proof.
  rewrite sufficient_iff. destruct ps as [|p ps].
  - split; intros [H _]; congruence.
  - pose proof (count_Q_pos p ps) as C.
    change (mean_score (assess thr (p :: ps)))
      with (sum_scores (p :: ps) / count_Q (p :: ps)).
    split; intros [_ H]; (split; [discriminate|]).
    + apply (Qmult_le_compat_r _ _ (count_Q (p :: ps))) in H;
        [|apply Qlt_le_weak; exact C].
      rewrite Qmult_comm in H.
      rewrite (Qmult_comm (sum_scores (p :: ps) / count_Q (p :: ps))) in H.
      rewrite Qmult_div_r in H; [|intros Z; rewrite Z in C; discriminate C].
      rewrite Qmult_comm. exact H.
    + apply Qle_shift_div_l; assumption.
Qed.

Lemma below_threshold ps :
  mean_score (assess thr ps) < thr -> sufficient (assess thr ps) = false.
Proof.
  intros H. destruct (sufficient (assess thr ps)) eqn:E; [|reflexivity].
  apply sufficient_iff in E. destruct E as [_ E].
  exfalso. apply (Qlt_not_le _ _ H E).
Qed.

(** Without sufficient confidence the Decider ends in HANDOFF and the
    generator is not called. *)
Lemma decide_insufficient q sid ps log :
  sufficient (assess thr ps) = false ->
  decide' q sid ps log
  = respond (HANDOFF (if Nat.eqb (List.length ps) 0 then NO_DOCUMENTS
                      else LOW_CONFIDENCE))
            (handoff_answer contact delim []) (List.length ps) sid log.
Proof.
  intros H. unfold decide, after_retrieval. rewrite H. reflexivity.
Qed.

(** Passages whose mean is too low give the reason LOW_CONFIDENCE; the
    reason NO_DOCUMENTS is kept for no passage at all. *)
Lemma low_confidence_reason q sid p ps log :
  sufficient (assess thr (p :: ps)) = false ->
  final (decide' q sid (p :: ps) log) = HANDOFF LOW_CONFIDENCE.
Proof.
  intros H. rewrite (decide_insufficient q sid (p :: ps) log H). reflexivity.
Qed.

(** With sufficient confidence the generator is called once. *)
Lemma decide_sufficient q sid ps log :
  sufficient (assess thr ps) = true ->
  generator_calls (calls (decide' q sid ps log)) = S (generator_calls log).
Proof.
  intros H. unfold decide, after_retrieval. rewrite H.
  assert (generator_calls (log ++ [CallGenerate q ps])%list
          = S (generator_calls log)) as G.
  { unfold generator_calls. rewrite filter_app, length_app. simpl. lia. }
  destruct (generate q ps) as [e|g]; simpl; [exact G|].
  unfold after_generation. destruct (succeeded g); simpl; exact G.
Qed.

(** A failing generator leads to a handoff, whatever the confidence. *)
Lemma decide_generation_fails q sid ps log :
  (exists e, generate q ps = Raised e)
  \/ (exists g, generate q ps = Returned g /\ succeeded g = false) ->
  needs_human (reply (decide' q sid ps log)) = true.
Proof.
  intros H. unfold decide, after_retrieval.
  destruct (sufficient (assess thr ps)); [|reflexivity].
  destruct H as [[e ->]|[g [-> Hg]]]; [reflexivity|].
  unfold after_generation. rewrite Hg. reflexivity.
Qed.

(** Scenario A of the specification: scores 0.9, 0.85 and 0.3 pass the
    default threshold 0.65; scenario B: 0.1, 0.05 and 0.02 do not. *)
Definition scored (x : Q) : RetrievedPassage :=
  {| chunk_id := []; chunk_text := []; source_product := []; score := x |}.

Example scenario_A :
  sufficient (assess (13 # 20) [scored (9 # 10); scored (17 # 20); scored (3 # 10)])
  = true.
Proof. vm_compute. reflexivity. Qed.

Example scenario_B :
  sufficient (assess (13 # 20) [scored (1 # 10); scored (1 # 20); scored (1 # 50)])
  = false.
Proof. vm_compute. reflexivity. Qed.

(** The session id is copied into the reply and decides nothing. *)
Lemma session_id_passes_through q sid1 sid2 k :
  differ_in_session_id_only sid1 sid2 (run q sid1 k) (run q sid2 k).
Proof.
  unfold differ_in_session_id_only, run_query. destruct (strip q); [reflexivity|].
  destruct (retrieve q k) as [e|ps]; [simpl; repeat split; reflexivity|].
  unfold decide. destruct (after_retrieval (assess thr ps)); simpl.
  all: try (repeat split; reflexivity).
  destruct (generate q ps) as [e|g]; simpl; [repeat split; reflexivity|].
  destruct (after_generation g); simpl; repeat split; reflexivity.
Qed.

End WithComponents.

End PipelineFacts.

(* ================================================================= *)
(** ** Properties of the widgets *)

Import Widget.

(** C8.  For every input, the output of [sanitizeHTML] is the input read
    from the left with every whitelisted tag (br, strong, em, ul, li, the
    closing a) copied, every opening anchor with an [href] between double
    quotes copied with [target=_blank] and [rel=noopener noreferrer] added,
    and every other character escaped: [Sanitized] relates the two, and
    nothing but the output of [sanitizeHTML] stands in this relation to the
    input.  So a character that begins no whitelisted tag, such as the [<]
    of a script tag, appears as [escaped] has it; and the output is a
    sequence of characters other than [<], of whitelisted tags and of
    opening anchors carrying the two attributes, in which every [<] starts
    a whitelisted tag. *)
Theorem sanitizeHTML_whitelist (html : jsstring) :
  Sanitized html (sanitizeHTML html)
  /\ (forall out, Sanitized html out -> out = sanitizeHTML html)
  /\ (forall c rest, html = c :: rest -> ~ begins_tag html ->
      sanitizeHTML html = escaped c ++ sanitizeHTML rest)
  /\ Safe (sanitizeHTML html)
  /\ (forall a b, sanitizeHTML html = a ++ lt :: b -> starts_tag (lt :: b)).
Proof.
  assert (forall s, Sanitized s (sanitizeHTML s)) as R.
  { intros s. apply SanitizeStages.Stage_Sanitized.
    apply SanitizeStages.sanitizeHTML_stage. }
  assert (forall s out, Sanitized s out -> out = sanitizeHTML s) as U.
  { intros s out H.
    apply (SanitizeStages.Sanitized_unique (List.length s) s);
      [apply le_n | exact H | apply R]. }
  assert (Safe (sanitizeHTML html)) as S.
  { unfold Safe, sanitizeHTML. cbv zeta.
    do 5 SanitizeSafe.literal_step.
    apply (SanitizeSafe.Tokens_anchor _ _ (le_n _)).
    do 6 SanitizeSafe.literal_step.
    apply SanitizeSafe.Tokens_escapeText. }
  split; [apply R|]. split; [apply U|]. split; [|split; [exact S|]].
  - intros c rest E B. symmetry. apply U. rewrite E.
    apply San_char; [rewrite <- E; exact B | apply R].
  - intros a b E. apply (SanitizeSafe.Tokens_every_lt _ _ S a b E).
Qed.

(** The relation at work: a script tag comes out escaped, the whitelisted
    tags come out as they are, and an anchor gains the two attributes. *)
Example sanitized_script :
  Sanitized (lit "<script>alert(1)</script>")
            (lit "&lt;script&gt;alert(1)&lt;/script&gt;").
Proof.
  change (lit "&lt;script&gt;alert(1)&lt;/script&gt;")
    with (sanitizeHTML (lit "<script>alert(1)</script>")).
  apply SanitizeStages.Stage_Sanitized. apply SanitizeStages.sanitizeHTML_stage.
Qed.

Example sanitized_anchor :
  sanitizeHTML (lit "<a href=" ++ [dq] ++ lit "https://chinfield.com/contacto"
                ++ [dq] ++ lit "><img src=x>")
  = lit "<a href=" ++ [dq] ++ lit "https://chinfield.com/contacto" ++ [dq]
    ++ lit " target=" ++ [dq] ++ lit "_blank" ++ [dq]
    ++ lit " rel=" ++ [dq] ++ lit "noopener noreferrer" ++ [dq]
    ++ lit ">&lt;img src=x&gt;".
Proof. vm_compute. reflexivity. Qed.

(** A response that follows the contract of the API and asks for a human. *)
Definition handoff_response : api_fields :=
  {| answer := Some (lit "Consulte a un veterinario.");
     needs_human := true;
     num_docs := Some 0%Z;
     response := None;
     handoff_to_human := false |}.

(** The same response, with the two fields the legacy widget reads. *)
Definition handoff_response_legacy : api_fields :=
  {| answer := Some (lit "Consulte a un veterinario.");
     needs_human := true;
     num_docs := Some 0%Z;
     response := Some (lit "Consulte a un veterinario.");
     handoff_to_human := true |}.

(** A legacy chat with the question of the user and the loading indicator
    ([t1] and [t2] are the two readings of the clock), waiting for the
    response. *)
Definition legacy_waiting (t1 t2 : N) : Legacy.World :=
  {| Legacy.chatOpen := true; Legacy.isWaitingResponse := true;
     Legacy.widget_open := true; Legacy.input := [];
     Legacy.messages := [ LegacyFacts.text_message t1 user (lit "hola");
                          LegacyFacts.loading t2 ];
     Legacy.requests := [Legacy.chat_request (lit "hola")];
     Legacy.pending := [];
     Legacy.input_kind := TextField; Legacy.button_display := DisplayNone;
     Legacy.badge := Some DisplayNone |}.

Definition example_dom : Dom :=
  {| chatWidget := Some false; chatInput := Some (lit " hola ");
     chatMessages := Some []; chatButton := true; chatClose := true;
     chatInputKind := TextField; chatBadge := Some DisplayDefault |}.

Definition example_world : World :=
  initial_world 1700000000000 (lit "0.4fzyo82mvyr") 1024 example_dom.

Definition example_url : jsstring := lit "http://localhost:8000".

(** C1, as amended.  On a response with [needs_human] set, the responsive
    widget removes the element that carries [loadingId] and appends one
    message, the answer passed through [sanitizeHTML], and nothing else;
    the legacy widget reads neither [answer] nor [needs_human]: it shows
    [data.response] and appends the separate contact message exactly when
    [data.handoff_to_human] is truthy. *)
Theorem needs_human_rendering
  (w : World) (i : option msgid) (e : entropy) (ms : list message)
  (lw : Legacy.World) (li t : N) (d : api_fields) :
  needs_human d = true ->
  chatMessages (dom w) = Some ms ->
  chatMessages (dom (on_data i (DataObject d) e w))
  = Some (WidgetPaths.removed i ms
          ++ [WidgetPaths.shown e bot (text_of (answer d))])
  /\ Legacy.messages (Legacy.on_data li (DataObject d) t lw)
     = Legacy.remove_first li (Legacy.messages lw)
       ++ [LegacyFacts.text_message t bot (text_of (response d))]
       ++ (if handoff_to_human d then [Legacy.handoff_message] else []).
Proof.
  intros _ Em. split.
  - apply (WidgetPaths.on_data_messages i d e w ms Em).
  - apply LegacyFacts.legacy_on_data_messages.
Qed.

Lemma needs_human_rendering_witness :
  chatMessages
    (dom (on_data None (DataObject handoff_response) {| now := 5; random := 7 |}
            example_world))
  = Some (WidgetPaths.removed None []
          ++ [WidgetPaths.shown {| now := 5; random := 7 |} bot
                (text_of (answer handoff_response))])
  /\ Legacy.messages
       (Legacy.on_data 2 (DataObject handoff_response) 3 (legacy_waiting 1 2))
     = Legacy.remove_first 2 (Legacy.messages (legacy_waiting 1 2))
       ++ [LegacyFacts.text_message 3 bot (text_of (response handoff_response))]
       ++ (if handoff_to_human handoff_response
           then [Legacy.handoff_message] else []).
Proof.
  apply (needs_human_rendering example_world None {| now := 5; random := 7 |} []
           (legacy_waiting 1 2) 2 3 handoff_response).
  - reflexivity.
  - reflexivity.
Defined.

(** C1, counterexample.  The legacy widget does not show the answer of a
    response with [needs_human] set: for the response of the API contract
    it shows an empty message, and for a response that also carries the
    fields it reads it appends the separate contact message. *)
Lemma legacy_does_not_render_answer :
  needs_human handoff_response = true
  /\ Legacy.messages
       (Legacy.on_data 2 (DataObject handoff_response) 3 (legacy_waiting 1 2))
     = [ LegacyFacts.text_message 1 user (lit "hola");
         LegacyFacts.text_message 3 bot [] ]
  /\ needs_human handoff_response_legacy = true
  /\ Legacy.messages
       (Legacy.on_data 2 (DataObject handoff_response_legacy) 3
          (legacy_waiting 1 2))
     = [ LegacyFacts.text_message 1 user (lit "hola");
         LegacyFacts.text_message 3 bot (lit "Consulte a un veterinario.");
         Legacy.handoff_message ].
Proof.
  split; [reflexivity|]. split; [vm_compute; reflexivity|].
  split; [reflexivity|]. vm_compute. reflexivity.
Qed.

(** C4, as amended.  For a non-empty message submitted while no response
    is pending, the responsive widget sends one POST to [/api/chat] whose
    body holds [message], the trimmed input, and [session_id], the id of
    [STATE]; the legacy widget sends one POST to [/api/chat] whose body
    holds [message] alone. *)
Theorem chat_request_fields
  (API_URL : jsstring) (w : World) (e1 e2 : entropy) (v : jsstring)
  (lw : Legacy.World) (t1 t2 : N) :
  chatInput (dom w) = Some v -> trim v <> [] ->
  isWaitingResponse (st w) = false ->
  trim (Legacy.input lw) <> [] -> Legacy.isWaitingResponse lw = false ->
  requests (sendMessage_start API_URL e1 e2 w)
  = requests w
    ++ [ {| url := API_URL ++ lit "/api/chat";
            method := lit "POST";
            content_type := lit "application/json";
            body := [ (lit "message", trim v);
                      (lit "session_id", sessionId (st w)) ] |} ]
  /\ Legacy.requests (Legacy.sendMessage_start t1 t2 lw)
     = Legacy.requests lw
       ++ [ {| url := lit "http://localhost:8000/api/chat";
               method := lit "POST";
               content_type := lit "application/json";
               body := [ (lit "message", trim (Legacy.input lw)) ] |} ].
Proof.
  intros Ev Et Ew Lt Lw. split.
  - destruct (WidgetFacts.sendMessage_start_cases API_URL e1 e2 w)
      as [[[F|F] _]|H].
    + unfold read_message in F. rewrite Ev in F. simpl in F.
      destruct (trim v); [congruence | discriminate].
    + congruence.
    + destruct H as [v' [i [Ev' [_ [_ [_ [_ [R _]]]]]]]].
      rewrite Ev in Ev'. inversion Ev'; subst v'. exact R.
  - apply (LegacyFacts.legacy_sendMessage_start_request t1 t2 lw Lt Lw).
Qed.

Definition legacy_example : Legacy.World :=
  Legacy.initial_world TextField (Some DisplayDefault) (lit " hola ") [].

Lemma chat_request_fields_witness :
  requests (sendMessage_start example_url {| now := 5; random := 7 |}
              {| now := 5; random := 8 |} example_world)
  = requests example_world
    ++ [ {| url := example_url ++ lit "/api/chat";
            method := lit "POST";
            content_type := lit "application/json";
            body := [ (lit "message", trim (lit " hola "));
                      (lit "session_id", sessionId (st example_world)) ] |} ]
  /\ Legacy.requests (Legacy.sendMessage_start 5 5 legacy_example)
     = Legacy.requests legacy_example
       ++ [ {| url := lit "http://localhost:8000/api/chat";
               method := lit "POST";
               content_type := lit "application/json";
               body := [ (lit "message", trim (Legacy.input legacy_example)) ] |} ].
Proof.
  apply (chat_request_fields example_url example_world
           {| now := 5; random := 7 |} {| now := 5; random := 8 |} (lit " hola ")
           legacy_example 5 5).
  - reflexivity.
  - vm_compute. discriminate.
  - reflexivity.
  - vm_compute. discriminate.
  - reflexivity.
Defined.

(** C4, counterexample.  The request of the legacy widget for the message
    [hola] has a body with the single field [message]; no field is named
    [session_id]. *)
Lemma legacy_request_without_session_id :
  Legacy.requests (Legacy.sendMessage_start 5 5 legacy_example)
  = [ {| url := lit "http://localhost:8000/api/chat";
         method := lit "POST";
         content_type := lit "application/json";
         body := [ (lit "message", lit "hola") ] |} ]
  /\ existsb (fun r => existsb (fun f => jsstring_eqb (fst f) (lit "session_id"))
                         (body r))
       (Legacy.requests (Legacy.sendMessage_start 5 5 legacy_example))
     = false.
Proof.
  split; vm_compute; reflexivity.
Qed.

(** Two loads of the example page, a minute apart, and a browser session
    in which the user asks, reloads the page and asks again. *)
Definition first_load : load :=
  {| load_now := 1700000000000; load_random36 := lit "0.4fzyo82mvyr";
     load_innerWidth := 1024; load_dom := example_dom |}.

Definition second_load : load :=
  {| load_now := 1700000060000; load_random36 := lit "0.9k2xq71bc0d";
     load_innerWidth := 1024; load_dom := example_dom |}.

Definition session_with_reload : Browser :=
  browser_session example_url first_load
    [ OnPage (Send {| now := 5; random := 7 |} {| now := 5; random := 8 |});
      PageLoad second_load;
      OnPage (Send {| now := 6; random := 1 |} {| now := 6; random := 2 |}) ].

(** C5, as amended.  The session id is generated once per page load, when
    the script builds [STATE], and it is stable for that page load: no
    operation of the widget changes [STATE.sessionId], every request sent
    from the page carries that id as [session_id], and [getSessionId]
    returns it.  This holds of the first page of a browser session and,
    after any number of loads and events, of the page last loaded, whose
    id is the one generated at its load.  The core, modelled from the
    specification, hands the session id back and decides nothing by it:
    for two session ids its outcomes differ in the id alone. *)
Theorem session_id_stable
  (API_URL : jsstring) (now0 : N) (random36 : jsstring) (innerWidth : Z)
  (d : Dom) (evs : list event) (l : load) (bevs : list browser_event) :
  let sid := generateSessionId now0 random36 in
  let w := run API_URL (initial_world now0 random36 innerWidth d) evs in
  let b := browser_session API_URL l bevs in
  let sid' := generateSessionId (load_now (last_load l bevs))
                                (load_random36 (last_load l bevs)) in
  sessionId (st (initial_world now0 random36 innerWidth d)) = sid
  /\ sessionId (st w) = sid
  /\ getSessionId w = sid
  /\ Forall (WidgetFacts.carries sid) (requests w)
  /\ (forall w0 ev, sessionId (st (step API_URL w0 ev)) = sessionId (st w0))
  /\ sessionId (st (page b)) = sid'
  /\ getSessionId (page b) = sid'
  /\ Forall (WidgetFacts.carries sid') (requests (page b))
  /\ (forall thr contact delim apology strip retrieve generate q sid1 sid2 k,
        Pipeline.differ_in_session_id_only sid1 sid2
          (Pipeline.run_query thr contact delim apology strip retrieve
             generate q sid1 k)
          (Pipeline.run_query thr contact delim apology strip retrieve
             generate q sid2 k)).
Proof.
  intros sid w b sid'.
  destruct (WidgetFacts.Inv_run API_URL _ evs _
              (WidgetFacts.Inv_initial now0 random36 innerWidth d))
    as [A [B _]].
  split; [reflexivity|]. split; [exact A|]. split; [exact A|].
  split; [exact B|].
  split; [intros w0 ev; apply WidgetPaths.step_sessionId|].
  destruct (WidgetCalls.browser_session_Inv API_URL l bevs) as [A' [B' _]].
  split; [exact A'|]. split; [exact A'|]. split; [exact B'|].
  intros thr contact delim apology strip retrieve generate q sid1 sid2 k.
  apply PipelineFacts.session_id_passes_through.
Qed.

(** C5, counterexample.  The session id is not stable for the lifetime of
    a browser session: in a session where the user asks, reloads the page
    and asks again, the two requests carry different values of
    [session_id], and after the reload [getSessionId] returns the second
    one. *)
Lemma session_id_changes_on_reload :
  map session_id_of (sent session_with_reload)
  = [ Some (lit "session_1700000000000_4fzyo82mv");
      Some (lit "session_1700000060000_9k2xq71bc") ]
  /\ jsstring_eqb (lit "session_1700000000000_4fzyo82mv")
                  (lit "session_1700000060000_9k2xq71bc") = false
  /\ getSessionId (page session_with_reload)
     = lit "session_1700000060000_9k2xq71bc".
Proof.
  split; [vm_compute; reflexivity|]. split; vm_compute; reflexivity.
Qed.

(** C9, on the legacy widget.  When the clock gives the same millisecond to
    the message of the user and to the loading indicator, both carry the
    same id; on a failed call the widget then removes the message of the
    user, and the loading indicator stays in the chat. *)
Lemma legacy_loading_indicator_stays :
  Legacy.messages
    (Legacy.run legacy_example
       [Legacy.Send 1000 1000; Legacy.Settle 0 Legacy.Rejected 1001])
  = [ LegacyFacts.loading 1000;
      LegacyFacts.text_message 1001 bot Legacy.fallback_text ]
  /\ Legacy.isWaitingResponse
       (Legacy.run legacy_example
          [Legacy.Send 1000 1000; Legacy.Settle 0 Legacy.Rejected 1001])
     = false.
Proof.
  split; vm_compute; reflexivity.
Qed.

(** C10.  When the trimmed input is empty, or a response is pending,
    [sendMessage] leaves the world as it is: no request, no message added
    or removed, no change of state; this holds of both widgets.  Hence, in
    every state the widgets reach from their initial state, at most one
    call is suspended on a request. *)
Theorem guarded_sendMessage
  (API_URL : jsstring) (e1 e2 : entropy) (w : World)
  (t1 t2 : N) (lw : Legacy.World) :
  falsy (read_message w) = true \/ isWaitingResponse (st w) = true ->
  trim (Legacy.input lw) = [] \/ Legacy.isWaitingResponse lw = true ->
  sendMessage_start API_URL e1 e2 w = w
  /\ Legacy.sendMessage_start t1 t2 lw = lw
  /\ (forall now0 random36 innerWidth d evs,
        List.length
          (pending (run API_URL (initial_world now0 random36 innerWidth d) evs))
        <= 1)
  /\ (forall k b v ms evs,
        List.length
          (Legacy.pending (Legacy.run (Legacy.initial_world k b v ms) evs))
        <= 1).
Proof.
  intros G LG. split; [|split; [|split]].
  - destruct (WidgetFacts.sendMessage_start_cases API_URL e1 e2 w)
      as [[_ E]|H]; [exact E|].
    destruct H as [v [i [Ev [Et [Ew _]]]]]. exfalso.
    destruct G as [G|G]; [|congruence].
    unfold read_message in G. rewrite Ev in G. simpl in G.
    destruct (trim v); [congruence | discriminate].
  - apply LegacyFacts.legacy_sendMessage_start_guard. exact LG.
  - intros now0 random36 innerWidth d evs.
    destruct (WidgetFacts.Inv_run API_URL _ evs _
                (WidgetFacts.Inv_initial now0 random36 innerWidth d))
      as [_ [_ [P|[[c P] _]]]]; rewrite P; simpl; lia.
  - intros k b v ms evs.
    assert (LegacyFacts.Inv (Legacy.initial_world k b v ms)) as I0
      by (left; reflexivity).
    destruct (LegacyFacts.legacy_Inv_run evs _ I0) as [P|[[c P] _]];
      rewrite P; simpl; lia.
Qed.

Definition example_waiting : World :=
  sendMessage_start example_url {| now := 5; random := 7 |}
    {| now := 5; random := 8 |} example_world.

Lemma guarded_sendMessage_witness :
  sendMessage_start example_url {| now := 6; random := 1 |}
    {| now := 6; random := 2 |} example_waiting = example_waiting
  /\ Legacy.sendMessage_start 6 6 (Legacy.initial_world TextField None (lit "   ") [])
     = Legacy.initial_world TextField None (lit "   ") []
  /\ (forall now0 random36 innerWidth d evs,
        List.length
          (pending (run example_url (initial_world now0 random36 innerWidth d) evs))
        <= 1)
  /\ (forall k b v ms evs,
        List.length
          (Legacy.pending (Legacy.run (Legacy.initial_world k b v ms) evs))
        <= 1).
Proof.
  apply (guarded_sendMessage example_url {| now := 6; random := 1 |}
           {| now := 6; random := 2 |} example_waiting 6 6
           (Legacy.initial_world TextField None (lit "   ") [])).
  - right. reflexivity.
  - left. reflexivity.
Defined.

(* ================================================================= *)
(** ** Properties of the answer pipeline *)

Import Pipeline.

(** C2.  The Confidence Gate reports [sufficient] exactly when there is a
    passage and the mean of the scores is at least the threshold; the mean
    of a non-empty sequence is the sum of its scores over their number, so
    that the gate opens exactly when the threshold times the number of
    passages is at most the sum; the mean of the empty sequence is 0 and
    the empty sequence is never sufficient, whatever the threshold; a mean
    equal to the threshold is sufficient. *)
Theorem confidence_gate (threshold : Q) (passages : list RetrievedPassage) :
  (sufficient (assess threshold passages) = true
   <-> passages <> [] /\ (threshold <= mean_score (assess threshold passages))%Q)
  /\ (passages <> [] ->
      mean_score (assess threshold passages)
      = (sum_scores passages / count_Q passages)%Q)
  /\ (sufficient (assess threshold passages) = true
      <-> passages <> []
          /\ (threshold * count_Q passages <= sum_scores passages)%Q)
  /\ mean_score (assess threshold []) = 0%Q
  /\ sufficient (assess threshold []) = false
  /\ (passages <> [] ->
      (mean_score (assess threshold passages) == threshold)%Q ->
      sufficient (assess threshold passages) = true).
Proof.
  split; [apply PipelineFacts.sufficient_iff|].
  split.
  { destruct passages; [congruence | reflexivity]. }
  split; [apply PipelineFacts.sufficient_iff_sum|].
  split; [reflexivity|]. split; [reflexivity|].
  intros Ne E. apply PipelineFacts.sufficient_iff. split; [exact Ne|].
  rewrite E. apply Qle_refl.
Qed.

(** Components for the examples: a retriever that finds nothing or two weak
    passages, and a generator that must not be reached. *)
Definition weak_passages : list RetrievedPassage :=
  [ {| chunk_id := lit "c1"; chunk_text := lit "texto";
       source_product := lit "Biomec Plus"; score := 1 # 10 |};
    {| chunk_id := lit "c2"; chunk_text := lit "texto";
       source_product := lit "Biomec Plus"; score := 1 # 20 |} ].

Definition retrieve_none (q : text) (k : nat) : stage (list RetrievedPassage) :=
  Returned [].

Definition retrieve_weak (q : text) (k : nat) : stage (list RetrievedPassage) :=
  Returned weak_passages.

Definition generate_down (q : text) (ps : list RetrievedPassage)
  : stage GenerationResult :=
  Raised (GenerationFailure TIMEOUT).

(** C3.  For a query that is not empty after trimming and for which the
    Retriever returns no passage, the run ends in HANDOFF with reason
    NO_DOCUMENTS, and the response has [needs_human] set and [num_docs]
    equal to 0. *)
Theorem zero_passages_handoff
  (threshold : Q) (contact delim apology : text) (strip : text -> text)
  (retrieve : text -> nat -> stage (list RetrievedPassage))
  (generate : text -> list RetrievedPassage -> stage GenerationResult)
  (query sid : text) (k : nat) :
  strip query <> [] ->
  retrieve query k = Returned [] ->
  exists r,
    run_query threshold contact delim apology strip retrieve generate
      query sid k = inr r
    /\ answer_query threshold contact delim apology strip retrieve generate
         query sid k = inr (reply r)
    /\ final r = HANDOFF NO_DOCUMENTS
    /\ needs_human (reply r) = true
    /\ num_docs (reply r) = 0.
Proof.
  intros Hq Hr. unfold answer_query, run_query.
  destruct (strip query) as [|c q']; [congruence|]. rewrite Hr.
  eexists. split; [reflexivity|]. repeat split.
Qed.

Lemma zero_passages_handoff_witness :
  exists r,
    run_query (13 # 20) (lit "info@chinfield.com") (lit "---") (lit "Lo siento")
      trim retrieve_none generate_down (lit " dosis ") (lit "s1") 3 = inr r
    /\ answer_query (13 # 20) (lit "info@chinfield.com") (lit "---")
         (lit "Lo siento") trim retrieve_none generate_down
         (lit " dosis ") (lit "s1") 3 = inr (reply r)
    /\ final r = HANDOFF NO_DOCUMENTS
    /\ needs_human (reply r) = true
    /\ num_docs (reply r) = 0.
Proof.
  apply (zero_passages_handoff (13 # 20) (lit "info@chinfield.com") (lit "---")
           (lit "Lo siento") trim retrieve_none generate_down
           (lit " dosis ") (lit "s1") 3).
  - vm_compute. discriminate.
  - reflexivity.
Defined.

(** C6.  A query that is empty after trimming makes [answer_query] fail
    with InvalidInputError, and no response is produced; no other error
    leaves [answer_query]; when the Retriever raises, or the Answer
    Generator raises or reports a failure, the result is a response with
    [needs_human] set. *)
Theorem invalid_input_only_error
  (threshold : Q) (contact delim apology : text) (strip : text -> text)
  (retrieve : text -> nat -> stage (list RetrievedPassage))
  (generate : text -> list RetrievedPassage -> stage GenerationResult)
  (query sid : text) (k : nat) :
  let result :=
    answer_query threshold contact delim apology strip retrieve generate
      query sid k in
  (strip query = [] <-> result = inl InvalidInputError)
  /\ (forall e, result = inl e -> e = InvalidInputError)
  /\ (strip query <> [] ->
      exists resp,
        result = inr resp
        /\ ((exists e, retrieve query k = Raised e) -> needs_human resp = true)
        /\ (forall ps, retrieve query k = Returned ps ->
              (exists e, generate query ps = Raised e)
              \/ (exists g, generate query ps = Returned g
                            /\ succeeded g = false) ->
              needs_human resp = true)).
Proof.
  unfold answer_query, run_query. cbv zeta.
  destruct (strip query) as [|c q'] eqn:Es.
  - split; [split; reflexivity|]. split; [|congruence].
    intros e H. inversion H. reflexivity.
  - destruct (retrieve query k) as [e0|ps0] eqn:Er; simpl.
    + split; [split; intros H; discriminate|].
      split; [intros e H; discriminate|].
      intros _. eexists. split; [reflexivity|]. split.
      * intros _. reflexivity.
      * intros ps H. discriminate.
    + split; [split; intros H; discriminate|].
      split; [intros e H; discriminate|].
      intros _. eexists. split; [reflexivity|]. split.
      * intros [e H]. discriminate.
      * intros ps H G. inversion H; subst ps0.
        apply PipelineFacts.decide_generation_fails. exact G.
Qed.

(** C7.  When the mean score of the retrieved passages is below the
    threshold, or the Confidence Gate reports [sufficient] false, the
    Answer Generator is not called while the query is handled. *)
Theorem generator_not_invoked
  (threshold : Q) (contact delim apology : text) (strip : text -> text)
  (retrieve : text -> nat -> stage (list RetrievedPassage))
  (generate : text -> list RetrievedPassage -> stage GenerationResult)
  (query sid : text) (k : nat) (passages : list RetrievedPassage) :
  strip query <> [] ->
  retrieve query k = Returned passages ->
  (mean_score (assess threshold passages) < threshold)%Q
  \/ sufficient (assess threshold passages) = false ->
  exists r,
    run_query threshold contact delim apology strip retrieve generate
      query sid k = inr r
    /\ generator_calls (calls r) = 0
    /\ needs_human (reply r) = true.
Proof.
  intros Hq Hr H.
  assert (sufficient (assess threshold passages) = false) as Hs.
  { destruct H as [H|H]; [|exact H].
    apply PipelineFacts.below_threshold. exact H. }
  unfold run_query. destruct (strip query) as [|c q']; [congruence|].
  rewrite Hr. eexists. split; [reflexivity|].
  rewrite (PipelineFacts.decide_insufficient threshold contact delim apology
             generate query sid passages _ Hs).
  split; reflexivity.
Qed.

Lemma generator_not_invoked_witness :
  exists r,
    run_query (13 # 20) (lit "info@chinfield.com") (lit "---") (lit "Lo siento")
      trim retrieve_weak generate_down (lit "clima") (lit "s1") 3 = inr r
    /\ generator_calls (calls r) = 0
    /\ needs_human (reply r) = true.
Proof.
  apply (generator_not_invoked (13 # 20) (lit "info@chinfield.com") (lit "---")
           (lit "Lo siento") trim retrieve_weak generate_down
           (lit "clima") (lit "s1") 3 weak_passages).
  - vm_compute. discriminate.
  - reflexivity.
  - left. vm_compute. reflexivity.
Defined.

Lemma invalid_input_only_error_witness :
  answer_query (13 # 20) (lit "info@chinfield.com") (lit "---") (lit "Lo siento")
    trim retrieve_none generate_down (lit "   ") (lit "s1") 3
  = inl InvalidInputError.
Proof.
  apply (proj1 (invalid_input_only_error (13 # 20) (lit "info@chinfield.com")
                  (lit "---") (lit "Lo siento") trim retrieve_none
                  generate_down (lit "   ") (lit "s1") 3)).
  vm_compute. reflexivity.
Defined.

(* ================================================================= *)
(** ** Facts about debounce *)

Module DebounceFacts.

Import Debounce.

Section WithArgs.

Variable A : Type.
Variable wait : Z.

Local Abbreviation run' := (run A wait).
Local Abbreviation timer' := (timer A).

Lemma run_snoc evs ev : run' (evs ++ [ev]) = step A wait (run' evs) ev.
Proof. unfold run. rewrite fold_left_app. reflexivity. Qed.

Lemma last_call_snoc evs ev :
  last_call A (evs ++ [ev])
  = match ev with
    | Call _ now args => Some (now, args)
    | Fire _ _ _ => last_call A evs
    end.
Proof.
  induction evs as [|e evs IH]; simpl.
  - destruct ev; reflexivity.
  - rewrite IH. destruct ev; [reflexivity|].
    destruct (last_call A evs); reflexivity.
Qed.

(** At most one timer is pending: the one set by the latest call, which
    [timeout] names. *)
Definition Inv (evs : list (event A)) (s : state A) : Prop :=
  next_id A s = List.length (filter (is_call A) evs)
  /\ (timers A s = []
      \/ exists tc a i,
           last_call A evs = Some (tc, a)
           /\ timers A s = [ {| t_id := i; t_due := (tc + wait)%Z; t_args := a |} ]
           /\ timeout A s = Some i /\ S i = next_id A s).

Lemma clear_own (t : timer') :
  clearTimeout A (Some (t_id A t)) [t] = [].
Proof. simpl. rewrite Nat.eqb_refl. reflexivity. Qed.

Lemma one_timer_pending evs : Inv evs (run' evs).
Proof.
  induction evs as [|ev evs IH] using rev_ind.
  - split; [reflexivity | left; reflexivity].
  - rewrite run_snoc. destruct IH as [N IH]. unfold Inv.
    rewrite filter_app, length_app, last_call_snoc.
    destruct ev as [now args | now i]; simpl.
    + split; [rewrite N; lia|]. right. exists now, args, (next_id A (run' evs)).
      split; [reflexivity|]. split; [|split; reflexivity].
      destruct IH as [E|[tc [a [i [_ [E [T _]]]]]]]; rewrite E.
      * destruct (timeout A (run' evs)); reflexivity.
      * rewrite T. simpl. rewrite Nat.eqb_refl. reflexivity.
    + unfold fire.
      destruct IH as [E|[tc [a [j [L [E [T Sj]]]]]]]; rewrite E; simpl.
      * split; [rewrite N; lia | left; exact E].
      * destruct (Nat.eqb j i) eqn:Ej; simpl.
        -- destruct (tc + wait <=? now)%Z; simpl.
           ++ split; [rewrite N; lia|]. left.
              destruct (timeout A (run' evs)); reflexivity.
           ++ split; [rewrite N; lia|]. right. exists tc, a, j. auto.
        -- split; [rewrite N; lia|]. right. exists tc, a, j. auto.
Qed.

(** What a timer that fires does. *)
Lemma fire_cases evs now i :
  let s := run' evs in
  fire A now i s = s
  \/ exists tc a,
       last_call A evs = Some (tc, a) /\ (tc + wait <= now)%Z
       /\ S i = List.length (filter (is_call A) evs)
       /\ invoked A (fire A now i s) = invoked A s ++ [(now, a)]
       /\ timers A (fire A now i s) = [].
Proof.
  intros s. destruct (one_timer_pending evs) as [N I]. fold s in N, I.
  unfold fire. destruct I as [E|[tc [a [j [L [E [T Sj]]]]]]]; rewrite E; cbn.
  - left. reflexivity.
  - destruct (Nat.eqb j i) eqn:Ej; [|left; reflexivity]. cbn.
    destruct (tc + wait <=? now)%Z eqn:Ed; [|left; reflexivity].
    right. exists tc, a. apply Nat.eqb_eq in Ej. subst j.
    split; [exact L|]. split; [apply Z.leb_le; exact Ed|].
    split; [rewrite <- N; exact Sj|]. cbn.
    split; [reflexivity|]. rewrite ?Nat.eqb_refl. cbn.
    destruct (timeout A s); reflexivity.
Qed.

Definition call_of (c : Z * A) : event A := Call A (fst c) (snd c).
Definition fire_of (f : Z * nat) : event A := Fire A (fst f) (snd f).

Lemma calls_invoke_nothing cs :
  invoked A (run' (map call_of cs)) = []
  /\ List.length (timers A (run' (map call_of cs))) <= 1.
Proof.
  split.
  - induction cs as [|c cs IH] using rev_ind; [reflexivity|].
    rewrite map_app. simpl. rewrite run_snoc. simpl. exact IH.
  - destruct (one_timer_pending (map call_of cs)) as [_ [E|[tc [a [i [_ [E _]]]]]]];
      rewrite E; simpl; lia.
Qed.

Lemma fires_invoke_once fs : forall s,
  List.length (invoked A s) + List.length (timers A s) <= 1 ->
  List.length (invoked A (fold_left (step A wait) (map fire_of fs) s))
  + List.length (timers A (fold_left (step A wait) (map fire_of fs) s)) <= 1.
Proof.
  induction fs as [|f fs IH]; intros s H; simpl; [exact H|].
  apply IH. unfold fire.
  assert (clearTimeout A (timeout A s) [] = []) as C
    by (destruct (timeout A s); reflexivity).
  destruct (timers A s) as [|t [|u ts]] eqn:E; cbn in *;
    [rewrite E; cbn; lia | | lia].
  destruct (Nat.eqb (t_id A t) (snd f)) eqn:Ei; cbn;
    [|rewrite E; cbn; lia].
  destruct (t_due A t <=? fst f)%Z; cbn; [|rewrite E; cbn; lia].
  rewrite ?Ei. cbn. rewrite C, length_app. cbn. lia.
Qed.

End WithArgs.

End DebounceFacts.

(* ================================================================= *)
(** ** Facts about trimming and plain text *)

Module TextFacts.

Lemma trim_start_split s :
  exists p, s = p ++ trim_start s /\ forallb is_js_space p = true.
Proof.
  induction s as [|c s [p [E F]]]; simpl.
  - exists []. split; reflexivity.
  - destruct (is_js_space c) eqn:Ec.
    + exists (c :: p). simpl. rewrite Ec, F. split; [congruence | reflexivity].
    + exists []. split; reflexivity.
Qed.

Lemma trim_start_head s c r :
  trim_start s = c :: r -> is_js_space c = false.
Proof.
  induction s as [|x s IH]; simpl; [discriminate|].
  destruct (is_js_space x) eqn:Ex; [exact IH|].
  intros H. inversion H; subst. exact Ex.
Qed.

Lemma trim_start_blank s :
  forallb is_js_space s = true -> trim_start s = [].
Proof.
  induction s as [|x s IH]; simpl; [reflexivity|].
  intros H. apply andb_true_iff in H. destruct H as [Hx Hs].
  rewrite Hx. apply IH. exact Hs.
Qed.

Lemma trim_start_fixed c r :
  is_js_space c = false -> trim_start (c :: r) = c :: r.
Proof. intros H. simpl. rewrite H. reflexivity. Qed.

Lemma trim_blank s : forallb is_js_space s = true -> trim s = [].
Proof.
  intros H. unfold trim. rewrite (trim_start_blank s H). reflexivity.
Qed.

(** The first and the last character of a trimmed text are no white
    space. *)
Lemma trim_ends v c r :
  trim v = c :: r ->
  is_js_space c = false /\ is_js_space (last (c :: r) c) = false.
Proof.
  unfold trim. intros H.
  set (a := trim_start v) in *. set (b := trim_start (rev a)) in *.
  assert (b = rev (c :: r)) as Eb.
  { rewrite <- H. rewrite rev_involutive. reflexivity. }
  split.
  - destruct (trim_start_split (rev a)) as [p [E _]]. fold b in E.
    assert (a = (c :: r) ++ rev p) as Ea.
    { rewrite <- (rev_involutive a), E, rev_app_distr, Eb, rev_involutive.
      reflexivity. }
    apply (trim_start_head v c (r ++ rev p)). fold a. exact Ea.
  - simpl rev in Eb.
    destruct b as [|x b'] eqn:Hb.
    { destruct (rev r); discriminate. }
    assert (is_js_space x = false) as Hx.
    { apply (trim_start_head (rev a) x b'). exact Hb. }
    assert (c :: r = rev b' ++ [x]) as E.
    { rewrite <- (rev_involutive (c :: r)). simpl rev. rewrite <- Eb.
      reflexivity. }
    rewrite E, last_last. exact Hx.
Qed.

Lemma trim_idempotent v : trim (trim v) = trim v.
Proof.
  destruct (trim v) as [|c r] eqn:E; [reflexivity|].
  destruct (trim_ends v c r E) as [Hc Hl].
  unfold trim. rewrite (trim_start_fixed c r Hc).
  destruct (rev (c :: r)) as [|x b'] eqn:Er.
  { apply (f_equal (@rev char)) in Er. rewrite rev_involutive in Er.
    discriminate. }
  assert (c :: r = rev b' ++ [x]) as E'.
  { rewrite <- (rev_involutive (c :: r)), Er. reflexivity. }
  rewrite E', last_last in Hl.
  rewrite (trim_start_fixed x b' Hl). rewrite <- Er. apply rev_involutive.
Qed.

(** A character that [sanitizeHTML] neither escapes nor replaces. *)
Definition plain_char (c : char) : bool :=
  (negb (N.eqb c amp) && negb (N.eqb c nbsp) && negb (N.eqb c lt)
   && negb (N.eqb c gt) && negb (N.eqb c nl))%bool.

Lemma plain_char_cases c :
  plain_char c = true ->
  N.eqb c amp = false /\ N.eqb c nbsp = false /\ N.eqb c lt = false
  /\ N.eqb c gt = false /\ N.eqb c nl = false.
Proof.
  unfold plain_char. intros H.
  repeat (apply andb_true_iff in H; destruct H as [H ?]).
  repeat split;
    match goal with
    | X : negb ?b = true |- ?b = false => destruct b; [discriminate|reflexivity]
    end.
Qed.

Lemma escapeText_plain s : forallb plain_char s = true -> escapeText s = s.
Proof.
  induction s as [|c s IH]; simpl; [reflexivity|].
  intros H. apply andb_true_iff in H. destruct H as [Hc Hs].
  destruct (plain_char_cases c Hc) as [A [B [C [D _]]]].
  unfold escape_char. rewrite A, B, C, D. simpl. f_equal. apply IH. exact Hs.
Qed.

Lemma plain_without k s :
  (forall c, plain_char c = true -> N.eqb c k = false) ->
  forallb plain_char s = true -> ~ In k s.
Proof.
  intros Hk H I. rewrite forallb_forall in H.
  specialize (Hk k (H k I)). rewrite N.eqb_refl in Hk. discriminate.
Qed.

Lemma replace_all_absent (m : matcher) (k : char) :
  (forall c s, c <> k -> m (c :: s) = None) ->
  forall s, ~ In k s -> replace_all m s = s.
Proof.
  intros T s N.
  rewrite <- (app_nil_r s) at 1.
  rewrite (replace_all_copy m k T s [] N). simpl. apply app_nil_r.
Qed.

End TextFacts.

(* ================================================================= *)
(** ** Facts about a whole exchange of the responsive widget *)

Module ExchangeFacts.

Import Widget WidgetFacts WidgetPaths WidgetCalls.

Definition awaiting_json (i : option msgid) (w : World) : World :=
  {| st := st w; dom := dom w; requests := requests w;
     pending := [AwaitJson i] |}.

Lemma settle_ok status e w i :
  pending w = [AwaitFetch i] ->
  settle 0 (FetchResponse true status) e w = awaiting_json i w.
Proof.
  intros P. unfold settle. rewrite P. reflexivity.
Qed.

Lemma settle_data data e w i :
  pending w = [AwaitJson i] ->
  settle 0 (JsonData data) e w = on_data i data e (no_pending w).
Proof.
  intros P. unfold settle. rewrite P. reflexivity.
Qed.

Lemma settle_bad_json e w i :
  pending w = [AwaitJson i] ->
  settle 0 JsonRejected e w = catch_finally i e (no_pending w).
Proof.
  intros P. unfold settle. rewrite P. reflexivity.
Qed.

Lemma remove_first_absent i ms : fresh i ms -> remove_first i ms = ms.
Proof.
  induction 1 as [|m ms Hm Hms IH]; simpl; [reflexivity|].
  rewrite Hm, IH. reflexivity.
Qed.

(** Removing the loading indicator from the chat a call has started. *)
Lemma remove_loading e1 e2 text ms :
  fresh (id_of e2) (ms ++ [shown e1 user text]) ->
  remove_first (id_of e2) (ms ++ [shown e1 user text; loading e2])
  = ms ++ [shown e1 user text].
Proof.
  intros F.
  change (ms ++ [shown e1 user text; loading e2])
    with (ms ++ [shown e1 user text] ++ loading e2 :: []).
  rewrite app_assoc, remove_first_fresh.
  - apply app_nil_r.
  - exact F.
  - unfold has_id, loading. simpl. apply msgid_eqb_refl.
Qed.

(** The state in which a started call waits for its response. *)
Record started (API_URL : jsstring) (w : World) (e1 e2 : entropy)
  (v : jsstring) (ms : list message) (w1 : World) : Prop := {
  started_messages :
    chatMessages (dom w1) = Some (ms ++ [shown e1 user (trim v); loading e2]);
  started_pending : pending w1 = [AwaitFetch (Some (id_of e2))];
  started_waiting : isWaitingResponse (st w1) = true;
  started_input : chatInput (dom w1) = Some [];
  started_requests :
    requests w1
    = requests w
      ++ [ {| url := API_URL ++ lit "/api/chat"; method := lit "POST";
              content_type := lit "application/json";
              body := [ (lit "message", trim v);
                        (lit "session_id", sessionId (st w)) ] |} ]
}.

Lemma start_call API_URL w e1 e2 v ms :
  chatInput (dom w) = Some v -> trim v <> [] ->
  isWaitingResponse (st w) = false -> pending w = [] ->
  chatMessages (dom w) = Some ms ->
  started API_URL w e1 e2 v ms (sendMessage_start API_URL e1 e2 w).
Proof.
  intros Ev Et Ew Ep Em.
  destruct (sendMessage_start_messages API_URL e1 e2 w v ms Ev Et Ew Em)
    as [M [P [W I]]].
  rewrite Ep in P.
  destruct (sendMessage_start_cases API_URL e1 e2 w) as [[[F|F] _]|H].
  - unfold read_message in F. rewrite Ev in F. simpl in F.
    destruct (trim v); [congruence | discriminate].
  - congruence.
  - destruct H as [v' [i [Ev' [_ [_ [_ [_ [R _]]]]]]]].
    rewrite Ev in Ev'. inversion Ev'; subst v'.
    constructor; assumption.
Qed.

(** How a call ends on the [catch] path once the response is in. *)
Lemma end_in_catch API_URL w e1 e2 e3 v ms w1 :
  started API_URL w e1 e2 v ms w1 ->
  fresh (id_of e2) (ms ++ [shown e1 user (trim v)]) ->
  let w' := catch_finally (Some (id_of e2)) e3 (no_pending w1) in
  chatMessages (dom w')
  = Some (ms ++ [shown e1 user (trim v); shown e3 bot fallback_text])
  /\ isWaitingResponse (st w') = false
  /\ pending w' = []
  /\ requests w' = requests w1.
Proof.
  intros [M P W I R] F.
  assert (chatMessages (dom (no_pending w1))
          = Some (ms ++ [shown e1 user (trim v); loading e2])) as M0 by exact M.
  destruct (catch_finally_messages (Some (id_of e2)) e3 (no_pending w1) _ M0)
    as [A B].
  destruct (catch_finally_ended (Some (id_of e2)) e3 (no_pending w1))
    as [_ [Rq [C _]]].
  cbv zeta. rewrite A, B, C, Rq. simpl removed.
  rewrite (remove_loading e1 e2 (trim v) ms F), <- app_assoc.
  repeat split.
Qed.

End ExchangeFacts.

(* ================================================================= *)
(** ** Facts about the value of the input *)

Module PageFacts.

Definition no_cr (c : char) : bool := negb (N.eqb c cr).
Definition no_newline (c : char) : bool := negb (N.eqb c nl || N.eqb c cr).

Lemma strip_newlines_plain v :
  forallb no_newline v = true -> strip_newlines v = v.
Proof.
  unfold strip_newlines. induction v as [|c v IH]; intros H; simpl in *.
  - reflexivity.
  - apply andb_prop in H. destruct H as [Hc Hv]. fold (no_newline c).
    rewrite Hc, (IH Hv). reflexivity.
Qed.

Lemma normalize_newlines_prefix a : forall v,
  forallb no_cr a = true ->
  normalize_newlines (a ++ v) = a ++ normalize_newlines v.
Proof.
  induction a as [|c a IH]; intros v H; simpl in *; [reflexivity|].
  apply andb_prop in H. destruct H as [Hc Ha]. unfold no_cr in Hc.
  destruct (N.eqb c cr); [discriminate Hc|].
  rewrite (IH v Ha). reflexivity.
Qed.

Lemma normalize_newlines_plain v :
  forallb no_cr v = true -> normalize_newlines v = v.
Proof.
  intros H. rewrite <- (app_nil_r v) at 1.
  rewrite (normalize_newlines_prefix v [] H). simpl. apply app_nil_r.
Qed.

Lemma no_newline_no_cr v :
  forallb no_newline v = true -> forallb no_cr v = true.
Proof.
  induction v as [|c v IH]; simpl; [reflexivity|]. intros H.
  apply andb_prop in H. destruct H as [Hc Hv]. rewrite (IH Hv).
  unfold no_newline in Hc. unfold no_cr.
  destruct (N.eqb c cr); [rewrite orb_true_r in Hc; discriminate Hc|].
  reflexivity.
Qed.

(** A text without line feed and carriage return is kept as it is. *)
Lemma assigned_plain k v : forallb no_newline v = true -> assigned k v = v.
Proof.
  intros H. destruct k; simpl.
  - apply strip_newlines_plain. exact H.
  - apply normalize_newlines_plain. apply no_newline_no_cr. exact H.
Qed.

(** The step of [normalize_newlines], for induction on the length. *)
Lemma normalize_newlines_cases v :
  (v = [] /\ normalize_newlines v = [])
  \/ (exists c v', v = c :: v' /\ c <> cr
                   /\ normalize_newlines v = c :: normalize_newlines v')
  \/ (v = [cr] /\ normalize_newlines v = [nl])
  \/ (exists v', v = cr :: nl :: v'
                 /\ normalize_newlines v = nl :: normalize_newlines v')
  \/ (exists c v', v = cr :: c :: v' /\ c <> nl
                   /\ normalize_newlines v = nl :: normalize_newlines (c :: v')).
Proof.
  destruct v as [|c v]; [left; split; reflexivity|]. right.
  destruct (N.eqb_spec c cr) as [->|Nc].
  - right. destruct v as [|c' v]; [left; split; reflexivity|]. right.
    destruct (N.eqb_spec c' nl) as [->|Nn].
    + left. exists v. split; reflexivity.
    + right. exists c', v. split; [reflexivity|]. split; [exact Nn|].
      change (normalize_newlines (cr :: c' :: v))
        with (nl :: if N.eqb c' nl then normalize_newlines v
                    else normalize_newlines (c' :: v)).
      destruct (N.eqb_spec c' nl); [contradiction | reflexivity].
  - left. exists c, v. split; [reflexivity|]. split; [exact Nc|].
    simpl. destruct (N.eqb_spec c cr); [contradiction | reflexivity].
Qed.

Lemma normalize_newlines_suffix q :
  q <> nl -> q <> cr ->
  forall n v, List.length v <= n ->
  normalize_newlines (v ++ [q]) = normalize_newlines v ++ [q].
Proof.
  intros Qn Qc.
  assert (normalize_newlines [q] = [q]) as B.
  { simpl. destruct (N.eqb_spec q cr); [contradiction | reflexivity]. }
  induction n as [|n IH]; intros v Hn.
  - destruct v; simpl in Hn; [exact B | lia].
  - destruct (normalize_newlines_cases v)
      as [[-> _]|[[c [v' [-> [Nc E]]]]|[[-> _]|[[v' [-> E]]|[c [v' [-> [Nc E]]]]]]]].
    + exact B.
    + rewrite E. simpl in Hn. simpl.
      destruct (N.eqb_spec c cr); [contradiction|].
      rewrite IH by lia. reflexivity.
    + simpl. destruct (N.eqb_spec q nl); [contradiction|].
      destruct (N.eqb_spec q cr); [contradiction | reflexivity].
    + rewrite E. simpl in Hn. simpl. rewrite IH by lia. reflexivity.
    + rewrite E. simpl in Hn.
      change ((cr :: c :: v') ++ [q]) with (cr :: c :: (v' ++ [q])).
      change (normalize_newlines (cr :: c :: v' ++ [q]))
        with (nl :: if N.eqb c nl then normalize_newlines (v' ++ [q])
                    else normalize_newlines (c :: v' ++ [q])).
      destruct (N.eqb_spec c nl); [contradiction|].
      change (c :: v' ++ [q]) with ((c :: v') ++ [q]).
      rewrite IH by (simpl; lia). reflexivity.
Qed.

Lemma filter_keeps (f g : char -> bool) v :
  forallb f v = true -> forallb f (filter g v) = true.
Proof.
  induction v as [|c v IH]; simpl; [reflexivity|]. intros H.
  apply andb_prop in H. destruct H as [Hc Hv].
  destruct (g c); simpl; [rewrite Hc|]; apply IH; exact Hv.
Qed.

Lemma normalize_newlines_blank : forall n v,
  List.length v <= n -> forallb is_js_space v = true ->
  forallb is_js_space (normalize_newlines v) = true.
Proof.
  induction n as [|n IH]; intros v Hn H.
  - destruct v; simpl in Hn; [reflexivity | lia].
  - destruct (normalize_newlines_cases v)
      as [[-> E]|[[c [v' [-> [Nc E]]]]|[[-> E]|[[v' [-> E]]|[c [v' [-> [Nc E]]]]]]]];
      rewrite E; simpl in Hn; try reflexivity.
    + simpl in H. apply andb_prop in H. destruct H as [Hc Hv]. simpl.
      rewrite Hc. apply IH; [lia | exact Hv].
    + simpl in H. simpl. apply IH; [lia | exact H].
    + change (forallb is_js_space (nl :: normalize_newlines (c :: v')))
        with (is_js_space nl
              && forallb is_js_space (normalize_newlines (c :: v')))%bool.
      apply andb_true_intro. split; [reflexivity|].
      apply IH; [simpl; lia|].
      change (forallb is_js_space (cr :: c :: v'))
        with (is_js_space cr && forallb is_js_space (c :: v'))%bool in H.
      apply andb_prop in H. destruct H as [_ H]. exact H.
Qed.

(** A blank text stays blank in the input. *)
Lemma assigned_blank k v :
  forallb is_js_space v = true -> forallb is_js_space (assigned k v) = true.
Proof.
  intros H. destruct k; simpl.
  - apply filter_keeps. exact H.
  - apply (normalize_newlines_blank (List.length v)); [apply le_n | exact H].
Qed.

End PageFacts.

(* ================================================================= *)
(** ** Further properties of the responsive widget *)

Import WidgetPaths.

Definition e_user : entropy := {| now := 5; random := 7 |}.
Definition e_loading : entropy := {| now := 5; random := 8 |}.
Definition e_reply : entropy := {| now := 9; random := 3 |}.

Lemma example_fresh :
  fresh (id_of e_loading) ([] ++ [shown e_user user (trim (lit " hola "))]).
Proof. repeat constructor. Qed.

(** X1.  A call of the responsive widget that fails at [fetch] (network
    error, or a status that is not ok), in a chat where no other element
    carries the id of the loading indicator: the chat ends with the message
    of the user followed by the fallback message, which is shown as it is
    written and names info@chinfield.com; the loading indicator is gone,
    the flag is reset and no call is left suspended. *)
Theorem failed_fetch_shows_fallback
  (API_URL : jsstring) (w : World) (e1 e2 e3 : entropy) (v : jsstring)
  (ms : list message) (o : outcome) :
  chatInput (dom w) = Some v -> trim v <> [] ->
  isWaitingResponse (st w) = false -> pending w = [] ->
  chatMessages (dom w) = Some ms ->
  fresh (id_of e2) (ms ++ [shown e1 user (trim v)]) ->
  o = FetchRejected \/ (exists status, o = FetchResponse false status) ->
  chatMessages (dom (run API_URL w [Send e1 e2; Settle 0 o e3]))
  = Some (ms ++ [shown e1 user (trim v); shown e3 bot fallback_text])
  /\ m_content (shown e3 bot fallback_text) = InnerHTML fallback_text
  /\ contains (lit "info@chinfield.com") fallback_text = true
  /\ isWaitingResponse (st (run API_URL w [Send e1 e2; Settle 0 o e3])) = false
  /\ pending (run API_URL w [Send e1 e2; Settle 0 o e3]) = [].
Proof.
  intros Ev Et Ew Ep Em F Ho.
  pose proof (ExchangeFacts.start_call API_URL w e1 e2 v ms Ev Et Ew Ep Em) as S.
  change (run API_URL w [Send e1 e2; Settle 0 o e3])
    with (settle 0 o e3 (sendMessage_start API_URL e1 e2 w)).
  rewrite (WidgetCalls.settle_failure o e3 _ _
             (ExchangeFacts.started_pending _ _ _ _ _ _ _ S) Ho).
  destruct (ExchangeFacts.end_in_catch API_URL w e1 e2 e3 v ms _ S F)
    as [A [B [C _]]].
  destruct (fallback_shown e3) as [D [E _]].
  repeat split; assumption.
Qed.

Lemma failed_fetch_shows_fallback_witness :
  chatMessages
    (dom (run example_url example_world
            [Send e_user e_loading; Settle 0 (FetchResponse false 500) e_reply]))
  = Some ([] ++ [shown e_user user (trim (lit " hola "));
                 shown e_reply bot fallback_text])
  /\ m_content (shown e_reply bot fallback_text) = InnerHTML fallback_text
  /\ contains (lit "info@chinfield.com") fallback_text = true
  /\ isWaitingResponse
       (st (run example_url example_world
              [Send e_user e_loading; Settle 0 (FetchResponse false 500) e_reply]))
     = false
  /\ pending
       (run example_url example_world
          [Send e_user e_loading; Settle 0 (FetchResponse false 500) e_reply])
     = [].
Proof.
  apply (failed_fetch_shows_fallback example_url example_world e_user e_loading
           e_reply (lit " hola ") [] (FetchResponse false 500)).
  - reflexivity.
  - vm_compute. discriminate.
  - reflexivity.
  - reflexivity.
  - reflexivity.
  - exact example_fresh.
  - right. exists 500%N. reflexivity.
Defined.

(** X2.  A call of the responsive widget that succeeds (an ok response
    whose body parses to an object), in a chat where no other element
    carries the id of the loading indicator: the chat ends with the message
    of the user followed by the answer, each passed through
    [sanitizeHTML]; an absent [answer] gives an empty message.  The input
    is empty, one request was sent, the flag is reset and no call is left
    suspended. *)
Theorem successful_call_shows_answer
  (API_URL : jsstring) (w : World) (e1 e2 e0 e3 : entropy) (v : jsstring)
  (ms : list message) (status : N) (d : api_fields) :
  chatInput (dom w) = Some v -> trim v <> [] ->
  isWaitingResponse (st w) = false -> pending w = [] ->
  chatMessages (dom w) = Some ms ->
  fresh (id_of e2) (ms ++ [shown e1 user (trim v)]) ->
  let w' := run API_URL w [ Send e1 e2;
                            Settle 0 (FetchResponse true status) e0;
                            Settle 0 (JsonData (DataObject d)) e3 ] in
  chatMessages (dom w')
  = Some (ms ++ [shown e1 user (trim v); shown e3 bot (text_of (Widget.answer d))])
  /\ isWaitingResponse (st w') = false
  /\ pending w' = []
  /\ List.length (requests w') = S (List.length (requests w)).
Proof.
  intros Ev Et Ew Ep Em F.
  pose proof (ExchangeFacts.start_call API_URL w e1 e2 v ms Ev Et Ew Ep Em) as S.
  change (run API_URL w [ Send e1 e2; Settle 0 (FetchResponse true status) e0;
                          Settle 0 (JsonData (DataObject d)) e3 ])
    with (settle 0 (JsonData (DataObject d)) e3
            (settle 0 (FetchResponse true status) e0
               (sendMessage_start API_URL e1 e2 w))).
  destruct S as [M P W I R].
  rewrite (ExchangeFacts.settle_ok status e0 _ _ P).
  rewrite ExchangeFacts.settle_data with (i := Some (id_of e2)) by reflexivity.
  set (w2 := WidgetCalls.no_pending (ExchangeFacts.awaiting_json (Some (id_of e2))
                           (sendMessage_start API_URL e1 e2 w))).
  assert (chatMessages (dom w2)
          = Some (ms ++ [shown e1 user (trim v); loading e2])) as M2 by exact M.
  destruct (on_data_messages (Some (id_of e2)) d e3 w2 _ M2) as [A B].
  destruct (WidgetFacts.on_data_ended (Some (id_of e2)) (DataObject d) e3 w2)
    as [_ [Rq [C _]]].
  cbv zeta. rewrite A, B, C, Rq. simpl removed.
  rewrite (ExchangeFacts.remove_loading e1 e2 (trim v) ms F), <- app_assoc.
  repeat split. simpl. rewrite R, length_app. simpl. lia.
Qed.

Lemma successful_call_shows_answer_witness :
  let w' := run example_url example_world
              [ Send e_user e_loading;
                Settle 0 (FetchResponse true 200) e_reply;
                Settle 0 (JsonData (DataObject handoff_response)) e_reply ] in
  chatMessages (dom w')
  = Some ([] ++ [shown e_user user (trim (lit " hola "));
                 shown e_reply bot (text_of (Widget.answer handoff_response))])
  /\ isWaitingResponse (st w') = false
  /\ pending w' = []
  /\ List.length (requests w') = S (List.length (requests example_world)).
Proof.
  apply (successful_call_shows_answer example_url example_world e_user e_loading
           e_reply e_reply (lit " hola ") [] 200 handoff_response).
  - reflexivity.
  - vm_compute. discriminate.
  - reflexivity.
  - reflexivity.
  - reflexivity.
  - exact example_fresh.
Defined.

(** X3.  An ok response whose body is not JSON, or is the JSON value
    [null], ends like a failed call: the loading indicator is removed, the
    fallback message is appended and the flag is reset. *)
Theorem unreadable_body_shows_fallback
  (API_URL : jsstring) (w : World) (e1 e2 e0 e3 : entropy) (v : jsstring)
  (ms : list message) (status : N) (o : outcome) :
  chatInput (dom w) = Some v -> trim v <> [] ->
  isWaitingResponse (st w) = false -> pending w = [] ->
  chatMessages (dom w) = Some ms ->
  fresh (id_of e2) (ms ++ [shown e1 user (trim v)]) ->
  o = JsonRejected \/ o = JsonData DataNull ->
  let w' := run API_URL w [ Send e1 e2;
                            Settle 0 (FetchResponse true status) e0;
                            Settle 0 o e3 ] in
  chatMessages (dom w')
  = Some (ms ++ [shown e1 user (trim v); shown e3 bot fallback_text])
  /\ isWaitingResponse (st w') = false
  /\ pending w' = [].
Proof.
  intros Ev Et Ew Ep Em F Ho.
  pose proof (ExchangeFacts.start_call API_URL w e1 e2 v ms Ev Et Ew Ep Em) as S.
  change (run API_URL w [ Send e1 e2; Settle 0 (FetchResponse true status) e0;
                          Settle 0 o e3 ])
    with (settle 0 o e3
            (settle 0 (FetchResponse true status) e0
               (sendMessage_start API_URL e1 e2 w))).
  rewrite (ExchangeFacts.settle_ok status e0 _ _
             (ExchangeFacts.started_pending _ _ _ _ _ _ _ S)).
  destruct Ho as [-> | ->].
  - rewrite ExchangeFacts.settle_bad_json with (i := Some (id_of e2))
      by reflexivity.
    destruct (ExchangeFacts.end_in_catch API_URL w e1 e2 e3 v ms _ S F)
      as [A [B [C _]]].
    cbv zeta. repeat split; assumption.
  - rewrite ExchangeFacts.settle_data with (i := Some (id_of e2)) by reflexivity.
    destruct S as [M P W I R].
    set (w2 := WidgetCalls.no_pending (ExchangeFacts.awaiting_json (Some (id_of e2))
                             (sendMessage_start API_URL e1 e2 w))).
    assert (chatMessages (dom w2)
            = Some (ms ++ [shown e1 user (trim v); loading e2])) as M2 by exact M.
    unfold on_data.
    pose proof (removeMessage_messages (Some (id_of e2)) w2 _ M2) as M3.
    simpl removed in M3.
    rewrite (ExchangeFacts.remove_loading e1 e2 (trim v) ms F) in M3.
    destruct (catch_finally_messages (Some (id_of e2)) e3
                (removeMessage (Some (id_of e2)) w2) _ M3) as [A B].
    destruct (WidgetFacts.catch_finally_ended (Some (id_of e2)) e3
                (removeMessage (Some (id_of e2)) w2)) as [_ [_ [C _]]].
    destruct (WidgetFacts.removeMessage_same (Some (id_of e2)) w2)
      as [_ [_ [C' _]]].
    cbv zeta. rewrite A, B, C, C'. simpl removed.
    rewrite (ExchangeFacts.remove_first_absent _ _ F), <- app_assoc.
    repeat split.
Qed.

Lemma unreadable_body_shows_fallback_witness :
  let w' := run example_url example_world
              [ Send e_user e_loading;
                Settle 0 (FetchResponse true 200) e_reply;
                Settle 0 (JsonData DataNull) e_reply ] in
  chatMessages (dom w')
  = Some ([] ++ [shown e_user user (trim (lit " hola "));
                 shown e_reply bot fallback_text])
  /\ isWaitingResponse (st w') = false
  /\ pending w' = [].
Proof.
  apply (unreadable_body_shows_fallback example_url example_world e_user
           e_loading e_reply e_reply (lit " hola ") [] 200 (JsonData DataNull)).
  - reflexivity.
  - vm_compute. discriminate.
  - reflexivity.
  - reflexivity.
  - reflexivity.
  - exact example_fresh.
  - right. reflexivity.
Defined.

(** X4.  Text without [&], [<], [>], the no-break space and the line feed
    passes through [sanitizeHTML] unchanged. *)
Theorem plain_text_unchanged (text : jsstring) :
  forallb TextFacts.plain_char text = true -> sanitizeHTML text = text.
Proof.
  intros H.
  assert (~ In amp text) as Na.
  { apply (TextFacts.plain_without amp text); [|exact H].
    intros c Hc. apply (TextFacts.plain_char_cases c Hc). }
  assert (~ In nl text) as Nn.
  { apply (TextFacts.plain_without nl text); [|exact H].
    intros c Hc. apply (TextFacts.plain_char_cases c Hc). }
  unfold sanitizeHTML. cbv zeta. rewrite (TextFacts.escapeText_plain text H).
  rewrite (TextFacts.replace_all_absent _ nl (literal_trigger nl [] _) text Nn).
  repeat
    match goal with
    | |- context [replace_all (literal ?p ?r) text] =>
        let q := eval cbv in p in
        lazymatch q with
        | ?k :: ?p' =>
            let E := fresh "E" in
            assert (replace_all (literal p r) text = text) as E
              by (apply (TextFacts.replace_all_absent (literal p r) amp);
                  [exact (literal_trigger k p' r) | exact Na]);
            rewrite E; clear E
        end
    | |- context [replace_all anchor_re text] =>
        rewrite (TextFacts.replace_all_absent _ amp
                   SanitizeSafe.anchor_re_trigger text Na)
    end.
  reflexivity.
Qed.

Lemma plain_text_unchanged_witness :
  sanitizeHTML (lit "Dosis: 1 ml cada 50 kg, via subcutanea.")
  = lit "Dosis: 1 ml cada 50 kg, via subcutanea.".
Proof.
  apply (plain_text_unchanged (lit "Dosis: 1 ml cada 50 kg, via subcutanea.")).
  vm_compute. reflexivity.
Defined.

(** X5.  A blank text is never sent.  When the input holds white space
    only, [sendMessage] leaves the world as it is, in both widgets.  The
    public [sendMessage] of the responsive widget, called with a blank
    text, replaces what the input held by that text, as the element keeps
    it, and does nothing else: no request, no message, no change of
    [STATE]. *)
Theorem blank_input_sends_nothing
  (API_URL : jsstring) (e1 e2 : entropy) (w : World) (v : jsstring)
  (t1 t2 : N) (lw : Legacy.World) (w' : World) (draft msg : jsstring) :
  chatInput (dom w) = Some v ->
  forallb is_js_space v = true ->
  forallb is_js_space (Legacy.input lw) = true ->
  chatInput (dom w') = Some draft ->
  forallb is_js_space msg = true ->
  sendMessage_start API_URL e1 e2 w = w
  /\ Legacy.sendMessage_start t1 t2 lw = lw
  /\ api_sendMessage API_URL msg e1 e2 w' = set_input msg w'
  /\ chatInput (dom (api_sendMessage API_URL msg e1 e2 w'))
     = Some (assigned (chatInputKind (dom w')) msg)
  /\ st (api_sendMessage API_URL msg e1 e2 w') = st w'
  /\ requests (api_sendMessage API_URL msg e1 e2 w') = requests w'
  /\ pending (api_sendMessage API_URL msg e1 e2 w') = pending w'
  /\ chatMessages (dom (api_sendMessage API_URL msg e1 e2 w'))
     = chatMessages (dom w').
Proof.
  intros Ev Hv Hl Ed Hm.
  assert (forall w0 x, chatInput (dom w0) = Some x ->
                       forallb is_js_space x = true ->
                       sendMessage_start API_URL e1 e2 w0 = w0) as G.
  { intros w0 x E0 Hx. unfold sendMessage_start, read_message. rewrite E0.
    rewrite (TextFacts.trim_blank x Hx). reflexivity. }
  split; [apply (G w v Ev Hv)|]. split.
  { apply LegacyFacts.legacy_sendMessage_start_guard. left.
    apply TextFacts.trim_blank. exact Hl. }
  assert (chatInput (dom (set_input msg w'))
          = Some (assigned (chatInputKind (dom w')) msg)) as Ei.
  { unfold set_input. rewrite Ed. reflexivity. }
  assert (api_sendMessage API_URL msg e1 e2 w' = set_input msg w') as A.
  { unfold api_sendMessage. rewrite Ed.
    apply (G _ _ Ei). apply PageFacts.assigned_blank. exact Hm. }
  rewrite A. split; [reflexivity|]. split; [exact Ei|].
  unfold set_input. rewrite Ed. repeat split; reflexivity.
Qed.

(** A blank text with a line feed, which a text field does not keep. *)
Definition blank_lines : jsstring := lit " " ++ [nl] ++ lit "  ".

Lemma blank_input_sends_nothing_witness :
  sendMessage_start example_url e_user e_loading
    (set_input (lit "   ") example_world)
  = set_input (lit "   ") example_world
  /\ Legacy.sendMessage_start 5 6
       (Legacy.initial_world TextField None (lit "   ") [])
     = Legacy.initial_world TextField None (lit "   ") []
  /\ api_sendMessage example_url blank_lines e_user e_loading example_world
     = set_input blank_lines example_world
  /\ chatInput (dom (api_sendMessage example_url blank_lines e_user e_loading
                       example_world))
     = Some (assigned (chatInputKind (dom example_world)) blank_lines)
  /\ st (api_sendMessage example_url blank_lines e_user e_loading example_world)
     = st example_world
  /\ requests (api_sendMessage example_url blank_lines e_user e_loading
                 example_world)
     = requests example_world
  /\ pending (api_sendMessage example_url blank_lines e_user e_loading
                example_world)
     = pending example_world
  /\ chatMessages (dom (api_sendMessage example_url blank_lines e_user
                          e_loading example_world))
     = chatMessages (dom example_world).
Proof.
  apply (blank_input_sends_nothing example_url e_user e_loading
           (set_input (lit "   ") example_world) (lit "   ") 5 6
           (Legacy.initial_world TextField None (lit "   ") [])
           example_world (lit " hola ") blank_lines).
  - reflexivity.
  - reflexivity.
  - reflexivity.
  - reflexivity.
  - reflexivity.
Defined.

(** The text field of the example keeps the three spaces of [blank_lines]
    and drops its line feed. *)
Example blank_lines_in_text_field :
  chatInput (dom (api_sendMessage example_url blank_lines e_user e_loading
                    example_world))
  = Some (lit "   ").
Proof. reflexivity. Qed.

(** X6.  The message that [sendMessage] posts is the trimmed input: it is
    not empty, its first and its last character are no white space, and
    trimming it again changes nothing. *)
Theorem posted_message_is_trimmed
  (API_URL : jsstring) (e1 e2 : entropy) (w : World) (v : jsstring) :
  chatInput (dom w) = Some v -> trim v <> [] ->
  isWaitingResponse (st w) = false ->
  exists c r,
    trim v = c :: r
    /\ requests (sendMessage_start API_URL e1 e2 w)
       = requests w
         ++ [ {| url := API_URL ++ lit "/api/chat"; method := lit "POST";
                 content_type := lit "application/json";
                 body := [ (lit "message", c :: r);
                           (lit "session_id", sessionId (st w)) ] |} ]
    /\ is_js_space c = false
    /\ is_js_space (last (c :: r) c) = false
    /\ trim (c :: r) = c :: r.
Proof.
  intros Ev Et Ew.
  destruct (trim v) as [|c r] eqn:E; [congruence|].
  exists c, r. split; [reflexivity|].
  destruct (TextFacts.trim_ends v c r E) as [Hc Hl].
  split; [|split; [exact Hc | split; [exact Hl|]]].
  - destruct (WidgetFacts.sendMessage_start_cases API_URL e1 e2 w)
      as [[[F|F] _]|H].
    + unfold read_message in F. rewrite Ev in F. simpl in F.
      rewrite E in F. discriminate.
    + congruence.
    + destruct H as [v' [i [Ev' [_ [_ [_ [_ [R _]]]]]]]].
      rewrite Ev in Ev'. inversion Ev'; subst v'. rewrite E in R. exact R.
  - rewrite <- E. apply TextFacts.trim_idempotent.
Qed.

Lemma posted_message_is_trimmed_witness :
  exists c r,
    trim (lit " hola ") = c :: r
    /\ requests (sendMessage_start example_url e_user e_loading example_world)
       = requests example_world
         ++ [ {| url := example_url ++ lit "/api/chat"; method := lit "POST";
                 content_type := lit "application/json";
                 body := [ (lit "message", c :: r);
                           (lit "session_id", sessionId (st example_world)) ] |} ]
    /\ is_js_space c = false
    /\ is_js_space (last (c :: r) c) = false
    /\ trim (c :: r) = c :: r.
Proof.
  apply (posted_message_is_trimmed example_url e_user e_loading example_world
           (lit " hola ")).
  - reflexivity.
  - vm_compute. discriminate.
  - reflexivity.
Defined.

(** X7.  Calling [sendMessage] twice in a row has the effect of calling it
    once: the second call finds the flag set, or the guard of the first
    still closed.  This holds of both widgets. *)
Theorem double_send_is_single
  (API_URL : jsstring) (e1 e2 e3 e4 : entropy) (w : World)
  (t1 t2 t3 t4 : N) (lw : Legacy.World) :
  sendMessage_start API_URL e3 e4 (sendMessage_start API_URL e1 e2 w)
  = sendMessage_start API_URL e1 e2 w
  /\ Legacy.sendMessage_start t3 t4 (Legacy.sendMessage_start t1 t2 lw)
     = Legacy.sendMessage_start t1 t2 lw.
Proof.
  assert (forall ea eb w0,
            falsy (read_message w0) = true \/ isWaitingResponse (st w0) = true ->
            sendMessage_start API_URL ea eb w0 = w0) as G.
  { intros ea eb w0 H.
    destruct (WidgetFacts.sendMessage_start_cases API_URL ea eb w0)
      as [[_ E]|[v [i [Ev [Et [Ew _]]]]]]; [exact E|].
    exfalso. destruct H as [H|H]; [|congruence].
    unfold read_message in H. rewrite Ev in H. simpl in H.
    destruct (trim v); [congruence | discriminate]. }
  split.
  - destruct (WidgetFacts.sendMessage_start_cases API_URL e1 e2 w)
      as [[H E]|[v [i [_ [_ [_ [_ [W _]]]]]]]].
    + rewrite E. apply G. exact H.
    + apply G. right. exact W.
  - destruct (trim (Legacy.input lw)) as [|c m] eqn:Et.
    { rewrite (LegacyFacts.legacy_sendMessage_start_guard t1 t2 lw);
        [|left; exact Et].
      apply LegacyFacts.legacy_sendMessage_start_guard. left. exact Et. }
    destruct (Legacy.isWaitingResponse lw) eqn:Ew.
    { rewrite (LegacyFacts.legacy_sendMessage_start_guard t1 t2 lw);
        [|right; exact Ew].
      apply LegacyFacts.legacy_sendMessage_start_guard. right. exact Ew. }
    apply LegacyFacts.legacy_sendMessage_start_guard. right.
    assert (trim (Legacy.input lw) <> []) as Ne by (rewrite Et; discriminate).
    apply (LegacyFacts.legacy_sendMessage_start_request t1 t2 lw Ne Ew).
Qed.

(* ================================================================= *)
(** ** Invariants of the responsive widget, step by step *)

Module StepFacts.

Import Widget WidgetPaths.

(** The flag [chatOpen] agrees with the class [open] of the widget, and is
    unset where the widget is missing. *)
Definition in_sync (w : World) : Prop :=
  match chatWidget (dom w) with
  | Some b => chatOpen (st w) = b
  | None => chatOpen (st w) = false
  end.

Definition welcome_message : message :=
  {| m_id := None; m_sender := bot; m_loading := false; m_welcome := true;
     m_content := InnerHTML welcome_html |}.

(** [holds m w]: the element [m] is in the container. *)
Definition holds (m : message) (w : World) : Prop :=
  exists ms, chatMessages (dom w) = Some ms /\ In m ms.

Ltac break_match :=
  match goal with
  | |- context [match ?x with _ => _ end] =>
      lazymatch x with
      | context [match _ with _ => _ end] => fail
      | _ => destruct x eqn:?
      end
  end.

Ltac unfold_step :=
  unfold onDOMContentLoaded, addWelcomeMessage, verifyDOMElements,
    api_sendMessage, sendMessage_start, read_message, clear_input, set_input,
    settle, resume, on_data, catch_finally, finally, addMessage, removeMessage,
    toggleChat, openChat, closeChat, onResize, set_open, set_waiting, set_st,
    hide_badge, set_dom, with_messages, with_input, with_widget in *.

Ltac by_cases ev :=
  destruct ev; simpl; unfold_step; repeat (simpl in *; break_match);
  simpl in *.

Lemma step_in_sync API_URL w ev :
  in_sync w ->
  in_sync (step API_URL w ev)
  /\ present (chatWidget (dom (step API_URL w ev)))
     = present (chatWidget (dom w)).
Proof.
  unfold in_sync. intros H.
  by_cases ev; split; try congruence; try reflexivity;
    repeat match goal with
           | E : chatWidget _ = _ |- _ => rewrite E in *; clear E
           end; simpl; congruence.
Qed.

Lemma step_without_container API_URL w ev :
  chatMessages (dom w) = None ->
  chatMessages (dom (step API_URL w ev)) = None
  /\ messageCount (st (step API_URL w ev)) = messageCount (st w).
Proof.
  intros H. by_cases ev; split; try congruence; try reflexivity.
Qed.

Lemma remove_first_keeps i m ms :
  has_id i m = false -> In m ms -> In m (remove_first i ms).
Proof.
  intros Hm. induction ms as [|x ms IH]; simpl; [tauto|].
  intros [E|I].
  - subst x. rewrite Hm. left. reflexivity.
  - destruct (has_id i x); [exact I | right; apply IH; exact I].
Qed.

Lemma remove_first_length i ms :
  List.length (remove_first i ms) <= List.length ms.
Proof.
  induction ms as [|x ms IH]; simpl; [lia|].
  destruct (has_id i x); simpl; lia.
Qed.

Lemma no_id_not_removed i m : m_id m = None -> has_id i m = false.
Proof. unfold has_id. intros ->. reflexivity. Qed.

(** The badge is neither added nor removed, and never shown again. *)
Lemma step_badge API_URL w ev :
  present (chatBadge (dom (step API_URL w ev))) = present (chatBadge (dom w))
  /\ (chatBadge (dom w) = Some DisplayNone ->
      chatBadge (dom (step API_URL w ev)) = Some DisplayNone).
Proof.
  by_cases ev; split; try reflexivity; try congruence;
    repeat match goal with
           | E : chatBadge _ = _ |- _ => rewrite E in *; clear E
           end; simpl; try reflexivity; try congruence.
Qed.

(** An element without id is never removed. *)
Lemma step_holds API_URL w ev m :
  m_id m = None -> holds m w -> holds m (step API_URL w ev).
Proof.
  intros Hm [ms [E I]]. unfold holds.
  assert (forall i, In m (remove_first i ms)) as R.
  { intros i. apply remove_first_keeps;
      [apply no_id_not_removed; exact Hm | exact I]. }
  assert (forall i j, In m (remove_first j (remove_first i ms))) as R2.
  { intros i j. apply remove_first_keeps;
      [apply no_id_not_removed; exact Hm | apply R]. }
  by_cases ev;
    repeat match goal with
           | X : chatMessages (dom w) = _ |- _ =>
               rewrite X in *; clear X
           end;
    try discriminate;
    repeat match goal with
           | X : Some _ = Some _ |- _ => inversion X; subst; clear X
           end;
    try (eexists; split; [reflexivity|];
         repeat (apply in_or_app; left); auto; fail).
  all: try (destruct I; fail).
Qed.

End StepFacts.

(** X8.  Whatever the events, the flag [STATE.chatOpen] of the responsive
    widget agrees with the class [open] of the widget element, once it does
    so; no operation adds or removes the widget element, and on a page
    without it the chat is never marked open. *)
Theorem open_flag_follows_class
  (API_URL : jsstring) (w : World) (evs : list event) :
  StepFacts.in_sync w ->
  StepFacts.in_sync (run API_URL w evs)
  /\ present (chatWidget (dom (run API_URL w evs)))
     = present (chatWidget (dom w))
  /\ (chatWidget (dom w) = None -> chatOpen (st (run API_URL w evs)) = false).
Proof.
  intros H.
  assert (StepFacts.in_sync (run API_URL w evs)
          /\ present (chatWidget (dom (run API_URL w evs)))
             = present (chatWidget (dom w))) as [A B].
  { revert w H. induction evs as [|ev evs IH]; intros w H; simpl.
    - split; [exact H | reflexivity].
    - destruct (StepFacts.step_in_sync API_URL w ev H) as [S P].
      destruct (IH _ S) as [A B]. split; [exact A|]. congruence. }
  split; [exact A|]. split; [exact B|].
  intros N. rewrite N in B. unfold StepFacts.in_sync in A.
  destruct (chatWidget (dom (run API_URL w evs))); [discriminate | exact A].
Qed.

Lemma open_flag_follows_class_witness :
  StepFacts.in_sync (run example_url example_world [Open; Toggle; Toggle])
  /\ present (chatWidget (dom (run example_url example_world
                                 [Open; Toggle; Toggle])))
     = present (chatWidget (dom example_world))
  /\ (chatWidget (dom example_world) = None ->
      chatOpen (st (run example_url example_world [Open; Toggle; Toggle]))
      = false).
Proof.
  apply (open_flag_follows_class example_url example_world
           [Open; Toggle; Toggle]).
  reflexivity.
Defined.

(** X9.  [openChat] and [closeChat] are idempotent: a second call returns
    at its first guard.  [toggleChat] twice brings back [STATE] and, where
    the flag agreed with the class of the widget, the class.  It does not
    bring back the page: the opening hides the badge, and nothing shows it
    again; once hidden, the badge stays hidden whatever the events. *)
Theorem open_close_idempotent (API_URL : jsstring) (w : World) :
  openChat (openChat w) = openChat w
  /\ closeChat (closeChat w) = closeChat w
  /\ st (toggleChat (toggleChat w)) = st w
  /\ (StepFacts.in_sync w ->
      chatWidget (dom (toggleChat (toggleChat w))) = chatWidget (dom w))
  /\ (forall b d,
        chatOpen (st w) = false -> chatWidget (dom w) = Some b ->
        chatBadge (dom w) = Some d ->
        chatBadge (dom (toggleChat (toggleChat w))) = Some DisplayNone)
  /\ (forall evs,
        present (chatBadge (dom (run API_URL w evs)))
        = present (chatBadge (dom w))
        /\ (chatBadge (dom w) = Some DisplayNone ->
            chatBadge (dom (run API_URL w evs)) = Some DisplayNone)).
Proof.
  split; [|split; [|split; [|split; [|split]]]].
  - unfold openChat. destruct (chatOpen (st w)) eqn:Eo; [rewrite Eo; reflexivity|].
    destruct (chatWidget (dom w)) eqn:Ew; [reflexivity|].
    rewrite Eo, Ew. reflexivity.
  - unfold closeChat. destruct (chatOpen (st w)) eqn:Eo; [|rewrite Eo; reflexivity].
    destruct (chatWidget (dom w)) eqn:Ew; [reflexivity|].
    rewrite Eo, Ew. reflexivity.
  - destruct w as [[o wt mv sid n] [cw ci cm cb cc ck bd] rq pd].
    unfold toggleChat, openChat, closeChat, set_open, set_dom, hide_badge,
      with_widget.
    destruct o, cw as [b|], bd as [x|]; reflexivity.
  - unfold StepFacts.in_sync. intros H.
    destruct w as [[o wt mv sid n] [cw ci cm cb cc ck bd] rq pd].
    simpl in H.
    unfold toggleChat, openChat, closeChat, set_open, set_dom, hide_badge,
      with_widget.
    destruct o, cw as [b|], bd as [x|]; simpl in *; subst;
      try reflexivity; discriminate H.
  - intros b d Eo Ew Eb.
    destruct w as [[o wt mv sid n] [cw ci cm cb cc ck bd] rq pd].
    simpl in Eo, Ew, Eb. subst o cw bd.
    reflexivity.
  - intros evs. revert w. induction evs as [|ev evs IH]; intros w; simpl.
    + split; [reflexivity | intros H; exact H].
    + destruct (StepFacts.step_badge API_URL w ev) as [P K].
      destruct (IH (step API_URL w ev)) as [P' K'].
      split; [congruence|]. intros H. apply K'. apply K. exact H.
Qed.

Lemma open_close_idempotent_witness :
  openChat (openChat example_world) = openChat example_world
  /\ closeChat (closeChat example_world) = closeChat example_world
  /\ st (toggleChat (toggleChat example_world)) = st example_world
  /\ chatWidget (dom (toggleChat (toggleChat example_world)))
     = chatWidget (dom example_world)
  /\ chatBadge (dom (toggleChat (toggleChat example_world)))
     = Some DisplayNone
  /\ present (chatBadge (dom (run example_url example_world
                                [Open; Send e_user e_loading; Close])))
     = present (chatBadge (dom example_world))
  /\ chatBadge (dom (run example_url (openChat example_world)
                       [Send e_user e_loading; Close; Resize 500]))
     = Some DisplayNone.
Proof.
  destruct (open_close_idempotent example_url example_world)
    as [A [B [C [D [E F]]]]].
  destruct (open_close_idempotent example_url (openChat example_world))
    as [_ [_ [_ [_ [_ G]]]]].
  split; [exact A|]. split; [exact B|]. split; [exact C|].
  split; [apply D; reflexivity|].
  split; [apply (E false DisplayDefault); reflexivity|].
  split; [apply (F [Open; Send e_user e_loading; Close])|].
  apply (G [Send e_user e_loading; Close; Resize 500]). reflexivity.
Defined.

(** Toggling twice leaves the example page with its badge hidden: the
    world is not the one before. *)
Example toggle_twice_hides_badge :
  StepFacts.in_sync example_world
  /\ chatBadge (dom example_world) = Some DisplayDefault
  /\ chatBadge (dom (toggleChat (toggleChat example_world)))
     = Some DisplayNone.
Proof. repeat split. Qed.

(** X10.  As far as the messages go, the [DOMContentLoaded] listener of
    the responsive widget adds the welcome message to an empty container
    when the five elements exist, and otherwise leaves the messages as
    they are; so a second run adds no second welcome message.  As the
    welcome message has no id, no later operation removes it.  The
    handlers that the listener registers are not part of the model, and
    nothing is said about them. *)
Theorem welcome_message_stays
  (API_URL : jsstring) (w : World) (evs : list event) :
  verifyDOMElements w = true ->
  chatMessages (dom w) = Some [] ->
  chatMessages (dom (onDOMContentLoaded w)) = Some [StepFacts.welcome_message]
  /\ chatMessages (dom (onDOMContentLoaded (onDOMContentLoaded w)))
     = Some [StepFacts.welcome_message]
  /\ StepFacts.holds StepFacts.welcome_message
       (run API_URL w (DOMContentLoaded :: evs))
  /\ (forall w0 m ms,
        chatMessages (dom w0) = Some (m :: ms) ->
        chatMessages (dom (onDOMContentLoaded w0)) = Some (m :: ms))
  /\ (forall w0,
        verifyDOMElements w0 = false ->
        chatMessages (dom (onDOMContentLoaded w0)) = chatMessages (dom w0)).
Proof.
  intros V E.
  assert (forall w0 m ms,
            chatMessages (dom w0) = Some (m :: ms) ->
            chatMessages (dom (onDOMContentLoaded w0)) = Some (m :: ms)) as K.
  { intros w0 m ms E0. unfold onDOMContentLoaded, addWelcomeMessage.
    rewrite E0. destruct (verifyDOMElements w0); exact E0. }
  assert (chatMessages (dom (onDOMContentLoaded w))
          = Some [StepFacts.welcome_message]) as A.
  { unfold onDOMContentLoaded, addWelcomeMessage. rewrite V, E. reflexivity. }
  split; [exact A|]. split; [apply K; exact A|]. split; [|split; [exact K|]].
  - simpl.
    assert (StepFacts.holds StepFacts.welcome_message (onDOMContentLoaded w))
      as H.
    { eexists. split; [exact A | left; reflexivity]. }
    revert H. generalize (onDOMContentLoaded w). clear.
    induction evs as [|ev evs IH]; intros w H; simpl; [exact H|].
    apply IH. apply StepFacts.step_holds; [reflexivity | exact H].
  - intros w0 V0. unfold onDOMContentLoaded. rewrite V0. reflexivity.
Qed.

Lemma welcome_message_stays_witness :
  chatMessages (dom (onDOMContentLoaded example_world))
  = Some [StepFacts.welcome_message]
  /\ chatMessages (dom (onDOMContentLoaded (onDOMContentLoaded example_world)))
     = Some [StepFacts.welcome_message]
  /\ StepFacts.holds StepFacts.welcome_message
       (run example_url example_world
          (DOMContentLoaded :: [Send e_user e_loading;
                                Settle 0 FetchRejected e_reply]))
  /\ (forall w0 m ms,
        chatMessages (dom w0) = Some (m :: ms) ->
        chatMessages (dom (onDOMContentLoaded w0)) = Some (m :: ms))
  /\ (forall w0,
        verifyDOMElements w0 = false ->
        chatMessages (dom (onDOMContentLoaded w0)) = chatMessages (dom w0)).
Proof.
  apply (welcome_message_stays example_url example_world
           [Send e_user e_loading; Settle 0 FetchRejected e_reply]).
  - reflexivity.
  - reflexivity.
Defined.

(** X11.  On a page without the message container the responsive widget
    never renders nor counts a message, whatever the events; a message
    typed there is posted all the same. *)
Theorem missing_container_posts_unseen
  (API_URL : jsstring) (w : World) (evs : list event) (e1 e2 : entropy)
  (v : jsstring) :
  chatMessages (dom w) = None ->
  chatInput (dom (run API_URL w evs)) = Some v -> trim v <> [] ->
  isWaitingResponse (st (run API_URL w evs)) = false ->
  chatMessages (dom (run API_URL w (evs ++ [Send e1 e2]))) = None
  /\ messageCount (st (run API_URL w (evs ++ [Send e1 e2])))
     = messageCount (st w)
  /\ List.length (requests (run API_URL w (evs ++ [Send e1 e2])))
     = S (List.length (requests (run API_URL w evs))).
Proof.
  intros N Ev Et Ew.
  assert (forall l w0, chatMessages (dom w0) = None ->
            chatMessages (dom (run API_URL w0 l)) = None
            /\ messageCount (st (run API_URL w0 l)) = messageCount (st w0))
    as K.
  { induction l as [|ev l IH]; intros w0 H; simpl; [split; [exact H|reflexivity]|].
    destruct (StepFacts.step_without_container API_URL w0 ev H) as [A B].
    destruct (IH _ A) as [C D]. split; [exact C | congruence]. }
  destruct (K (evs ++ [Send e1 e2]) w N) as [A B].
  split; [exact A|]. split; [exact B|].
  unfold run. rewrite fold_left_app. simpl. fold (run API_URL w evs).
  destruct (WidgetFacts.sendMessage_start_cases API_URL e1 e2
              (run API_URL w evs)) as [[[F|F] _]|H].
  - unfold read_message in F. rewrite Ev in F. simpl in F.
    destruct (trim v); [congruence | discriminate].
  - congruence.
  - destruct H as [v' [i [_ [_ [_ [_ [_ [R _]]]]]]]].
    rewrite R, length_app. simpl. lia.
Qed.

Definition dom_without_container : Dom :=
  {| chatWidget := Some false; chatInput := Some (lit "hola");
     chatMessages := None; chatButton := true; chatClose := true;
     chatInputKind := TextArea; chatBadge := None |}.

Lemma missing_container_posts_unseen_witness :
  chatMessages
    (dom (run example_url
            (initial_world 1 (lit "0.abc") 1024 dom_without_container)
            ([Open] ++ [Send e_user e_loading]))) = None
  /\ messageCount
       (st (run example_url
              (initial_world 1 (lit "0.abc") 1024 dom_without_container)
              ([Open] ++ [Send e_user e_loading])))
     = messageCount (st (initial_world 1 (lit "0.abc") 1024 dom_without_container))
  /\ List.length
       (requests (run example_url
                    (initial_world 1 (lit "0.abc") 1024 dom_without_container)
                    ([Open] ++ [Send e_user e_loading])))
     = S (List.length
            (requests (run example_url
                         (initial_world 1 (lit "0.abc") 1024
                            dom_without_container) [Open]))).
Proof.
  apply (missing_container_posts_unseen example_url
           (initial_world 1 (lit "0.abc") 1024 dom_without_container)
           [Open] e_user e_loading (lit "hola")).
  - reflexivity.
  - reflexivity.
  - vm_compute. discriminate.
  - reflexivity.
Defined.

(* ================================================================= *)
(** ** Facts about ids *)

Module IdFacts.

Import Widget WidgetPaths.

(** The first element carrying the id, with what is before and after it. *)
Lemma remove_first_split i ms :
  existsb (has_id i) ms = true ->
  exists a m b,
    ms = a ++ m :: b /\ has_id i m = true /\ fresh i a
    /\ remove_first i ms = a ++ b.
Proof.
  induction ms as [|x ms IH]; simpl; [discriminate|].
  destruct (has_id i x) eqn:Ex; simpl.
  - intros _. exists [], x, ms. repeat split; [exact Ex | constructor].
  - intros H. destruct (IH H) as [a [m [b [E [Hm [F R]]]]]].
    exists (x :: a), m, b. subst ms. simpl. rewrite R.
    repeat split; [exact Hm | constructor; assumption].
Qed.

Lemma remove_first_none i ms :
  existsb (has_id i) ms = false -> remove_first i ms = ms.
Proof.
  induction ms as [|x ms IH]; simpl; [reflexivity|].
  destruct (has_id i x); simpl; [discriminate|].
  intros H. rewrite (IH H). reflexivity.
Qed.

Lemma lit_injective s1 s2 : lit s1 = lit s2 -> s1 = s2.
Proof.
  unfold lit. intros H.
  apply (f_equal (List.map ascii_of_N)) in H.
  rewrite !map_map in H.
  rewrite (map_ext _ (fun a => a) ascii_N_embedding) in H.
  rewrite (map_ext _ (fun a => a) ascii_N_embedding) in H.
  rewrite !map_id in H.
  apply (f_equal string_of_list_ascii) in H.
  rewrite !string_of_list_ascii_of_string in H. exact H.
Qed.

Lemma decimal_injective n1 n2 : decimal n1 = decimal n2 -> n1 = n2.
Proof.
  unfold decimal. intros H. apply lit_injective in H.
  apply (f_equal NilEmpty.uint_of_string) in H.
  rewrite !NilEmpty.usu in H. inversion H as [E].
  apply (f_equal N.of_uint) in E.
  rewrite !DecimalN.Unsigned.of_to in E. exact E.
Qed.

Lemma digits_without_underscore d :
  ~ In 95%N (lit (NilEmpty.string_of_uint d)).
Proof.
  induction d; simpl; intros H;
    try (destruct H as [H|H]; [discriminate H | exact (IHd H)]).
  exact H.
Qed.

End IdFacts.

Module LegacyExchange.

Import Widget Legacy LegacyFacts.

Definition fresh (t : N) (ms : list Legacy.message) : Prop :=
  Forall (fun m => Legacy.has_id t m = false) ms.

Lemma remove_first_found t ms m post :
  fresh t ms -> Legacy.has_id t m = true ->
  Legacy.remove_first t (ms ++ m :: post) = ms ++ post.
Proof.
  induction 1 as [|x ms Hx Hms IH]; intros Hm; simpl.
  - rewrite Hm. reflexivity.
  - rewrite Hx. f_equal. apply IH. exact Hm.
Qed.

Lemma remove_first_missing t ms :
  fresh t ms -> Legacy.remove_first t ms = ms.
Proof.
  induction 1 as [|x ms Hx Hms IH]; simpl; [reflexivity|].
  rewrite Hx, IH. reflexivity.
Qed.

(** What the legacy widget appends when a call ends. *)
Definition reply (r : Legacy.result) (t : N) : list Legacy.message :=
  match r with
  | Parsed (DataObject d) =>
      text_message t bot (text_of (response d))
      :: (if handoff_to_human d then [Legacy.handoff_message] else [])
  | _ => [text_message t bot Legacy.fallback_text]
  end.

End LegacyExchange.

(** X12.  [removeMessage] of the responsive widget removes the first
    element that carries the id and nothing else: the elements before and
    after it keep their order, a second element with the same id stays, an
    id that no element carries and the id [null] change nothing, and
    [STATE], the requests and the suspended calls are never touched. *)
Theorem removeMessage_removes_first
  (w : World) (i : msgid) (ms : list message) :
  chatMessages (dom w) = Some ms ->
  removeMessage None w = w
  /\ (existsb (has_id i) ms = false ->
      chatMessages (dom (removeMessage (Some i) w)) = Some ms)
  /\ (existsb (has_id i) ms = true ->
      exists a m b,
        ms = a ++ m :: b /\ has_id i m = true /\ fresh i a
        /\ chatMessages (dom (removeMessage (Some i) w)) = Some (a ++ b))
  /\ st (removeMessage (Some i) w) = st w
  /\ requests (removeMessage (Some i) w) = requests w
  /\ pending (removeMessage (Some i) w) = pending w.
Proof.
  intros E. split; [reflexivity|].
  pose proof (removeMessage_messages (Some i) w ms E) as R.
  change (removed (Some i) ms) with (remove_first i ms) in R.
  split; [|split].
  - intros H. rewrite R, (IdFacts.remove_first_none i ms H). reflexivity.
  - intros H.
    destruct (IdFacts.remove_first_split i ms H) as [a [m [b [Es [Hm [F Er]]]]]].
    exists a, m, b. rewrite R, Er. repeat split; assumption.
  - unfold removeMessage. rewrite E. repeat split.
Qed.

Lemma removeMessage_removes_first_witness :
  removeMessage None
    (sendMessage_start example_url e_user e_loading example_world)
  = sendMessage_start example_url e_user e_loading example_world
  /\ (existsb (has_id (id_of e_loading))
        [shown e_user user (lit "hola"); loading e_loading] = false ->
      chatMessages
        (dom (removeMessage (Some (id_of e_loading))
                (sendMessage_start example_url e_user e_loading example_world)))
      = Some [shown e_user user (lit "hola"); loading e_loading])
  /\ (existsb (has_id (id_of e_loading))
        [shown e_user user (lit "hola"); loading e_loading] = true ->
      exists a m b,
        [shown e_user user (lit "hola"); loading e_loading] = a ++ m :: b
        /\ has_id (id_of e_loading) m = true /\ fresh (id_of e_loading) a
        /\ chatMessages
             (dom (removeMessage (Some (id_of e_loading))
                     (sendMessage_start example_url e_user e_loading
                        example_world)))
           = Some (a ++ b))
  /\ st (removeMessage (Some (id_of e_loading))
           (sendMessage_start example_url e_user e_loading example_world))
     = st (sendMessage_start example_url e_user e_loading example_world)
  /\ requests (removeMessage (Some (id_of e_loading))
                 (sendMessage_start example_url e_user e_loading example_world))
     = requests (sendMessage_start example_url e_user e_loading example_world)
  /\ pending (removeMessage (Some (id_of e_loading))
                (sendMessage_start example_url e_user e_loading example_world))
     = pending (sendMessage_start example_url e_user e_loading example_world).
Proof.
  apply (removeMessage_removes_first
           (sendMessage_start example_url e_user e_loading example_world)
           (id_of e_loading)
           [shown e_user user (lit "hola"); loading e_loading]).
  vm_compute. reflexivity.
Defined.

(** X13.  [generateSessionId] gives different ids at different readings of
    the clock, whatever [Math.random] gives: two ids are the same exactly
    when the readings and the nine characters kept of the random text are
    the same.  The id starts with [session_] and the decimal reading, and
    its random part has at most nine characters. *)
Theorem session_ids_differ_in_time (n1 n2 : N) (r1 r2 : jsstring) :
  (generateSessionId n1 r1 = generateSessionId n2 r2
   <-> n1 = n2 /\ substr r1 2 9 = substr r2 2 9)
  /\ (exists tail, generateSessionId n1 r1
                   = lit "session_" ++ decimal n1 ++ lit "_" ++ tail
                   /\ List.length tail <= 9).
Proof.
  split.
  - split.
    + unfold generateSessionId. intros H.
      apply app_inv_head in H.
      change (lit "_" ++ substr r1 2 9) with (95%N :: substr r1 2 9) in H.
      change (lit "_" ++ substr r2 2 9) with (95%N :: substr r2 2 9) in H.
      destruct (app_before_char 95%N _ _ _ _ H
                  (IdFacts.digits_without_underscore (N.to_uint n1)))
        as [x [E1 E2]].
      destruct x as [|c x]; simpl in E2.
      * injection E2 as E3. rewrite app_nil_r in E1. split; [|exact E3].
        apply IdFacts.decimal_injective. symmetry. exact E1.
      * injection E2 as Ec E3. subst c. exfalso.
        apply (IdFacts.digits_without_underscore (N.to_uint n2)).
        fold (decimal n2). rewrite E1. apply in_or_app. right. left.
        reflexivity.
    + intros [-> E]. unfold generateSessionId. rewrite E. reflexivity.
  - exists (substr r1 2 9). split; [reflexivity|].
    unfold substr. apply firstn_le_length.
Qed.

(** X14.  [debounce]: whenever a timer fires, either nothing happens or
    [func] is called with the arguments of the latest call of the debounced
    function, not earlier than [wait] after that call; the timer that fired
    was the one of that call and no timer is left pending. *)
Theorem debounce_runs_latest_call
  (A : Type) (wait : Z) (evs : list (Debounce.event A)) (now : Z) (i : nat) :
  Debounce.fire A now i (Debounce.run A wait evs) = Debounce.run A wait evs
  \/ exists tc a,
       Debounce.last_call A evs = Some (tc, a) /\ (tc + wait <= now)%Z
       /\ S i = List.length (filter (Debounce.is_call A) evs)
       /\ Debounce.invoked A (Debounce.fire A now i (Debounce.run A wait evs))
          = Debounce.invoked A (Debounce.run A wait evs) ++ [(now, a)]
       /\ Debounce.timers A (Debounce.fire A now i (Debounce.run A wait evs))
          = [].
Proof.
  pose proof (DebounceFacts.fire_cases A wait evs now i) as H.
  cbv zeta in H. destruct H as [H|H]; [left; exact H | right; exact H].
Qed.

(** X15.  [debounce]: after a burst of calls [func] has not run; whatever
    timers fire afterwards, [func] runs at most once; and when the timer of
    the last call fires [wait] after it, [func] runs with the arguments of
    the last call. *)
Theorem debounce_burst_runs_once
  (A : Type) (wait : Z) (calls : list (Z * A)) (fires : list (Z * nat))
  (tc : Z) (a : A) (now : Z) :
  (tc + wait <= now)%Z ->
  Debounce.invoked A
    (Debounce.run A wait (map (DebounceFacts.call_of A) calls)) = []
  /\ List.length
       (Debounce.invoked A
          (Debounce.run A wait (map (DebounceFacts.call_of A) calls
                                ++ map (DebounceFacts.fire_of A) fires))) <= 1
  /\ Debounce.invoked A
       (Debounce.run A wait
          (map (DebounceFacts.call_of A) (calls ++ [(tc, a)])
           ++ [Debounce.Fire A now (List.length calls)]))
     = [(now, a)].
Proof.
  intros Hd.
  destruct (DebounceFacts.calls_invoke_nothing A wait calls) as [I T].
  split; [exact I|]. split.
  - unfold Debounce.run. rewrite fold_left_app.
    pose proof (DebounceFacts.fires_invoke_once A wait fires
                  (Debounce.run A wait (map (DebounceFacts.call_of A) calls)))
      as H.
    unfold Debounce.run in H, I, T. rewrite I in H. simpl in H.
    specialize (H T). lia.
  - rewrite DebounceFacts.run_snoc. simpl.
    set (evs := map (DebounceFacts.call_of A) (calls ++ [(tc, a)])).
    destruct (DebounceFacts.calls_invoke_nothing A wait (calls ++ [(tc, a)]))
      as [I' _]. fold evs in I'.
    assert (Debounce.timers A (Debounce.run A wait evs)
            = [ {| Debounce.t_id := List.length calls;
                   Debounce.t_due := (tc + wait)%Z;
                   Debounce.t_args := a |} ]) as Et.
    { unfold evs. rewrite map_app. simpl. rewrite DebounceFacts.run_snoc.
      simpl. unfold Debounce.executedFunction. simpl.
      destruct (DebounceFacts.one_timer_pending A wait (map (DebounceFacts.call_of A) calls))
        as [N [E|[tc0 [a0 [j [_ [E [To _]]]]]]]].
      - rewrite E, N.
        assert (filter (Debounce.is_call A) (map (DebounceFacts.call_of A) calls)
                = map (DebounceFacts.call_of A) calls) as F.
        { clear. induction calls as [|c cs IH]; simpl; [reflexivity|].
          rewrite IH. reflexivity. }
        rewrite F, length_map.
        destruct (Debounce.timeout A _); reflexivity.
      - rewrite E, To, N. simpl. rewrite Nat.eqb_refl. simpl.
        assert (filter (Debounce.is_call A) (map (DebounceFacts.call_of A) calls)
                = map (DebounceFacts.call_of A) calls) as F.
        { clear. induction calls as [|c cs IH]; simpl; [reflexivity|].
          rewrite IH. reflexivity. }
        rewrite F, length_map. reflexivity. }
    unfold Debounce.fire. rewrite Et. cbn. rewrite Nat.eqb_refl. cbn.
    apply Z.leb_le in Hd. rewrite Hd. cbn. rewrite I'. reflexivity.
Qed.

Lemma debounce_burst_runs_once_witness :
  Debounce.invoked Z
    (Debounce.run Z 150%Z (map (DebounceFacts.call_of Z)
                           [(0, 800); (40, 760); (90, 700)]%Z)) = []
  /\ List.length
       (Debounce.invoked Z
          (Debounce.run Z 150%Z
             (map (DebounceFacts.call_of Z) [(0, 800); (40, 760); (90, 700)]%Z
              ++ map (DebounceFacts.fire_of Z) [(150%Z, 0); (240%Z, 2)]))) <= 1
  /\ Debounce.invoked Z
       (Debounce.run Z 150%Z
          (map (DebounceFacts.call_of Z)
             ([(0, 800); (40, 760); (90, 700)]%Z ++ [(120, 640)%Z])
           ++ [Debounce.Fire Z 270%Z
                 (List.length [(0, 800); (40, 760); (90, 700)]%Z)]))
     = [(270, 640)%Z].
Proof.
  apply (debounce_burst_runs_once Z 150%Z [(0, 800); (40, 760); (90, 700)]%Z
           [(150%Z, 0); (240%Z, 2)] 120%Z 640%Z 270%Z).
  vm_compute. discriminate.
Defined.

(** X16.  The legacy widget, when the clock gives the loading indicator an
    id that no other message carries (so not the millisecond of the message
    of the user): a call that ends removes the loading indicator and
    appends the text of [data.response], followed by the contact message
    when [data.handoff_to_human] is truthy, or, on any failure, the
    fallback message; the flag is reset and no call is left suspended. *)
Theorem legacy_call_with_distinct_ids
  (lw : Legacy.World) (t1 t2 t3 : N) (r : Legacy.result) :
  trim (Legacy.input lw) <> [] ->
  Legacy.isWaitingResponse lw = false ->
  Legacy.pending lw = [] ->
  LegacyExchange.fresh t2
    (Legacy.messages lw
     ++ [LegacyFacts.text_message t1 user (trim (Legacy.input lw))]) ->
  Legacy.messages
    (Legacy.run lw [Legacy.Send t1 t2; Legacy.Settle 0 r t3])
  = Legacy.messages lw
    ++ LegacyFacts.text_message t1 user (trim (Legacy.input lw))
       :: LegacyExchange.reply r t3
  /\ Legacy.isWaitingResponse
       (Legacy.run lw [Legacy.Send t1 t2; Legacy.Settle 0 r t3]) = false
  /\ Legacy.pending
       (Legacy.run lw [Legacy.Send t1 t2; Legacy.Settle 0 r t3]) = [].
Proof.
  intros Ne Ew Ep F.
  destruct (LegacyFacts.legacy_sendMessage_start_request t1 t2 lw Ne Ew)
    as [_ [P [_ M]]].
  rewrite Ep in P. simpl in P.
  change (Legacy.run lw [Legacy.Send t1 t2; Legacy.Settle 0 r t3])
    with (Legacy.settle 0 r t3 (Legacy.sendMessage_start t1 t2 lw)).
  set (w1 := Legacy.sendMessage_start t1 t2 lw) in *.
  unfold Legacy.settle. rewrite P. simpl nth_error. simpl firstn. simpl skipn.
  assert (Legacy.remove_first t2 (Legacy.messages w1)
          = Legacy.messages lw
            ++ [LegacyFacts.text_message t1 user (trim (Legacy.input lw))])
    as R.
  { rewrite M.
    change (Legacy.messages lw
            ++ [LegacyFacts.text_message t1 user (trim (Legacy.input lw));
                LegacyFacts.loading t2])
      with (Legacy.messages lw
            ++ [LegacyFacts.text_message t1 user (trim (Legacy.input lw))]
            ++ LegacyFacts.loading t2 :: []).
    rewrite app_assoc, LegacyExchange.remove_first_found.
    - apply app_nil_r.
    - exact F.
    - unfold Legacy.has_id. simpl. apply N.eqb_refl. }
  unfold Legacy.resume, Legacy.on_data, Legacy.catch_finally,
    Legacy.removeMessage, Legacy.addMessage, Legacy.addHandoffMessage,
    Legacy.finally.
  destruct r as [ | status | | [|d]]; simpl; rewrite ?R;
    try (rewrite <- app_assoc; repeat split; fail).
  - rewrite (LegacyExchange.remove_first_missing _ _ F), <- app_assoc.
    repeat split.
  - destruct (handoff_to_human d); simpl; rewrite <- ?app_assoc;
      repeat split.
Qed.

Lemma legacy_call_with_distinct_ids_witness :
  Legacy.messages
    (Legacy.run legacy_example
       [Legacy.Send 1000 1001; Legacy.Settle 0 Legacy.Rejected 1002])
  = Legacy.messages legacy_example
    ++ LegacyFacts.text_message 1000 user (trim (Legacy.input legacy_example))
       :: LegacyExchange.reply Legacy.Rejected 1002
  /\ Legacy.isWaitingResponse
       (Legacy.run legacy_example
          [Legacy.Send 1000 1001; Legacy.Settle 0 Legacy.Rejected 1002]) = false
  /\ Legacy.pending
       (Legacy.run legacy_example
          [Legacy.Send 1000 1001; Legacy.Settle 0 Legacy.Rejected 1002]) = [].
Proof.
  apply (legacy_call_with_distinct_ids legacy_example 1000 1001 1002
           Legacy.Rejected).
  - vm_compute. discriminate.
  - reflexivity.
  - reflexivity.
  - repeat constructor.
Defined.

(* ================================================================= *)
(** ** Requests and the message counter *)

Module CounterFacts.

Import Widget WidgetPaths StepFacts.

(** A request as [sendMessage] of the responsive widget makes it. *)
Definition to_chat_endpoint (API_URL : jsstring) (r : request) : Prop :=
  url r = API_URL ++ lit "/api/chat" /\ method r = lit "POST"
  /\ content_type r = lit "application/json".

Lemma step_requests API_URL w ev :
  exists extra,
    requests (step API_URL w ev) = requests w ++ extra
    /\ Forall (to_chat_endpoint API_URL) extra
    /\ List.length extra <= 1.
Proof.
  by_cases ev;
    first
      [ exists []; rewrite app_nil_r; split; [reflexivity|];
        split; [constructor | simpl; lia]
      | eexists [_]; split; [reflexivity|];
        split; [repeat constructor | simpl; lia] ].
Qed.

Lemma step_count API_URL w ev :
  messageCount (st w) <= messageCount (st (step API_URL w ev)).
Proof.
  by_cases ev; lia.
Qed.

Lemma run_count API_URL evs : forall w,
  messageCount (st w) <= messageCount (st (run API_URL w evs)).
Proof.
  induction evs as [|ev evs IH]; intros w; simpl; [lia|].
  pose proof (step_count API_URL w ev). specialize (IH (step API_URL w ev)).
  lia.
Qed.

Lemma run_requests API_URL evs : forall w,
  exists extra,
    requests (run API_URL w evs) = requests w ++ extra
    /\ Forall (to_chat_endpoint API_URL) extra
    /\ List.length extra <= List.length evs.
Proof.
  induction evs as [|ev evs IH]; intros w; simpl.
  - exists []. rewrite app_nil_r. split; [reflexivity|].
    split; [constructor | simpl; lia].
  - destruct (step_requests API_URL w ev) as [x1 [E1 [F1 L1]]].
    destruct (IH (step API_URL w ev)) as [x2 [E2 [F2 L2]]].
    exists (x1 ++ x2). rewrite E2, E1, app_assoc. split; [reflexivity|].
    split; [apply Forall_app; split; assumption|].
    rewrite length_app. lia.
Qed.

Lemma start_count API_URL e1 e2 w v ms :
  chatInput (dom w) = Some v -> trim v <> [] ->
  isWaitingResponse (st w) = false ->
  chatMessages (dom w) = Some ms ->
  messageCount (st (sendMessage_start API_URL e1 e2 w))
  = S (S (messageCount (st w))).
Proof.
  intros Ev Et Ew Em.
  unfold sendMessage_start, read_message, clear_input. rewrite Ev.
  destruct (trim v) as [|c m] eqn:E; [congruence|]. rewrite Ew. simpl.
  unfold addMessage. simpl. rewrite Em. simpl. reflexivity.
Qed.

Lemma on_data_count i d e w ms :
  chatMessages (dom w) = Some ms ->
  messageCount (st (on_data i (DataObject d) e w)) = S (messageCount (st w)).
Proof.
  intros Em. unfold on_data.
  pose proof (removeMessage_messages i w ms Em) as R.
  assert (messageCount (st (removeMessage i w)) = messageCount (st w)) as C.
  { unfold removeMessage. destruct i; [rewrite Em|]; reflexivity. }
  unfold addMessage. rewrite R. simpl.
  destruct (Widget.needs_human d); simpl; rewrite C; reflexivity.
Qed.

Lemma start_clears_input API_URL e1 e2 w v :
  chatInput (dom w) = Some v -> trim v <> [] ->
  isWaitingResponse (st w) = false ->
  chatInput (dom (sendMessage_start API_URL e1 e2 w)) = Some []
  /\ List.length (requests (sendMessage_start API_URL e1 e2 w))
     = S (List.length (requests w)).
Proof.
  intros Ev Et Ew. unfold_step. rewrite Ev.
  destruct (trim v) as [|c m] eqn:E; [congruence|]. rewrite Ew. simpl.
  destruct (chatMessages (dom w)) eqn:Em; simpl; rewrite ?Em; simpl;
    rewrite length_app; simpl; split; (reflexivity || lia).
Qed.

End CounterFacts.

(** X17.  The public [ChinfiledChat.sendMessage] of the responsive widget
    overwrites what the user has typed with its text, as the input element
    keeps it.  While a response is pending ([w1]) that text stays in the
    input and nothing is sent; otherwise ([w2]), when the text that the
    element keeps is not blank, it is posted trimmed and the input is left
    empty. *)
Theorem public_sendMessage_overwrites_draft
  (API_URL : jsstring) (w1 w2 : World) (draft1 draft2 msg : jsstring)
  (e1 e2 : entropy) :
  chatInput (dom w1) = Some draft1 -> isWaitingResponse (st w1) = true ->
  chatInput (dom w2) = Some draft2 -> isWaitingResponse (st w2) = false ->
  trim (assigned (chatInputKind (dom w2)) msg) <> [] ->
  (chatInput (dom (api_sendMessage API_URL msg e1 e2 w1))
   = Some (assigned (chatInputKind (dom w1)) msg)
   /\ st (api_sendMessage API_URL msg e1 e2 w1) = st w1
   /\ requests (api_sendMessage API_URL msg e1 e2 w1) = requests w1
   /\ chatMessages (dom (api_sendMessage API_URL msg e1 e2 w1))
      = chatMessages (dom w1))
  /\ (chatInput (dom (api_sendMessage API_URL msg e1 e2 w2)) = Some []
      /\ requests (api_sendMessage API_URL msg e1 e2 w2)
         = requests w2
           ++ [ {| url := API_URL ++ lit "/api/chat"; method := lit "POST";
                   content_type := lit "application/json";
                   body := [ (lit "message",
                              trim (assigned (chatInputKind (dom w2)) msg));
                             (lit "session_id", sessionId (st w2)) ] |} ]).
Proof.
  intros Ed1 Ew1 Ed2 Ew2 Et.
  assert (forall w draft, chatInput (dom w) = Some draft ->
            chatInput (dom (set_input msg w))
            = Some (assigned (chatInputKind (dom w)) msg)
            /\ st (set_input msg w) = st w
            /\ requests (set_input msg w) = requests w
            /\ chatMessages (dom (set_input msg w)) = chatMessages (dom w))
    as K.
  { intros w draft Ed. unfold set_input. rewrite Ed. repeat split. }
  split.
  - destruct (K w1 draft1 Ed1) as [Ei [Es [Er Em]]].
    unfold api_sendMessage. rewrite Ed1.
    assert (sendMessage_start API_URL e1 e2 (set_input msg w1)
            = set_input msg w1) as G.
    { unfold sendMessage_start, read_message. rewrite Ei, Es, Ew1.
      rewrite orb_true_r. reflexivity. }
    rewrite G. repeat split; assumption.
  - destruct (K w2 draft2 Ed2) as [Ei [Es [Er Em]]].
    unfold api_sendMessage. rewrite Ed2.
    assert (isWaitingResponse (st (set_input msg w2)) = false) as W
      by (rewrite Es; exact Ew2).
    destruct (CounterFacts.start_clears_input API_URL e1 e2 (set_input msg w2)
                _ Ei Et W) as [A _].
    split; [exact A|].
    destruct (WidgetFacts.sendMessage_start_cases API_URL e1 e2
                (set_input msg w2)) as [[[F|F] _]|H].
    + unfold read_message in F. rewrite Ei in F. simpl in F.
      destruct (trim (assigned (chatInputKind (dom w2)) msg));
        [congruence | discriminate].
    + congruence.
    + destruct H as [v [i [Ev [_ [_ [_ [_ [R _]]]]]]]].
      rewrite Ei in Ev. inversion Ev; subst v. rewrite R, Er, Es.
      reflexivity.
Qed.

(** A text of two lines; a text field keeps it without the line feed. *)
Definition two_lines : jsstring := lit " dosis" ++ [nl] ++ lit "diaria ".

Lemma public_sendMessage_overwrites_draft_witness :
  (chatInput (dom (api_sendMessage example_url two_lines e_user e_reply
                     example_waiting))
   = Some (assigned (chatInputKind (dom example_waiting)) two_lines)
   /\ st (api_sendMessage example_url two_lines e_user e_reply example_waiting)
      = st example_waiting
   /\ requests (api_sendMessage example_url two_lines e_user e_reply
                  example_waiting) = requests example_waiting
   /\ chatMessages (dom (api_sendMessage example_url two_lines e_user
                           e_reply example_waiting))
      = chatMessages (dom example_waiting))
  /\ (chatInput (dom (api_sendMessage example_url two_lines e_user e_reply
                        example_world)) = Some []
      /\ requests (api_sendMessage example_url two_lines e_user e_reply
                     example_world)
         = requests example_world
           ++ [ {| url := example_url ++ lit "/api/chat"; method := lit "POST";
                   content_type := lit "application/json";
                   body := [ (lit "message",
                              trim (assigned (chatInputKind (dom example_world))
                                      two_lines));
                             (lit "session_id",
                              sessionId (st example_world)) ] |} ]).
Proof.
  apply (public_sendMessage_overwrites_draft example_url example_waiting
           example_world [] (lit " hola ") two_lines e_user e_reply).
  - reflexivity.
  - reflexivity.
  - reflexivity.
  - reflexivity.
  - vm_compute. discriminate.
Defined.

(** In the text field of the example the two lines are posted as one
    word. *)
Example two_lines_posted :
  map body (requests (api_sendMessage example_url two_lines e_user e_reply
                        example_world))
  = [ [ (lit "message", lit "dosisdiaria");
        (lit "session_id", sessionId (st example_world)) ] ].
Proof. vm_compute. reflexivity. Qed.

(** X18.  The responsive widget contacts one endpoint only: after any
    events, every request it has added is a POST to [API_URL/api/chat] with
    the JSON content type, and it has added at most one request per
    event. *)
Theorem requests_go_to_chat_endpoint
  (API_URL : jsstring) (w : World) (evs : list event) :
  exists added,
    requests (run API_URL w evs) = requests w ++ added
    /\ Forall (CounterFacts.to_chat_endpoint API_URL) added
    /\ List.length added <= List.length evs.
Proof.
  destruct (CounterFacts.run_requests API_URL evs w) as [x [E [F L]]].
  exists x. split; [exact E|]. split; [exact F | exact L].
Qed.

(** X19.  [STATE.messageCount] counts the calls of [addMessage] that found
    the container, and nothing decreases it: a successful call adds three
    to it (the message of the user, the loading indicator and the answer),
    though the loading indicator is removed again, and no sequence of
    events lowers it. *)
Theorem message_count_never_decreases
  (API_URL : jsstring) (w : World) (e1 e2 e0 e3 : entropy) (v : jsstring)
  (ms : list message) (status : N) (d : api_fields) (evs : list event) :
  chatInput (dom w) = Some v -> trim v <> [] ->
  isWaitingResponse (st w) = false -> pending w = [] ->
  chatMessages (dom w) = Some ms ->
  messageCount
    (st (run API_URL w [ Send e1 e2;
                         Settle 0 (FetchResponse true status) e0;
                         Settle 0 (JsonData (DataObject d)) e3 ]))
  = 3 + messageCount (st w)
  /\ messageCount (st w) <= messageCount (st (run API_URL w evs)).
Proof.
  intros Ev Et Ew Ep Em. split; [|apply CounterFacts.run_count].
  pose proof (ExchangeFacts.start_call API_URL w e1 e2 v ms Ev Et Ew Ep Em) as S.
  pose proof (CounterFacts.start_count API_URL e1 e2 w v ms Ev Et Ew Em) as C.
  change (run API_URL w [ Send e1 e2; Settle 0 (FetchResponse true status) e0;
                          Settle 0 (JsonData (DataObject d)) e3 ])
    with (settle 0 (JsonData (DataObject d)) e3
            (settle 0 (FetchResponse true status) e0
               (sendMessage_start API_URL e1 e2 w))).
  destruct S as [M P W I R].
  rewrite (ExchangeFacts.settle_ok status e0 _ _ P).
  rewrite ExchangeFacts.settle_data with (i := Some (id_of e2)) by reflexivity.
  set (w2 := WidgetCalls.no_pending
               (ExchangeFacts.awaiting_json (Some (id_of e2))
                  (sendMessage_start API_URL e1 e2 w))).
  assert (chatMessages (dom w2)
          = Some (ms ++ [shown e1 user (trim v); loading e2])) as M2 by exact M.
  rewrite (CounterFacts.on_data_count (Some (id_of e2)) d e3 w2 _ M2).
  change (messageCount (st w2))
    with (messageCount (st (sendMessage_start API_URL e1 e2 w))).
  rewrite C. reflexivity.
Qed.

Lemma message_count_never_decreases_witness :
  messageCount
    (st (run example_url example_world
           [ Send e_user e_loading;
             Settle 0 (FetchResponse true 200) e_reply;
             Settle 0 (JsonData (DataObject handoff_response)) e_reply ]))
  = 3 + messageCount (st example_world)
  /\ messageCount (st example_world)
     <= messageCount (st (run example_url example_world [Toggle; Resize 500])).
Proof.
  apply (message_count_never_decreases example_url example_world e_user
           e_loading e_reply e_reply (lit " hola ") [] 200 handoff_response
           [Toggle; Resize 500]).
  - reflexivity.
  - vm_compute. discriminate.
  - reflexivity.
  - reflexivity.
  - reflexivity.
Defined.

(* ================================================================= *)
(** ** The question of askAbout, and the legacy toggle *)

Module AskFacts.

Import Widget.

(** The text [askAbout] puts into the input for a product name. *)
Definition question (productName : jsstring) : jsstring :=
  [191%N] ++ lit "Qu" ++ [233%N] ++ lit " es " ++ productName ++ lit "?".

Lemma trim_unchanged c r z :
  is_js_space c = false -> is_js_space z = false ->
  trim (c :: r ++ [z]) = c :: r ++ [z].
Proof.
  intros Hc Hz. unfold trim. rewrite (TextFacts.trim_start_fixed c _ Hc).
  assert (rev (c :: r ++ [z]) = z :: rev r ++ [c]) as E.
  { simpl. rewrite rev_app_distr. reflexivity. }
  rewrite E, (TextFacts.trim_start_fixed z _ Hz), <- E.
  apply rev_involutive.
Qed.

Lemma question_trimmed productName :
  trim (question productName) = question productName.
Proof.
  unfold question.
  replace ([191%N] ++ lit "Qu" ++ [233%N] ++ lit " es " ++ productName ++ lit "?")
    with (191%N :: (lit "Qu" ++ [233%N] ++ lit " es " ++ productName) ++ [63%N]).
  - apply trim_unchanged; reflexivity.
  - reflexivity.
Qed.

(** The question as the input element keeps it: the product name is
    treated as if it were assigned alone. *)
Lemma assigned_question k productName :
  assigned k (question productName) = question (assigned k productName).
Proof.
  destruct k; unfold assigned, question.
  - unfold strip_newlines. rewrite !filter_app. reflexivity.
  - change ([191%N] ++ lit "Qu" ++ [233%N] ++ lit " es "
            ++ productName ++ lit "?")
      with (([191%N] ++ lit "Qu" ++ [233%N] ++ lit " es ")
            ++ productName ++ [63%N]).
    rewrite PageFacts.normalize_newlines_prefix by reflexivity.
    rewrite (PageFacts.normalize_newlines_suffix 63%N)
      with (n := List.length productName);
      [reflexivity | discriminate | discriminate | apply le_n].
Qed.

(** In the legacy widget the class of the widget follows the flag; while
    the chat is open the button is hidden, and so is the badge if the page
    has one. *)
Definition legacy_in_sync (w : Legacy.World) : Prop :=
  Legacy.widget_open w = Legacy.chatOpen w
  /\ (Legacy.chatOpen w = true ->
      Legacy.button_display w = DisplayNone
      /\ (Legacy.badge w = None \/ Legacy.badge w = Some DisplayNone)).

(** What opening and closing write. *)
Definition legacy_page (w : Legacy.World) :=
  (Legacy.chatOpen w, Legacy.widget_open w, Legacy.button_display w,
   Legacy.badge w).

Lemma legacy_page_in_sync w w' :
  legacy_page w' = legacy_page w -> legacy_in_sync w -> legacy_in_sync w'.
Proof.
  unfold legacy_page, legacy_in_sync. intros E H.
  injection E as -> -> -> ->. exact H.
Qed.

Lemma legacy_toggle_in_sync w : legacy_in_sync (Legacy.toggleChat w).
Proof.
  unfold legacy_in_sync, Legacy.toggleChat.
  destruct (Legacy.chatOpen w); simpl.
  - split; [reflexivity | discriminate].
  - split; [reflexivity|]. intros _. split; [reflexivity|].
    destruct (Legacy.badge w); [right | left]; reflexivity.
Qed.

Lemma legacy_start_page t1 t2 w :
  legacy_page (Legacy.sendMessage_start t1 t2 w) = legacy_page w.
Proof.
  unfold Legacy.sendMessage_start.
  destruct (falsy (Some (trim (Legacy.input w)))
            || Legacy.isWaitingResponse w)%bool; reflexivity.
Qed.

Lemma legacy_settle_page k r t w :
  legacy_page (Legacy.settle k r t w) = legacy_page w.
Proof.
  unfold Legacy.settle.
  destruct (nth_error (Legacy.pending w) k) as [i|]; [|reflexivity].
  unfold Legacy.resume, Legacy.on_data, Legacy.catch_finally.
  destruct r as [ | status | | [|d]]; try reflexivity.
  simpl. destruct (handoff_to_human d); reflexivity.
Qed.

Lemma legacy_step_in_sync w ev :
  legacy_in_sync w -> legacy_in_sync (Legacy.step w ev).
Proof.
  intros H. destruct ev; simpl.
  - apply (legacy_page_in_sync w); [apply legacy_start_page | exact H].
  - destruct (enter && negb shift)%bool; [|exact H].
    apply (legacy_page_in_sync w); [apply legacy_start_page | exact H].
  - apply (legacy_page_in_sync w); [apply legacy_settle_page | exact H].
  - exact H.
  - apply legacy_toggle_in_sync.
  - unfold Legacy.openChat. destruct (Legacy.chatOpen w);
      [exact H | apply legacy_toggle_in_sync].
  - unfold Legacy.closeChat. destruct (Legacy.chatOpen w);
      [apply legacy_toggle_in_sync | exact H].
  - unfold Legacy.openChat. destruct (Legacy.chatOpen w);
      [exact H | apply legacy_toggle_in_sync].
  - eapply legacy_page_in_sync; [apply legacy_start_page | exact H].
Qed.

End AskFacts.

(** X20.  When the timer of [askAbout] fires while no response is
    pending, the widget posts the question built from the product name as
    the input element keeps it: the opening question mark, [Que es], the
    name and the closing question mark, untouched by the trimming, also
    for an empty name.  A name without line feed and carriage return is
    kept as it is, so the question is posted as [askAbout] built it.  This
    holds of both widgets. *)
Theorem askAbout_posts_question
  (API_URL : jsstring) (w : World) (productName draft : jsstring)
  (e1 e2 : entropy) (lw : Legacy.World) (t1 t2 : N) :
  chatInput (dom w) = Some draft ->
  isWaitingResponse (st w) = false ->
  Legacy.isWaitingResponse lw = false ->
  requests (step API_URL w (AskAboutTimer productName e1 e2))
  = requests w
    ++ [ {| url := API_URL ++ lit "/api/chat"; method := lit "POST";
            content_type := lit "application/json";
            body := [ (lit "message",
                       AskFacts.question
                         (assigned (chatInputKind (dom w)) productName));
                      (lit "session_id", sessionId (st w)) ] |} ]
  /\ Legacy.requests (Legacy.step lw (Legacy.AskAboutTimer productName t1 t2))
     = Legacy.requests lw
       ++ [ {| url := lit "http://localhost:8000/api/chat";
               method := lit "POST";
               content_type := lit "application/json";
               body := [ (lit "message",
                          AskFacts.question
                            (assigned (Legacy.input_kind lw) productName)) ] |} ]
  /\ (forallb PageFacts.no_newline productName = true ->
      forall k, assigned k productName = productName).
Proof.
  intros Ed Ew Lw.
  assert (forall x, trim (AskFacts.question x) = AskFacts.question x) as T
    by (intros x; apply AskFacts.question_trimmed).
  assert (forall x, AskFacts.question x <> []) as Ne by discriminate.
  split; [|split].
  - change (step API_URL w (AskAboutTimer productName e1 e2))
      with (api_sendMessage API_URL (AskFacts.question productName) e1 e2 w).
    unfold api_sendMessage. rewrite Ed.
    set (w0 := set_input (AskFacts.question productName) w).
    assert (chatInput (dom w0)
            = Some (AskFacts.question
                      (assigned (chatInputKind (dom w)) productName))) as Ei.
    { unfold w0, set_input. rewrite Ed. simpl.
      rewrite AskFacts.assigned_question. reflexivity. }
    assert (isWaitingResponse (st w0) = false) as W0.
    { unfold w0, set_input. rewrite Ed. exact Ew. }
    destruct (WidgetFacts.sendMessage_start_cases API_URL e1 e2 w0)
      as [[[F|F] _]|H].
    + unfold read_message in F. rewrite Ei, T in F. discriminate.
    + congruence.
    + destruct H as [v [i [Ev [_ [_ [_ [_ [R _]]]]]]]].
      rewrite Ei in Ev. inversion Ev; subst v. rewrite T in R. rewrite R.
      unfold w0, set_input. rewrite Ed. reflexivity.
  - change (Legacy.step lw (Legacy.AskAboutTimer productName t1 t2))
      with (Legacy.sendMessage_start t1 t2
              (Legacy.assign_input lw (AskFacts.question productName))).
    set (l0 := Legacy.assign_input lw (AskFacts.question productName)).
    assert (Legacy.input l0
            = AskFacts.question (assigned (Legacy.input_kind lw) productName))
      as Ei.
    { unfold l0, Legacy.assign_input. simpl.
      apply AskFacts.assigned_question. }
    assert (trim (Legacy.input l0) <> []) as N0.
    { rewrite Ei, T. apply Ne. }
    destruct (LegacyFacts.legacy_sendMessage_start_request t1 t2 l0 N0 Lw)
      as [R _].
    rewrite R, Ei, T. reflexivity.
  - intros H k. apply PageFacts.assigned_plain. exact H.
Qed.

Lemma askAbout_posts_question_witness :
  requests (step example_url example_world
              (AskAboutTimer (lit "Ivermectina") e_user e_loading))
  = requests example_world
    ++ [ {| url := example_url ++ lit "/api/chat"; method := lit "POST";
            content_type := lit "application/json";
            body := [ (lit "message",
                       AskFacts.question
                         (assigned (chatInputKind (dom example_world))
                            (lit "Ivermectina")));
                      (lit "session_id", sessionId (st example_world)) ] |} ]
  /\ Legacy.requests
       (Legacy.step legacy_example
          (Legacy.AskAboutTimer (lit "Ivermectina") 5 6))
     = Legacy.requests legacy_example
       ++ [ {| url := lit "http://localhost:8000/api/chat";
               method := lit "POST";
               content_type := lit "application/json";
               body := [ (lit "message",
                          AskFacts.question
                            (assigned (Legacy.input_kind legacy_example)
                               (lit "Ivermectina"))) ] |} ]
  /\ (forall k, assigned k (lit "Ivermectina") = lit "Ivermectina").
Proof.
  destruct (askAbout_posts_question example_url example_world
              (lit "Ivermectina") (lit " hola ") e_user e_loading
              legacy_example 5 6) as [A [B C]].
  - reflexivity.
  - reflexivity.
  - reflexivity.
  - split; [exact A|]. split; [exact B|]. apply C. reflexivity.
Defined.

(** A product name with a carriage return and a line feed: the text field
    of the example posts the question without them, a textarea would post
    it with one line feed. *)
Example askAbout_name_of_two_lines :
  map body (requests (step example_url example_world
                        (AskAboutTimer (lit "A" ++ [cr; nl] ++ lit "B")
                           e_user e_loading)))
  = [ [ (lit "message", AskFacts.question (lit "AB"));
        (lit "session_id", sessionId (st example_world)) ] ]
  /\ assigned TextArea (AskFacts.question (lit "A" ++ [cr; nl] ++ lit "B"))
     = AskFacts.question (lit "A" ++ [nl] ++ lit "B").
Proof. split; vm_compute; reflexivity. Qed.

(** X21.  In the legacy widget the class [open] of the widget follows the
    flag [chatOpen] through every event, and while the chat is open the
    button is hidden, and the badge too.  [openChat] and [closeChat] are
    idempotent.  [toggleChat] twice brings back the flag and the class,
    not the page: after opening and closing the button is displayed as
    [flex] and the badge stays hidden. *)
Theorem legacy_toggle_keeps_class
  (lw : Legacy.World) (evs : list Legacy.event) :
  (AskFacts.legacy_in_sync lw -> AskFacts.legacy_in_sync (Legacy.run lw evs))
  /\ Legacy.openChat (Legacy.openChat lw) = Legacy.openChat lw
  /\ Legacy.closeChat (Legacy.closeChat lw) = Legacy.closeChat lw
  /\ Legacy.chatOpen (Legacy.openChat lw) = true
  /\ Legacy.chatOpen (Legacy.closeChat lw) = false
  /\ Legacy.chatOpen (Legacy.toggleChat (Legacy.toggleChat lw))
     = Legacy.chatOpen lw
  /\ Legacy.widget_open (Legacy.toggleChat (Legacy.toggleChat lw))
     = Legacy.chatOpen lw
  /\ (Legacy.chatOpen lw = false ->
      Legacy.button_display (Legacy.toggleChat (Legacy.toggleChat lw))
      = DisplayFlex
      /\ Legacy.badge (Legacy.toggleChat (Legacy.toggleChat lw))
         = match Legacy.badge lw with
           | Some _ => Some DisplayNone
           | None => None
           end).
Proof.
  split.
  - revert lw. induction evs as [|ev evs IH]; intros lw H; simpl;
      [exact H|].
    apply IH. apply AskFacts.legacy_step_in_sync. exact H.
  - destruct lw as [o wt wo i ms rq pd k bd b].
    unfold Legacy.openChat, Legacy.closeChat, Legacy.toggleChat. simpl.
    destruct o; simpl; repeat split; try reflexivity; discriminate.
Qed.

Lemma legacy_toggle_keeps_class_witness :
  AskFacts.legacy_in_sync
    (Legacy.run legacy_example [Legacy.Toggle; Legacy.AskAbout])
  /\ Legacy.openChat (Legacy.openChat legacy_example)
     = Legacy.openChat legacy_example
  /\ Legacy.closeChat (Legacy.closeChat legacy_example)
     = Legacy.closeChat legacy_example
  /\ Legacy.chatOpen (Legacy.openChat legacy_example) = true
  /\ Legacy.chatOpen (Legacy.closeChat legacy_example) = false
  /\ Legacy.chatOpen (Legacy.toggleChat (Legacy.toggleChat legacy_example))
     = Legacy.chatOpen legacy_example
  /\ Legacy.widget_open (Legacy.toggleChat (Legacy.toggleChat legacy_example))
     = Legacy.chatOpen legacy_example
  /\ Legacy.button_display
       (Legacy.toggleChat (Legacy.toggleChat legacy_example))
     = DisplayFlex
  /\ Legacy.badge (Legacy.toggleChat (Legacy.toggleChat legacy_example))
     = Some DisplayNone.
Proof.
  destruct (legacy_toggle_keeps_class legacy_example
              [Legacy.Toggle; Legacy.AskAbout])
    as [A [B [C [D [E [F [G H]]]]]]].
  split; [apply A; split; [reflexivity | discriminate]|].
  split; [exact B|]. split; [exact C|]. split; [exact D|].
  split; [exact E|]. split; [exact F|]. split; [exact G|].
  apply H. reflexivity.
Defined.

(** The page after opening and closing the legacy chat is not the page
    before: the button has an inline display and the badge is hidden. *)
Example legacy_toggle_twice_changes_page :
  AskFacts.legacy_in_sync legacy_example
  /\ Legacy.button_display legacy_example = DisplayDefault
  /\ Legacy.badge legacy_example = Some DisplayDefault
  /\ Legacy.button_display (Legacy.toggleChat (Legacy.toggleChat legacy_example))
     = DisplayFlex
  /\ Legacy.badge (Legacy.toggleChat (Legacy.toggleChat legacy_example))
     = Some DisplayNone.
Proof.
  split; [split; [reflexivity | discriminate]|]. repeat split.
Qed.
